(** * SecureDocAI ingestion pipeline: a shallow embedding and its properties

    The development follows the three edge functions of the repository:

    - [supabase/functions/process-document/index.ts]: the ingestion trigger,
      the background job, the PDF extractors, the retrying transport and the
      chunker;
    - [supabase/functions/cleanup-stuck-documents/index.ts]: the sweeper;
    - [supabase/functions/chat/index.ts]: the keyword retrieval scorer.

    JavaScript strings are sequences of UTF-16 code units, modelled as
    [list Z].  Regular expressions of the source are modelled by the matcher
    that decides, at one position of the subject, how many code units the
    expression consumes there; global replace, split and match are left to
    right scans with that matcher. *)

From Stdlib Require Import String Ascii.
From Stdlib Require Import ZArith List Bool Lia Arith PeanoNat.
From Stdlib Require Import Sorting.Permutation Sorting.Sorted.
From Stdlib Require Import DecimalPos.
Import ListNotations.

Set Implicit Arguments.

(* ------------------------------------------------------------------ *)
(** ** JavaScript strings *)
(* ------------------------------------------------------------------ *)

Module Js.

Definition jsstring := list Z.

(** A source literal, as its code units. *)
Definition lit (s : string) : jsstring :=
  map (fun a => Z.of_N (N_of_ascii a)) (list_ascii_of_string s).

Definition str_eqb (a b : jsstring) : bool :=
  if list_eq_dec Z.eq_dec a b then true else false.

Local Open Scope Z_scope.

(** White space of [\s] and of [String.prototype.trim]: the WhiteSpace and
    LineTerminator code points of ECMA-262. *)
Definition isSpace (c : Z) : bool :=
  ((9 <=? c) && (c <=? 13)) || (c =? 32) || (c =? 160) || (c =? 5760)
  || ((8192 <=? c) && (c <=? 8202)) || (c =? 8232) || (c =? 8233)
  || (c =? 8239) || (c =? 8287) || (c =? 12288) || (c =? 65279).

Definition isLineTerminator (c : Z) : bool :=
  (c =? 10) || (c =? 13) || (c =? 8232) || (c =? 8233).

Definition isDigit (c : Z) : bool := (48 <=? c) && (c <=? 57).
Definition isUpper (c : Z) : bool := (65 <=? c) && (c <=? 90).
Definition isLower (c : Z) : bool := (97 <=? c) && (c <=? 122).

(** [\w] without the unicode flag. *)
Definition isWordChar (c : Z) : bool :=
  isDigit c || isUpper c || isLower c || (c =? 95).

(** The class [[.!?]] of the sentence regex. *)
Definition isSentenceEnd (c : Z) : bool :=
  (c =? 46) || (c =? 33) || (c =? 63).

(** Case-insensitive comparison of a pattern character with a subject code
    unit under the [i] flag without the [u] flag: Canonicalize upper-cases
    both, and never maps a code unit outside ASCII to one inside, so an
    ASCII letter of the pattern matches exactly its two ASCII cases. *)
Definition ciEq (a c : Z) : bool :=
  (c =? a) || (isLower a && (c =? a - 32)) || (isUpper a && (c =? a + 32)).

Local Close Scope Z_scope.

Fixpoint isPrefix (p s : jsstring) : bool :=
  match p, s with
  | [], _ => true
  | _ :: _, [] => false
  | a :: p', c :: s' => Z.eqb a c && isPrefix p' s'
  end.

(** [s.includes(k)] *)
Fixpoint includes (k s : jsstring) : bool :=
  isPrefix k s || match s with [] => false | _ :: s' => includes k s' end.

Fixpoint dropWhile (f : Z -> bool) (s : jsstring) : jsstring :=
  match s with
  | [] => []
  | c :: s' => if f c then dropWhile f s' else s
  end.

Fixpoint takeWhile (f : Z -> bool) (s : jsstring) : jsstring :=
  match s with
  | [] => []
  | c :: s' => if f c then c :: takeWhile f s' else []
  end.

(** [s.trim()] *)
Definition trim (s : jsstring) : jsstring :=
  rev (dropWhile isSpace (rev (dropWhile isSpace s))).

(** [s.slice(-n)] for a positive [n]: the last [n] code units, the whole of
    a shorter string. *)
Definition sliceLast (n : nat) (s : jsstring) : jsstring :=
  skipn (length s - n) s.

(** [s.substring(0, n)] *)
Definition substring0 (n : nat) (s : jsstring) : jsstring := firstn n s.

(** [parts.join(sep)] *)
Fixpoint join (sep : jsstring) (parts : list jsstring) : jsstring :=
  match parts with
  | [] => []
  | [p] => p
  | p :: ps => p ++ sep ++ join sep ps
  end.

(** *** Regular expressions as matchers

    A matcher receives the code unit before the current position (for the
    look-behind assertions and [\b]) and the rest of the subject, and
    answers the length of the match that starts here, [0] when there is
    none.  None of the expressions of the source matches the empty string. *)

Definition matcher := option Z -> jsstring -> nat.

Inductive tok : Type :=
| Keep (c : Z)
| Hit (w : jsstring).

(** The global scan shared by [replace] with a [g] regex, [split] and
    [match] with a [g] regex: the leftmost match is taken, the scan resumes
    after it ([skip] counts the code units of a match still to be passed). *)
Fixpoint scan (m : matcher) (prev : option Z) (skip : nat) (s : jsstring)
  : list tok :=
  match s with
  | [] => []
  | c :: s' =>
      match skip with
      | S k => scan m (Some c) k s'
      | O =>
          match m prev s with
          | O => Keep c :: scan m (Some c) 0 s'
          | S k => Hit (firstn (S k) s) :: scan m (Some c) k s'
          end
      end
  end.

Definition emit (rep : jsstring) (t : tok) : jsstring :=
  match t with Keep c => [c] | Hit _ => rep end.

(** [s.replace(/re/g, rep)] for a replacement without [$] patterns. *)
Definition jsReplace (m : matcher) (rep : jsstring) (s : jsstring) : jsstring :=
  flat_map (emit rep) (scan m None 0 s).

(** The pieces between the hits: the piece under construction and the
    pieces after it. *)
Fixpoint pieces (ts : list tok) : jsstring * list jsstring :=
  match ts with
  | [] => ([], [])
  | Keep c :: ts' => let (p, ps) := pieces ts' in (c :: p, ps)
  | Hit _ :: ts' => let (p, ps) := pieces ts' in ([], p :: ps)
  end.

(** [s.split(/re/)] for an expression without capture groups. *)
Definition jsSplit (m : matcher) (s : jsstring) : list jsstring :=
  let (p, ps) := pieces (scan m None 0 s) in p :: ps.

Fixpoint hits (ts : list tok) : list jsstring :=
  match ts with
  | [] => []
  | Keep _ :: ts' => hits ts'
  | Hit w :: ts' => w :: hits ts'
  end.

(** [s.match(/re/g)]: the matched substrings ([null] is the empty list). *)
Definition jsMatchAll (m : matcher) (s : jsstring) : list jsstring :=
  hits (scan m None 0 s).

(** A literal pattern, case-sensitive. *)
Definition literal (p : jsstring) : matcher :=
  fun _ s => if isPrefix p s then length p else 0.

End Js.

Import Js.

(* ------------------------------------------------------------------ *)
(** ** The chunker ([process-document/index.ts], lines 654-714) *)
(* ------------------------------------------------------------------ *)

Module Chunker.

Definition CHUNK_SIZE_TOKENS : nat := 500.
Definition CHUNK_OVERLAP_TOKENS : nat := 100.
Definition CHARS_PER_TOKEN : nat := 4.

Definition abbreviations : list jsstring :=
  map lit ["mr"; "mrs"; "ms"; "dr"; "prof"; "sr"; "jr"; "vs"; "etc"; "inc";
           "ltd"; "co"; "corp"; "st"; "ave"; "blvd"; "e.g"; "i.e"; "fig";
           "vol"; "no"; "pp"]%string.

(** One atom of the abbreviation inside [new RegExp(`\\b${abbr}\\.`, 'gi')]:
    the text of the abbreviation is pasted into the pattern unescaped, so
    the dot of "e.g" and "i.e" is the wildcard (any code unit but a line
    terminator); a letter is compared without case. *)
Definition atomMatches (a c : Z) : bool :=
  if Z.eqb a 46 then negb (isLineTerminator c) else ciEq a c.

Fixpoint matchAtoms (p s : jsstring) : bool :=
  match p, s with
  | [], _ => true
  | _ :: _, [] => false
  | a :: p', c :: s' => atomMatches a c && matchAtoms p' s'
  end.

Definition wordBefore (prev : option Z) : bool :=
  match prev with Some c => isWordChar c | None => false end.

Definition wordAt (s : jsstring) : bool :=
  match s with c :: _ => isWordChar c | [] => false end.

(** [\b<abbr>\.] with flags [gi]. *)
Definition abbrRegex (abbr : jsstring) : matcher :=
  fun prev s =>
    if negb (Bool.eqb (wordBefore prev) (wordAt s))
       && matchAtoms abbr s
       && isPrefix [46%Z] (skipn (length abbr) s)
    then S (length abbr) else 0.

Fixpoint lastNewline (run : jsstring) (i : nat) (found : nat) : nat :=
  match run with
  | [] => found
  | c :: run' => lastNewline run' (S i) (if Z.eqb c 10 then S i else found)
  end.

(** [/(?<=[.!?])\s+(?=[A-Z])|(?<=[.!?])\s*\n+/g].  Both alternatives sit
    behind a sentence end.  The greedy [\s+] takes the whole white-space run
    and any shorter choice is followed by white space, so the first
    alternative matches the run exactly when an ASCII capital follows it.
    Otherwise [\s*] gives code units back until [\n+] finds a newline: the
    match is the run up to and including its last newline. *)
Definition sentenceRegex : matcher :=
  fun prev s =>
    match prev with
    | Some p =>
        if isSentenceEnd p then
          let run := takeWhile isSpace s in
          match run with
          | [] => 0
          | _ :: _ =>
              match skipn (length run) s with
              | c :: _ => if isUpper c then length run
                          else lastNewline run 0 0
              | [] => lastNewline run 0 0
              end
          end
        else 0
    | None => 0
    end.

Definition DOT : jsstring := lit "<<DOT>>".
Definition PAGE_MARKER : jsstring := lit "<<PAGE_MARKER>>".
Definition PDF_PAGE : jsstring := lit "=== PDF PAGE".

Definition maskAbbreviations (text : jsstring) : jsstring :=
  fold_left (fun processedText abbr =>
               jsReplace (abbrRegex abbr) (abbr ++ DOT) processedText)
            abbreviations text.

Definition restore (s : jsstring) : jsstring :=
  jsReplace (literal PAGE_MARKER) PDF_PAGE (jsReplace (literal DOT) [46%Z] s).

Definition splitIntoSentences (text : jsstring) : list jsstring :=
  let processedText := maskAbbreviations text in
  let processedText := jsReplace (literal PDF_PAGE) PAGE_MARKER processedText in
  let sentences := jsSplit sentenceRegex processedText in
  map restore sentences.

Record ChunkState : Type := mkChunkState {
  chunks : list jsstring;
  currentChunk : jsstring;
  overlapBuffer : jsstring
}.

Definition targetChunkSize : nat := CHUNK_SIZE_TOKENS * CHARS_PER_TOKEN.
Definition overlapSize : nat := CHUNK_OVERLAP_TOKENS * CHARS_PER_TOKEN.

(** The body of the [for (const sentence of sentences)] loop. *)
Definition chunkStep (st : ChunkState) (sentence : jsstring) : ChunkState :=
  let trimmedSentence := trim sentence in
  match trimmedSentence with
  | [] => st
  | _ :: _ =>
      let '(chunks', currentChunk') :=
        if (targetChunkSize <? length (currentChunk st) + length trimmedSentence)
           && (0 <? length (currentChunk st))
        then (chunks st ++ [trim (currentChunk st)],
              overlapBuffer st ++ [32%Z] ++ trimmedSentence)
        else (chunks st,
              match currentChunk st with
              | [] => trimmedSentence
              | _ :: _ => currentChunk st ++ [32%Z] ++ trimmedSentence
              end) in
      let combinedForOverlap := overlapBuffer st ++ [32%Z] ++ trimmedSentence in
      mkChunkState chunks' currentChunk'
        (if overlapSize <? length combinedForOverlap
         then trim (sliceLast overlapSize combinedForOverlap)
         else trim combinedForOverlap)
  end.

(** The [chunks] array when the loop and the final push are done, before
    the closing [filter]. *)
Definition collectChunks (sentences : list jsstring) : list jsstring :=
  let st := fold_left chunkStep sentences (mkChunkState [] [] []) in
  match trim (currentChunk st) with
  | [] => chunks st
  | _ :: _ => chunks st ++ [trim (currentChunk st)]
  end.

Definition MIN_CHUNK_LENGTH : nat := 50.

Definition splitIntoSmartChunks (text : jsstring) : list jsstring :=
  filter (fun chunk => MIN_CHUNK_LENGTH <? length chunk)
         (collectChunks (splitIntoSentences text)).

End Chunker.

(* ------------------------------------------------------------------ *)
(** ** The platform: database rows, storage, the AI gateway, the clock *)
(* ------------------------------------------------------------------ *)

Module Platform.

Local Open Scope Z_scope.

(** [public.source_status] *)
Inductive Status : Type := pending | processing | ready | error.

(** A row of [public.sources].  Timestamps are milliseconds. *)
Record Source : Type := mkSource {
  id : jsstring;
  name : jsstring;
  file_path : jsstring;
  file_type : jsstring;
  file_size : Z;
  uploaded_by : jsstring;
  status : Status;
  error_message : option jsstring;
  processing_started_at : option Z;
  processing_progress : option Z;
  processing_info : option jsstring;
  page_count : option Z;
  content_preview : option jsstring;
  updated_at : Z
}.

(** A row of [public.source_chunks] (the generated row id, which nothing
    in the pipeline reads, is left out). *)
Record Chunk : Type := mkChunk {
  source_id : jsstring;
  chunk_index : nat;
  content : jsstring
}.

(** What [supabase.storage.from("documents").download(path)] answers. *)
Inductive Download : Type :=
| DownloadError (message : option jsstring)
| Downloaded (text : jsstring).

(** What one call of [fetch] to the gateway does: it rejects with a network
    error, or resolves with a status and a body, which is JSON carrying
    [choices[0].message.content] or does not parse. *)
Inductive Body : Type :=
| NotJson (message : jsstring)
| Completion (content : jsstring).

Record Response : Type := mkResponse { resp_status : Z; resp_body : Body }.

Inductive FetchOutcome : Type :=
| NetworkError (message : jsstring)
| Responds (r : Response).

Record World : Type := mkWorld {
  sources : list Source;
  source_chunks : list Chunk;
  storage : jsstring -> Download;
  (** the outcome and the duration (ms) of the n-th call of [fetch] *)
  network : nat -> FetchOutcome * Z;
  fetches : nat;
  (** [Date.now()] *)
  clock : Z;
  (** the waits passed to [setTimeout], oldest first *)
  sleeps : list Z;
  (** [Deno.env.get("LOVABLE_API_KEY")] *)
  LOVABLE_API_KEY : option jsstring
}.

Definition setSources (w : World) (s : list Source) : World :=
  mkWorld s (source_chunks w) (storage w) (network w) (fetches w) (clock w)
          (sleeps w) (LOVABLE_API_KEY w).

Definition setChunks (w : World) (c : list Chunk) : World :=
  mkWorld (sources w) c (storage w) (network w) (fetches w) (clock w)
          (sleeps w) (LOVABLE_API_KEY w).

(** *** Promises that may reject: state and exceptions *)

Inductive Result (A : Type) : Type :=
| Ok (a : A)
| Throw (message : jsstring).
Arguments Ok {A} a.
Arguments Throw {A} message.

Definition M (A : Type) : Type := World -> Result A * World.

Definition ret {A} (a : A) : M A := fun w => (Ok a, w).

Definition bind {A B} (c : M A) (k : A -> M B) : M B :=
  fun w => match c w with
           | (Ok a, w') => k a w'
           | (Throw e, w') => (Throw e, w')
           end.

Definition throw {A} (message : jsstring) : M A := fun w => (Throw message, w).

(** [try { c } catch (error) { h(error.message) }]: what [c] did before it
    threw stays done. *)
Definition tryCatch {A} (c : M A) (h : jsstring -> M A) : M A :=
  fun w => match c w with
           | (Ok a, w') => (Ok a, w')
           | (Throw e, w') => h e w'
           end.

Declare Scope js_scope.
Delimit Scope js_scope with js.
Notation "x <- c ;; k" := (bind c (fun x => k))
  (at level 61, c at next level, right associativity) : js_scope.
Notation "c ;; k" := (bind c (fun _ => k))
  (at level 61, right associativity) : js_scope.
Local Open Scope js_scope.

(** *** Database statements.  supabase-js reports a failed statement in
    the [error] field of its answer and does not throw; the job looks at
    that field nowhere but in the chunk insert, where it only logs.  The
    statements are modelled as succeeding. *)

(** Modelled from the spec: the function [public.update_updated_at] run by
    the trigger [update_sources_updated_at] BEFORE UPDATE on [sources]; its
    body is in no source file.  The spec has [updated_at] as the time of
    the last write to the row (it doubles as the heartbeat): each update
    stamps it with the current time, which is also what the heartbeat
    writes itself. *)
Definition update_updated_at (t : Z) (r : Source) : Source :=
  mkSource (id r) (name r) (file_path r) (file_type r) (file_size r)
           (uploaded_by r) (status r) (error_message r)
           (processing_started_at r) (processing_progress r)
           (processing_info r) (page_count r) (content_preview r) t.

(** [supabase.from("sources").update(f).eq("id", i)] *)
Definition updateSource (i : jsstring) (f : Source -> Source) : M unit :=
  fun w =>
    (Ok tt,
     setSources w
       (map (fun r => if str_eqb (id r) i
                      then update_updated_at (clock w) (f r) else r)
            (sources w))).

(** [supabase.from("source_chunks").delete().eq("source_id", i)] *)
Definition deleteChunks (i : jsstring) : M unit :=
  fun w =>
    (Ok tt,
     setChunks w (filter (fun c => negb (str_eqb (source_id c) i))
                         (source_chunks w))).

(** [supabase.from("source_chunks").insert(batch)] *)
Definition insertChunks (batch : list Chunk) : M unit :=
  fun w => (Ok tt, setChunks w (source_chunks w ++ batch)).

Definition download (path : jsstring) : M Download :=
  fun w => (Ok (storage w path), w).

Definition dateNow : M Z := fun w => (Ok (clock w), w).

(** The state after a wait of [ms]. *)
Definition slept (ms : Z) (w : World) : World :=
  mkWorld (sources w) (source_chunks w) (storage w) (network w) (fetches w)
          (clock w + ms) (sleeps w ++ [ms]) (LOVABLE_API_KEY w).

(** [await new Promise(resolve => setTimeout(resolve, ms))] *)
Definition sleep (ms : Z) : M unit := fun w => (Ok tt, slept ms w).

(** The state after a call of [fetch] that took [elapsed]. *)
Definition fetched (elapsed : Z) (w : World) : World :=
  mkWorld (sources w) (source_chunks w) (storage w) (network w)
          (S (fetches w)) (clock w + elapsed) (sleeps w) (LOVABLE_API_KEY w).

(** [await fetch(url, options)] *)
Definition fetch : M Response :=
  fun w =>
    let '(outcome, elapsed) := network w (fetches w) in
    match outcome with
    | NetworkError e => (Throw e, fetched elapsed w)
    | Responds r => (Ok r, fetched elapsed w)
    end.

(** [response.ok] *)
Definition ok (r : Response) : bool :=
  (200 <=? resp_status r) && (resp_status r <=? 299).

(** [await response.json()], then [data.choices?.[0]?.message?.content || ""] *)
Definition completionOf (r : Response) : M jsstring :=
  match resp_body r with
  | NotJson e => throw e
  | Completion text => ret text
  end.

(** *** Numbers and text *)

Fixpoint uintDigits (u : Decimal.uint) : jsstring :=
  match u with
  | Decimal.Nil => []
  | Decimal.D0 u => 48 :: uintDigits u
  | Decimal.D1 u => 49 :: uintDigits u
  | Decimal.D2 u => 50 :: uintDigits u
  | Decimal.D3 u => 51 :: uintDigits u
  | Decimal.D4 u => 52 :: uintDigits u
  | Decimal.D5 u => 53 :: uintDigits u
  | Decimal.D6 u => 54 :: uintDigits u
  | Decimal.D7 u => 55 :: uintDigits u
  | Decimal.D8 u => 56 :: uintDigits u
  | Decimal.D9 u => 57 :: uintDigits u
  end.

(** [`${n}`] for an integer. *)
Definition showZ (n : Z) : jsstring :=
  match n with
  | Z0 => [48]
  | Zpos p => uintDigits (Pos.to_uint p)
  | Zneg p => 45 :: uintDigits (Pos.to_uint p)
  end.

(** [parseInt(s, 10)] on a string of decimal digits (exact below 2^53,
    where JavaScript numbers are). *)
Definition parseInt (s : jsstring) : Z :=
  fold_left (fun acc c => acc * 10 + (c - 48)) s 0.

(** [Math.ceil(a / b)] for a positive [b]. *)
Definition ceilDiv (a b : Z) : Z := - ((- a) / b).

(** [Math.round(a / b)] for a positive [b]: halves go up. *)
Definition roundDiv (a b : Z) : Z := (2 * a + b) / (2 * b).

(** [(bytes / (1024 * 1024)).toFixed(1)]: the quotient by a power of two is
    exact, and [toFixed] picks the nearest tenth, the larger one on a tie. *)
Definition megabytesFixed1 (bytes : Z) : jsstring :=
  let tenths := roundDiv (10 * bytes) 1048576 in
  showZ (tenths / 10) ++ [46] ++ showZ (tenths mod 10).

Definition len (s : jsstring) : Z := Z.of_nat (length s).

(** ASCII letters of [toUpperCase]. *)
Definition toUpperCase (s : jsstring) : jsstring :=
  map (fun c => if isLower c then c - 32 else c) s.

End Platform.

(* ------------------------------------------------------------------ *)
(** ** The ingestion job ([process-document/index.ts], lines 36-652) *)
(* ------------------------------------------------------------------ *)

Module Ingestion.
Import Platform Chunker.

Local Open Scope Z_scope.
Local Open Scope js_scope.

Definition PAGES_PER_BATCH : Z := 5.
Definition ESTIMATED_CHARS_PER_PAGE : Z := 3000.

(** *** The retrying transport *)

Definition handleAiError {A} (response : Response) : M A :=
  if resp_status response =? 429 then
    throw (lit "AI rate limit exceeded. Please try again in a few minutes.")
  else if resp_status response =? 402 then
    throw (lit "AI credits exhausted. Please add funds to continue.")
  else
    throw (lit "AI extraction failed (" ++ showZ (resp_status response)
               ++ lit ")").

(** How one turn of the [for] loop of [fetchWithRetry] ends: with a
    [return], or by going round again with the [lastError] it leaves. *)
Inductive Turn : Type :=
| Returns (response : Response)
| Continues (lastError : option jsstring).

Definition attemptOnce (attempt : Z) (lastError : option jsstring) : M Turn :=
  tryCatch
    (response <- fetch ;;
     if (400 <=? resp_status response) && (resp_status response <? 500)
        && negb (resp_status response =? 429)
     then ret (Returns response)
     else if (500 <=? resp_status response) || (resp_status response =? 429)
     then sleep (2 ^ attempt * 1000) ;; ret (Continues lastError)
     else ret (Returns response))
    (fun message =>
       sleep (2 ^ attempt * 1000) ;; ret (Continues (Some message))).

Fixpoint retryLoop (remaining : nat) (attempt : Z) (lastError : option jsstring)
  : M Response :=
  match remaining with
  | O =>
      throw (match lastError with
             | Some message => message
             | None => lit "Max retries exceeded"
             end)
  | S remaining' =>
      turn <- attemptOnce attempt lastError ;;
      match turn with
      | Returns response => ret response
      | Continues lastError' => retryLoop remaining' (attempt + 1) lastError'
      end
  end.

Definition fetchWithRetry (maxRetries : nat) : M Response :=
  retryLoop maxRetries 0 None.

(** The call shared by the three extractors: the request through the
    retrying transport with 3 attempts, [handleAiError] unless
    [response.ok], then the text of the completion. *)
Definition aiCompletion : M jsstring :=
  response <- fetchWithRetry 3 ;;
  (if ok response then ret tt else handleAiError response) ;;
  completionOf response.

(** *** Page markers in extracted text *)

(** [/<head>\d+ of (\d+) ===/] for the two heads; both digit runs are
    greedy and a shorter choice is followed by a digit, so each is the
    whole run. *)
Definition markerRegex (head : jsstring) : matcher :=
  fun _ s =>
    if isPrefix head s then
      let s1 := skipn (length head) s in
      let d1 := takeWhile isDigit s1 in
      let s2 := skipn (length d1) s1 in
      let s3 := skipn 4 s2 in
      let d2 := takeWhile isDigit s3 in
      let s4 := skipn (length d2) s3 in
      if negb (length d1 =? 0)%nat && isPrefix (lit " of ") s2
         && negb (length d2 =? 0)%nat && isPrefix (lit " ===") s4
      then (length head + length d1 + 4 + length d2 + 4)%nat else 0%nat
    else 0%nat.

(** [/of (\d+)/] *)
Definition ofRegex : matcher :=
  fun _ s =>
    if isPrefix (lit "of ") s then
      match takeWhile isDigit (skipn 3 s) with
      | [] => 0%nat
      | d => (3 + length d)%nat
      end
    else 0%nat.

(** [m.match(/of (\d+)/)?.[1]] *)
Definition ofTotal (m : jsstring) : option jsstring :=
  match jsMatchAll ofRegex m with
  | [] => None
  | w :: _ => Some (skipn 3 w)
  end.

(** The first capture group of a marker matched with [head]. *)
Definition markerTotal (head m : jsstring) : jsstring :=
  let s1 := skipn (length head) m in
  let s2 := skipn (length (takeWhile isDigit s1)) s1 in
  takeWhile isDigit (skipn 4 s2).

Definition estimatePages (text : jsstring) : Z :=
  ceilDiv (len text) ESTIMATED_CHARS_PER_PAGE.

(** *** Extractors *)

Record Extracted : Type := mkExtracted { text : jsstring; pageCount : Z }.

Definition extractPdfSingleCall : M Extracted :=
  text <- aiCompletion ;;
  let pageMatches := jsMatchAll (markerRegex (lit "=== PDF PAGE ")) text in
  let pageCount :=
    match pageMatches with
    | [] => Z.max 1 (estimatePages text)
    | m :: ms =>
        let total (m : jsstring) :=
          parseInt (match ofTotal m with Some t => t | None => lit "1" end) in
        fold_left Z.max (map total ms) (total m)
    end in
  ret (mkExtracted text pageCount).

Definition extractPdfPageRange (startPage endPage totalPages : Z) : M jsstring :=
  aiCompletion.

Definition batchPlaceholder (startPage endPage : Z) : jsstring :=
  lit "[Error extracting pages " ++ showZ startPage ++ lit "-"
      ++ showZ endPage ++ lit "]".

Definition startPageOf (batch : Z) : Z := batch * PAGES_PER_BATCH + 1.
Definition endPageOf (batch estimatedPages : Z) : Z :=
  Z.min ((batch + 1) * PAGES_PER_BATCH) estimatedPages.

(** The heartbeat written before the AI call of a batch. *)
Definition heartbeat (sourceId : jsstring) (batch totalBatches estimatedPages : Z)
  : M unit :=
  let progressPercent := roundDiv (batch * 80) totalBatches in
  updated <- dateNow ;;
  updateSource sourceId (fun r =>
    mkSource (id r) (name r) (file_path r) (file_type r) (file_size r)
             (uploaded_by r) (status r) (error_message r)
             (processing_started_at r) (Some progressPercent)
             (Some (lit "Processing pages " ++ showZ (startPageOf batch)
                        ++ lit "-" ++ showZ (endPageOf batch estimatedPages)
                        ++ lit " of ~" ++ showZ estimatedPages ++ lit "..."))
             (page_count r) (content_preview r) updated).

Record BatchState : Type := mkBatchState {
  allText : list jsstring;
  actualPageCount : Z
}.

(** One turn of the batch loop. *)
Definition batchTurn (sourceId : jsstring) (totalBatches estimatedPages : Z)
    (batch : Z) (st : BatchState) : M BatchState :=
  let startPage := startPageOf batch in
  let endPage := endPageOf batch estimatedPages in
  heartbeat sourceId batch totalBatches estimatedPages ;;
  st' <- tryCatch
    (batchText <- extractPdfPageRange startPage endPage estimatedPages ;;
     ret (mkBatchState
            (allText st ++ [batchText])
            (if batch =? 0 then
               match jsMatchAll (markerRegex (lit "=== PDF PAGE ")) batchText with
               | m :: _ => parseInt (markerTotal (lit "=== PDF PAGE ") m)
               | [] => actualPageCount st
               end
             else actualPageCount st)))
    (fun _ =>
       ret (mkBatchState (allText st ++ [batchPlaceholder startPage endPage])
                         (actualPageCount st))) ;;
  (if batch <? totalBatches - 1 then sleep 500 else ret tt) ;;
  ret st'.

Fixpoint batchLoop (sourceId : jsstring) (totalBatches estimatedPages : Z)
    (remaining : nat) (batch : Z) (st : BatchState) : M BatchState :=
  match remaining with
  | O => ret st
  | S remaining' =>
      st' <- batchTurn sourceId totalBatches estimatedPages batch st ;;
      batchLoop sourceId totalBatches estimatedPages remaining' (batch + 1) st'
  end.

Definition extractPdfInBatches (estimatedPages : Z) (sourceId : jsstring)
  : M Extracted :=
  let totalBatches := ceilDiv estimatedPages PAGES_PER_BATCH in
  st <- batchLoop sourceId totalBatches estimatedPages
          (Z.to_nat totalBatches) 0 (mkBatchState [] estimatedPages) ;;
  ret (mkExtracted (join [10; 10] (allText st)) (actualPageCount st)).

Definition extractPdfContent (fileSize : Z) (sourceId : jsstring) : M Extracted :=
  let estimatedPages := ceilDiv fileSize 50000 in
  if estimatedPages <=? 15 then extractPdfSingleCall
  else extractPdfInBatches estimatedPages sourceId.

Definition extractDocxContent : M Extracted :=
  text <- aiCompletion ;;
  ret (mkExtracted text (Z.max 1 (estimatePages text))).

(** *** The background job *)

Definition MAX_SERVER_PDF_BYTES : Z := 2 * (1024 * 1024).

Definition tooLargeMessage (fileSize : Z) : jsstring :=
  lit "PDF too large for server-side processing ("
    ++ megabytesFixed1 fileSize
    ++ lit "MB). Please try re-uploading - client-side extraction should handle this automatically. If the issue persists, try a smaller file or contact support.".

(** [source.page_count || 1] *)
Definition storedPageCount (source : Source) : Z :=
  match page_count source with
  | Some n => if n =? 0 then 1 else n
  | None => 1
  end.

Definition setProgress (progress : Z) (info : jsstring) (r : Source) : Source :=
  mkSource (id r) (name r) (file_path r) (file_type r) (file_size r)
           (uploaded_by r) (status r) (error_message r)
           (processing_started_at r) (Some progress) (Some info)
           (page_count r) (content_preview r) (updated_at r).

(** Lines 137-202: from the start of the [try] block to the extracted text
    and page count. *)
Definition extractPhase (source : Source) (preExtractedText : option jsstring)
  : M Extracted :=
  let pageCount := storedPageCount source in
  match preExtractedText with
  | Some (c :: pre) =>
      let preExtractedText := c :: pre in
      let pageMatches := jsMatchAll (markerRegex (lit "=== PAGE ")) preExtractedText in
      let pageCount :=
        match rev pageMatches with
        | lastMatch :: _ =>
            match ofTotal lastMatch with
            | Some totalPages => parseInt totalPages
            | None => pageCount
            end
        | [] => pageCount
        end in
      updateSource (id source)
        (setProgress 50 (lit "Text extracted, creating chunks...")) ;;
      ret (mkExtracted preExtractedText pageCount)
  | _ =>
      fileData <- download (file_path source) ;;
      match fileData with
      | DownloadError message =>
          throw (lit "Failed to download file: "
                   ++ match message with
                      | Some m => m
                      | None => lit "undefined"
                      end)
      | Downloaded fileText =>
          if str_eqb (file_type source) (lit "txt") then
            let pages := estimatePages fileText in
            ret (mkExtracted fileText (if pages =? 0 then 1 else pages))
          else if str_eqb (file_type source) (lit "pdf") then
            if MAX_SERVER_PDF_BYTES <? file_size source then
              throw (tooLargeMessage (file_size source))
            else extractPdfContent (file_size source) (id source)
          else if str_eqb (file_type source) (lit "docx")
                  || str_eqb (file_type source) (lit "doc") then
            extractDocxContent
          else ret (mkExtracted [] pageCount)
      end
  end.

Definition chunkRows (sourceId : jsstring) (chunks : list jsstring) : list Chunk :=
  map (fun ic => mkChunk sourceId (fst ic) (snd ic))
      (combine (seq 0 (length chunks)) chunks).

(** [for (let i = 0; i < chunkInserts.length; i += 50)] *)
Fixpoint insertLoop (turns : nat) (chunkInserts : list Chunk) : M unit :=
  match turns, chunkInserts with
  | S turns', _ :: _ =>
      insertChunks (firstn 50 chunkInserts) ;;
      insertLoop turns' (skipn 50 chunkInserts)
  | _, _ => ret tt
  end.

Definition markReady (contentPreview : jsstring) (pageCount : Z) (r : Source)
  : Source :=
  mkSource (id r) (name r) (file_path r) (file_type r) (file_size r)
           (uploaded_by r) ready None
           (processing_started_at r) (processing_progress r)
           (processing_info r) (Some pageCount) (Some contentPreview)
           (updated_at r).

Definition markError (errorMessage : jsstring) (r : Source) : Source :=
  mkSource (id r) (name r) (file_path r) (file_type r) (file_size r)
           (uploaded_by r) error (Some errorMessage)
           (processing_started_at r) (processing_progress r)
           (processing_info r) (page_count r) (content_preview r)
           (updated_at r).

(** Lines 204-246: preview, chunking, replacement of the stored chunks, the
    [ready] update. *)
Definition persistPhase (source : Source) (extracted : Extracted) : M unit :=
  let textContent := text extracted in
  let contentPreview :=
    match trim (substring0 500 textContent) with
    | [] => lit "[" ++ toUpperCase (file_type source) ++ lit " document]"
    | preview => preview
    end in
  let chunks :=
    match textContent with
    | [] => []
    | _ :: _ => splitIntoSmartChunks textContent
    end in
  deleteChunks (id source) ;;
  insertLoop (length chunks) (chunkRows (id source) chunks) ;;
  updateSource (id source) (markReady contentPreview (pageCount extracted)).

Definition processDocumentInBackground (source : Source)
    (preExtractedText : option jsstring) : M unit :=
  tryCatch
    (extracted <- extractPhase source preExtractedText ;;
     persistPhase source extracted)
    (fun errorMessage => updateSource (id source) (markError errorMessage)).

(** *** The ingestion trigger *)

Record RequestBody : Type := mkRequestBody {
  sourceId : option jsstring;
  preExtractedText : option jsstring
}.

Record Request : Type := mkRequest {
  method : jsstring;
  (** [await req.json()]: the parsed body, or the message of the error *)
  json : jsstring + RequestBody
}.

Inductive ReplyBody : Type :=
| NoBody
| ErrorReply (error : jsstring)
| Started (message : jsstring) (sourceId : jsstring).

Record HttpReply : Type := mkReply { reply_status : Z; reply_body : ReplyBody }.

(** What the handler leaves when it returns: the response, the state at
    that moment, and the promise it handed to [EdgeRuntime.waitUntil]. *)
Record Served : Type := mkServed {
  reply : HttpReply;
  at_reply : World;
  background : option (M unit)
}.

Definition markProcessing (t : Z) (r : Source) : Source :=
  mkSource (id r) (name r) (file_path r) (file_type r) (file_size r)
           (uploaded_by r) processing None (Some t) (Some 0)
           (Some (lit "Starting processing..."))
           (page_count r) (content_preview r) (updated_at r).

Definition falsy (s : option jsstring) : bool :=
  match s with Some (_ :: _) => false | _ => true end.

Definition serve (req : Request) (w : World) : Served :=
  if str_eqb (method req) (lit "OPTIONS") then
    mkServed (mkReply 200 NoBody) w None
  else
    match json req with
    | inl message => mkServed (mkReply 500 (ErrorReply message)) w None
    | inr body =>
        match sourceId body with
        | Some (c :: i) =>
            let sourceId := c :: i in
            if falsy (LOVABLE_API_KEY w) then
              mkServed (mkReply 500 (ErrorReply (lit "AI processing not configured")))
                       w None
            else
              match filter (fun r => str_eqb (id r) sourceId) (sources w) with
              | [source] =>
                  let w' := snd (updateSource sourceId (markProcessing (clock w)) w) in
                  mkServed
                    (mkReply 200 (Started (lit "Document processing started")
                                          sourceId))
                    w'
                    (Some (processDocumentInBackground source
                             (preExtractedText body)))
              | _ => mkServed (mkReply 404 (ErrorReply (lit "Source not found")))
                              w None
              end
        | _ => mkServed (mkReply 400 (ErrorReply (lit "sourceId is required")))
                        w None
        end
    end.

(** The state once the background promise, if any, has settled. *)
Definition settled (s : Served) : World :=
  match background s with
  | Some job => snd (job (at_reply s))
  | None => at_reply s
  end.

End Ingestion.

(* ------------------------------------------------------------------ *)
(** ** The sweeper ([cleanup-stuck-documents/index.ts]) *)
(* ------------------------------------------------------------------ *)

Module Sweeper.
Import Platform.

Local Open Scope Z_scope.
Local Open Scope js_scope.

Definition STUCK_THRESHOLD_MINUTES : Z := 10.

(** The filter of the select:
    [.in("status", ["processing", "pending"])] and
    [.or(processing_started_at.lt.T, and(processing_started_at.is.null, updated_at.lt.T))]. *)
Definition isStuck (thresholdTime : Z) (r : Source) : bool :=
  match status r with
  | processing | pending =>
      match processing_started_at r with
      | Some started => started <? thresholdTime
      | None => updated_at r <? thresholdTime
      end
  | _ => false
  end.

Definition timedOut (stuckMinutes : Z) (r : Source) : Source :=
  mkSource (id r) (name r) (file_path r) (file_type r) (file_size r)
           (uploaded_by r) error
           (Some (lit "Processing timed out after " ++ showZ stuckMinutes
                      ++ lit " minutes. Click Reprocess to try again."))
           (processing_started_at r) None None
           (page_count r) (content_preview r) (updated_at r).

(** The body of [for (const doc of stuckDocs)]. *)
Definition markStuck (doc : Source) : M (jsstring * Z) :=
  t <- dateNow ;;
  let startTime :=
    match processing_started_at doc with
    | Some started => started
    | None => updated_at doc
    end in
  let stuckMinutes := roundDiv (t - startTime) 60000 in
  updateSource (id doc) (timedOut stuckMinutes) ;;
  ret (id doc, stuckMinutes).

Fixpoint markAll (stuckDocs : list Source) : M (list (jsstring * Z)) :=
  match stuckDocs with
  | [] => ret []
  | doc :: rest =>
      r <- markStuck doc ;;
      rs <- markAll rest ;;
      ret (r :: rs)
  end.

(** One pass: the documents marked, with the minutes reported for each. *)
Definition cleanupStuckDocuments : M (list (jsstring * Z)) :=
  t <- dateNow ;;
  let thresholdTime := t - STUCK_THRESHOLD_MINUTES * 60 * 1000 in
  fun w => markAll (filter (isStuck thresholdTime) (sources w)) w.

End Sweeper.

(* ------------------------------------------------------------------ *)
(** ** The retrieval scorer ([chat/index.ts], lines 274-356) *)
(* ------------------------------------------------------------------ *)

Module Chat.
Import Platform.

Definition MAX_CHUNKS : nat := 10.
Definition MAX_CONTEXT_CHARS : nat := 8 * 1000.

Record ChunkResult : Type := mkChunkResult {
  r_content : jsstring;
  r_chunk_index : nat;
  r_source_id : jsstring;
  r_source_name : jsstring;
  r_score : nat
}.

(** [String.prototype.toLowerCase], as far as ASCII can see it: the ASCII
    capitals, and the two code units outside ASCII whose lower case has an
    ASCII letter (KELVIN SIGN, and I WITH DOT ABOVE, which becomes [i] and a
    combining dot).  Every other code unit is kept; its real lower case
    lies outside ASCII, as it does itself. *)
Definition lowerUnit (c : Z) : jsstring :=
  if isUpper c then [(c + 32)%Z]
  else if Z.eqb c 8490 then [107%Z]
  else if Z.eqb c 304 then [105%Z; 775%Z]
  else [c].

Definition toLowerCase (s : jsstring) : jsstring := flat_map lowerUnit s.

(** A character class as a one-unit matcher. *)
Definition charClass (f : Z -> bool) : matcher :=
  fun _ s => match s with c :: _ => if f c then 1 else 0 | [] => 0 end.

(** [/\s+/] *)
Definition spaces : matcher := fun _ s => length (takeWhile isSpace s).

(** [query.toLowerCase().replace(/[^\w\s]/g, "").split(/\s+/).filter(w => w.length > 2)] *)
Definition keywordsOf (query : jsstring) : list jsstring :=
  filter (fun w => 2 <? length w)
    (jsSplit spaces
       (jsReplace (charClass (fun c => negb (isWordChar c || isSpace c))) []
          (toLowerCase query))).

(** [keywords.reduce((acc, kw) => acc + (contentLower.includes(kw) ? 1 : 0), 0)] *)
Definition scoreOf (keywords : list jsstring) (contentLower : jsstring) : nat :=
  fold_left (fun acc kw => acc + (if includes kw contentLower then 1 else 0))
            keywords 0.

(** The fallback candidates: [.eq("status", "ready").limit(10)].  Rows come
    in table order, here and below: the queries have no [order]. *)
Definition readySourceIds (w : World) : list jsstring :=
  firstn 10
    (map id (filter (fun r => match status r with ready => true | _ => false end)
                    (sources w))).

(** [.eq("source_id", sourceId).limit(MAX_CHUNKS)] with the inner join
    [sources!inner (name)]. *)
Definition chunksOf (w : World) (sourceId : jsstring) : list (Chunk * jsstring) :=
  firstn MAX_CHUNKS
    (flat_map
       (fun c =>
          if str_eqb (source_id c) sourceId then
            match find (fun r => str_eqb (id r) (source_id c)) (sources w) with
            | Some r => [(c, name r)]
            | None => []
            end
          else [])
       (source_chunks w)).

Definition scoreChunks (keywords : list jsstring) (chunks : list (Chunk * jsstring))
  : list ChunkResult :=
  flat_map
    (fun cn =>
       let chunk := fst cn in
       let score := scoreOf keywords (toLowerCase (content chunk)) in
       if 0 <? score
       then [mkChunkResult (content chunk) (chunk_index chunk)
                           (source_id chunk) (snd cn) score]
       else [])
    chunks.

(** [results.sort((a, b) => (b.score || 0) - (a.score || 0))]:
    [Array.prototype.sort] is stable. *)
Fixpoint insertByScore (a : ChunkResult) (sorted : list ChunkResult)
  : list ChunkResult :=
  match sorted with
  | [] => [a]
  | b :: rest =>
      if r_score b <=? r_score a then a :: b :: rest
      else b :: insertByScore a rest
  end.

Definition sortByScore (results : list ChunkResult) : list ChunkResult :=
  fold_right insertByScore [] results.

(** The closing loop with its two [break]s. *)
Fixpoint limit (results : list ChunkResult) (totalChars accepted : nat)
  : list ChunkResult :=
  match results with
  | [] => []
  | chunk :: rest =>
      if MAX_CONTEXT_CHARS <? totalChars + length (r_content chunk) then []
      else chunk ::
           (if MAX_CHUNKS <=? S accepted then []
            else limit rest (totalChars + length (r_content chunk)) (S accepted))
  end.

(** The ids whose chunks are read. *)
Definition candidateIds (w : World) (sourceIds : list jsstring) : list jsstring :=
  match sourceIds with
  | [] => readySourceIds w
  | _ :: _ => sourceIds
  end.

(** The [results] array before sorting. *)
Definition scored (w : World) (query : jsstring) (sourceIds : list jsstring)
  : list ChunkResult :=
  flat_map (fun sourceId => scoreChunks (keywordsOf query) (chunksOf w sourceId))
           (firstn 5 (candidateIds w sourceIds)).

Definition searchRelevantChunks (w : World) (query : jsstring)
    (sourceIds : list jsstring) : list ChunkResult :=
  match candidateIds w sourceIds with
  | [] => []
  | _ :: _ =>
      match keywordsOf query with
      | [] => []
      | _ :: _ => limit (sortByScore (scored w query sourceIds)) 0 0
      end
  end.

End Chat.

(* ------------------------------------------------------------------ *)
(** ** Client-side extraction ([src/lib/pdfParser.ts]) *)
(* ------------------------------------------------------------------ *)

Module PdfParser.
Import Platform.

Local Open Scope Z_scope.


(** [items.map(item => item.str).join(' ').replace(/\s+/g, ' ').trim()] *)
Definition pageTextOf (items : list jsstring) : jsstring :=
  trim (jsReplace Chat.spaces [32] (join [32] items)).



(** [s.endsWith(suffix)] *)
Definition endsWith (s suffix : jsstring) : bool :=
  isPrefix (rev suffix) (rev s).

(** [file.type === 'application/pdf' || file.name.toLowerCase().endsWith('.pdf')] *)
Definition isPdfFile (type name : jsstring) : bool :=
  str_eqb type (lit "application/pdf")
  || endsWith (Chat.toLowerCase name) (lit ".pdf").

End PdfParser.

(* ------------------------------------------------------------------ *)
(** ** Upload and reprocessing ([useSources], lines 844-1036 of
       [src/integrations/supabase/types.ts]) *)
(* ------------------------------------------------------------------ *)

Module Upload.
Import Platform Ingestion PdfParser.

Local Open Scope Z_scope.
Local Open Scope js_scope.

Record File : Type := mkFile {
  file_name : jsstring;
  file_mime : jsstring;
  file_bytes : Z;
  (** the content read as text, which is what the bucket gives back *)
  file_content : jsstring;
  (** what pdf.js makes of the content *)
  file_read : jsstring + list (list jsstring)
}.

(** [file.name.split('.').pop()?.toLowerCase() || ''] *)
Definition fileExtOf (name : jsstring) : jsstring :=
  Chat.toLowerCase (last (jsSplit (literal [46]) name) []).

Definition validTypes : list jsstring := map lit ["pdf"; "docx"; "doc"; "txt"]%string.







(** The body of [supabase.functions.invoke('process-document', ...)]. *)
Definition invokeProcessDocument (i : jsstring) (preExtractedText : option jsstring)
  : Request :=
  mkRequest (lit "POST") (inr (mkRequestBody (Some i) preExtractedText)).


Definition resetForReprocess (r : Source) : Source :=
  mkSource (id r) (name r) (file_path r) (file_type r) (file_size r)
           (uploaded_by r) pending None
           (processing_started_at r) (Some 0) None
           (page_count r) (content_preview r) (updated_at r).

(** [reprocessSource]: the row goes back to [pending], then the function is
    invoked with the id alone. *)
Definition reprocessSource (i : jsstring) (w : World) : Served :=
  let w1 := snd (updateSource i resetForReprocess w) in
  serve (invokeProcessDocument i None) w1.

End Upload.

(* ------------------------------------------------------------------ *)
(** ** The conversation sent to the model ([chat/index.ts], lines 84-123
       and 358-389) *)
(* ------------------------------------------------------------------ *)

Module Conversation.
Import Platform Chat.

Local Open Scope Z_scope.

(** A row of [public.chat_messages]. *)
Record ChatMessage : Type := mkChatMessage {
  m_chat_id : jsstring;
  m_role : jsstring;
  m_content : jsstring;
  m_created_at : Z
}.

(** [.insert({ chat_id: chatId, role: "user", content: message })];
    [created_at] defaults to [now()]. *)
Definition saveUserMessage (chatId message : jsstring) (now : Z)
    (chat_messages : list ChatMessage) : list ChatMessage :=
  chat_messages ++ [mkChatMessage chatId (lit "user") message now].

(** [.order("created_at", { ascending: true })]; rows with the same time
    are left in table order. *)
Fixpoint insertByCreatedAt (a : ChatMessage) (sorted : list ChatMessage)
  : list ChatMessage :=
  match sorted with
  | [] => [a]
  | b :: rest =>
      if m_created_at a <=? m_created_at b then a :: b :: rest
      else b :: insertByCreatedAt a rest
  end.

Definition orderByCreatedAt (rows : list ChatMessage) : list ChatMessage :=
  fold_right insertByCreatedAt [] rows.

(** [.select("role, content").eq("chat_id", chatId)
     .order("created_at", { ascending: true }).limit(20)] *)
Definition history (chatId : jsstring) (chat_messages : list ChatMessage)
  : list ChatMessage :=
  firstn 20
    (orderByCreatedAt
       (filter (fun m => str_eqb (m_chat_id m) chatId) chat_messages)).

(** The text [buildSystemPrompt] adds for one chunk. *)
Definition chunkBlock (chunk : ChunkResult) : jsstring :=
  lit "[Source: " ++ r_source_name chunk ++ lit ", Section "
    ++ showZ (Z.of_nat (r_chunk_index chunk) + 1) ++ lit "]" ++ [10]
    ++ r_content chunk ++ [10] ++ lit "---" ++ [10; 10].

Definition buildSystemPrompt (chunks : list ChunkResult) : jsstring :=
  let prompt :=
    lit "You are a helpful AI assistant for a company knowledge management system. "
      ++ [10]
      ++ lit "You help users understand and work with their uploaded documents."
      ++ [10; 10] in
  let prompt :=
    match chunks with
    | [] => prompt
    | _ :: _ =>
        fold_left (fun prompt chunk => prompt ++ chunkBlock chunk) chunks
          (prompt ++ lit "=== RELEVANT CONTEXT FROM UPLOADED DOCUMENTS ==="
                  ++ [10; 10])
          ++ lit "=== END OF CONTEXT ===" ++ [10; 10]
    end in
  prompt
    ++ lit "INSTRUCTIONS:" ++ [10]
    ++ lit "1. Answer questions based on the context provided above when available"
    ++ [10]
    ++ lit "2. When you use information from a source, cite it as [Source: filename]"
    ++ [10]
    ++ lit "3. If the answer is not in the context, say so honestly but try to be helpful"
    ++ [10]
    ++ lit "4. Be accurate, helpful, and concise" ++ [10]
    ++ lit "5. Format your responses with markdown for readability" ++ [10].

(** The [messages] of the request to the gateway, as (role, content): the
    user message is stored, the history is read, the chunks are searched
    with [sourceIds || chat.selected_source_ids || []]. *)
Definition messagesFor (w : World) (chat_messages : list ChatMessage)
    (chatId message : jsstring) (sourceIds : list jsstring) (now : Z)
  : list (jsstring * jsstring) :=
  let stored := saveUserMessage chatId message now chat_messages in
  let relevantChunks := searchRelevantChunks w message sourceIds in
  (lit "system", buildSystemPrompt relevantChunks)
  :: map (fun m => (m_role m, m_content m)) (history chatId stored).

End Conversation.

(* ------------------------------------------------------------------ *)
(** ** The event stream ([chat/index.ts], lines 172-249, and its reader in
       [sendMessage] of the chat hook) *)
(* ------------------------------------------------------------------ *)

Module ChatStream.

(** The loop both ends share:
    [buffer += decoder.decode(value, { stream: true });
     const lines = buffer.split("\n"); buffer = lines.pop() || "";
     for (const line of lines) { ... }].
    A read is the text the decoder gives for it; the state is the buffer
    and what the body of the [for] maintains. *)
Definition readLines {S : Type} (perLine : S -> jsstring -> S)
    (st : jsstring * S) (value : jsstring) : jsstring * S :=
  let lines := jsSplit (literal [10%Z]) (fst st ++ value) in
  (last lines [], fold_left perLine (removelast lines) (snd st)).

(** [!line.startsWith("data: ") || line === "data: [DONE]"] is false. *)
Definition isData (line : jsstring) : bool :=
  isPrefix (lit "data: ") line && negb (str_eqb line (lit "data: [DONE]")).

Section Json.

(** [JSON.parse(payload).choices?.[0]?.delta?.content] when the payload
    parses and the content is truthy. *)
Variable deltaContent : jsstring -> option jsstring.

(** [JSON.stringify({ content })] *)
Variable stringifyContent : jsstring -> jsstring.

(** [JSON.parse(payload).content] when the payload parses and the content
    is truthy. *)
Variable eventContent : jsstring -> option jsstring.

(** The function: what it has of the answer and what it has written to the
    client. *)
Record Relayed : Type := mkRelayed {
  fullResponse : jsstring;
  written : list jsstring
}.

Definition relayLine (st : Relayed) (line : jsstring) : Relayed :=
  if isData line then
    match deltaContent (skipn 6 line) with
    | Some content =>
        mkRelayed (fullResponse st ++ content)
                  (written st ++ [lit "data: " ++ stringifyContent content
                                      ++ [10%Z; 10%Z]])
    | None => st
    end
  else st.

(** The reads of the body of the gateway's answer, until [done]; then,
    the answer saved, the closing event. *)
Definition relay (reads : list jsstring) : Relayed :=
  let st := snd (fold_left (readLines relayLine) reads ([], mkRelayed [] [])) in
  mkRelayed (fullResponse st) (written st ++ [lit "data: [DONE]" ++ [10%Z; 10%Z]]).

(** The browser: [assistantContent]. *)
Definition receiveLine (assistantContent : jsstring) (line : jsstring) : jsstring :=
  if isData line then
    match eventContent (skipn 6 line) with
    | Some content => assistantContent ++ content
    | None => assistantContent
    end
  else assistantContent.

Definition receive (reads : list jsstring) : jsstring :=
  snd (fold_left (readLines receiveLine) reads ([], [])).

End Json.

End ChatStream.

(* ------------------------------------------------------------------ *)
(** ** Lengths of chunks *)
(* ------------------------------------------------------------------ *)

Module ChunkerFacts.
Import Chunker.

Lemma dropWhile_length f s : length (dropWhile f s) <= length s.
Proof.
  induction s as [|c s IH]; simpl; [lia|].
  destruct (f c); simpl; lia.
Qed.

Lemma trim_length s : length (trim s) <= length s.
Proof.
  unfold trim. rewrite length_rev.
  etransitivity; [apply dropWhile_length|].
  rewrite length_rev. apply dropWhile_length.
Qed.

Lemma sliceLast_length n s : length (sliceLast n s) <= n.
Proof. unfold sliceLast. rewrite length_skipn. lia. Qed.




Lemma overlap_update_length buf t :
  length (if overlapSize <? length (buf ++ [32%Z] ++ t)
          then trim (sliceLast overlapSize (buf ++ [32%Z] ++ t))
          else trim (buf ++ [32%Z] ++ t)) <= overlapSize.
Proof.
  destruct (overlapSize <? length (buf ++ [32%Z] ++ t)) eqn:E.
  - etransitivity; [apply trim_length | apply sliceLast_length].
  - apply Nat.ltb_ge in E. etransitivity; [apply trim_length | exact E].
Qed.




End ChunkerFacts.

(* ------------------------------------------------------------------ *)
(** ** Facts about the global scan *)
(* ------------------------------------------------------------------ *)

Module ScanFacts.

(** [contains m s]: [m] occurs in [s], code unit for code unit. *)
Definition contains (m s : jsstring) : Prop :=
  exists a b, s = a ++ m ++ b.

Lemma contains_app_l m s a : contains m s -> contains m (a ++ s).
Proof.
  intros (x & y & ->). exists (a ++ x), y. now rewrite <- app_assoc.
Qed.

Lemma contains_app_r m s b : contains m s -> contains m (s ++ b).
Proof.
  intros (x & y & ->). exists x, (y ++ b). now rewrite <- !app_assoc.
Qed.

Lemma contains_trans m s u : contains m s -> contains s u -> contains m u.
Proof.
  intros (a & b & ->) (x & y & ->).
  exists (x ++ a), (b ++ y). now rewrite <- !app_assoc.
Qed.

Lemma contains_nil_inv m : contains m [] -> m = [].
Proof.
  intros (a & b & H). symmetry in H.
  apply app_eq_nil in H as [_ H]. now apply app_eq_nil in H as [H _].
Qed.

(** The code unit before the position reached after [s]. *)
Definition lastOr (prev : option Z) (s : jsstring) : option Z :=
  fold_left (fun _ c => Some c) s prev.

Lemma lastOr_app prev a b : lastOr prev (a ++ b) = lastOr (lastOr prev a) b.
Proof. apply fold_left_app. Qed.

Section Scan.
Variable m : matcher.

Lemma scan_skip w : forall prev s,
  scan m prev (length w) (w ++ s) = scan m (lastOr prev w) 0 s.
Proof.
  induction w as [|c w IH]; intros prev s; simpl.
  - destruct s; reflexivity.
  - apply IH.
Qed.

(** No match begins inside [M] when [M] is followed by [y]. *)
Fixpoint quiet (prev : option Z) (M y : jsstring) : Prop :=
  match M with
  | [] => True
  | c :: M' => m prev (c :: M' ++ y) = 0 /\ quiet (Some c) M' y
  end.

Lemma scan_quiet M : forall prev y,
  quiet prev M y ->
  scan m prev 0 (M ++ y) = map Keep M ++ scan m (lastOr prev M) 0 y.
Proof.
  induction M as [|c M IH]; intros prev y H; simpl.
  - reflexivity.
  - destruct H as [H0 H]. simpl in H0. rewrite H0.
    f_equal. now apply IH.
Qed.

Lemma quiet_app A : forall prev B y,
  quiet prev A (B ++ y) -> quiet (lastOr prev A) B y -> quiet prev (A ++ B) y.
Proof.
  induction A as [|c A IH]; intros prev B y HA HB; simpl in *.
  - exact HB.
  - destruct HA as [H0 HA]. split.
    + now rewrite <- app_assoc.
    + now apply IH.
Qed.

(** A match that begins inside [x] ends inside [x] when [z] follows. *)
Definition heldBy (x z : jsstring) : Prop :=
  forall prev x1 c x2, x = x1 ++ c :: x2 ->
    m prev (c :: x2 ++ z) <= length (c :: x2).

Lemma heldBy_tail c x z : heldBy (c :: x) z -> heldBy x z.
Proof.
  intros H prev x1 d x2 E. apply (H prev (c :: x1) d x2). now rewrite E.
Qed.

Lemma scan_arrive x z : forall prev skip,
  skip <= length x -> heldBy x z ->
  exists ts, scan m prev skip (x ++ z) = ts ++ scan m (lastOr prev x) 0 z.
Proof.
  induction x as [|c x IH]; intros prev skip Hs Hh.
  - simpl in Hs. assert (skip = 0) by lia. subst. now exists [].
  - simpl. destruct skip as [|k].
    + pose proof (Hh prev [] c x eq_refl) as Hm. simpl in Hm.
      destruct (m prev (c :: x ++ z)) as [|k] eqn:E.
      * destruct (IH (Some c) 0) as [ts Hts];
          [lia | now apply heldBy_tail with c|].
        exists (Keep c :: ts). simpl. now rewrite Hts.
      * destruct (IH (Some c) k) as [ts Hts];
          [lia | now apply heldBy_tail with c|].
        eexists (Hit _ :: ts). simpl. now rewrite Hts.
    + simpl in Hs. apply IH; [lia | now apply heldBy_tail with c].
Qed.

(** The frame property: an occurrence that no match touches is copied. *)
Lemma scan_frame x M y prev :
  heldBy x (M ++ y) ->
  (forall p, quiet p M y) ->
  exists ts,
    scan m prev 0 (x ++ M ++ y)
    = ts ++ map Keep M ++ scan m (lastOr (lastOr prev x) M) 0 y.
Proof.
  intros Hh Hq.
  destruct (@scan_arrive x (M ++ y) prev 0) as [ts Hts]; [lia | assumption|].
  exists ts. rewrite Hts. f_equal. now apply scan_quiet.
Qed.

End Scan.

Lemma flat_map_keep rep M : flat_map (emit rep) (map Keep M) = M.
Proof. induction M as [|c M IH]; simpl; [reflexivity | now rewrite IH]. Qed.

Lemma jsReplace_frame m rep x M y :
  heldBy m x (M ++ y) ->
  (forall p, quiet m p M y) ->
  contains M (jsReplace m rep (x ++ M ++ y)).
Proof.
  intros Hh Hq. unfold jsReplace.
  destruct (@scan_frame m x M y None Hh Hq) as [ts ->].
  rewrite !flat_map_app, flat_map_keep. now eexists _, _.
Qed.

(** *** Pieces of a split *)

Lemma pieces_keep M ts :
  pieces (map Keep M ++ ts) = (M ++ fst (pieces ts), snd (pieces ts)).
Proof.
  induction M as [|c M IH]; simpl.
  - now destruct (pieces ts).
  - rewrite IH. reflexivity.
Qed.

Lemma pieces_contains M ts' : forall ts,
  exists q, In q (fst (pieces (ts ++ map Keep M ++ ts'))
                  :: snd (pieces (ts ++ map Keep M ++ ts')))
            /\ contains M q.
Proof.
  induction ts as [|t ts IH]; simpl.
  - rewrite pieces_keep. simpl. eexists; split; [now left|].
    exists [], (fst (pieces ts')). reflexivity.
  - destruct IH as (q & Hin & Hq).
    destruct (pieces (ts ++ map Keep M ++ ts')) as [p ps].
    simpl in Hin. destruct t as [c|w]; simpl.
    + destruct Hin as [<-|Hin].
      * exists (c :: p). split; [now left|].
        now apply (contains_app_l [c]).
      * exists q. split; [now right | assumption].
    + exists q. split; [now right | assumption].
Qed.

Lemma jsSplit_frame m x M y :
  heldBy m x (M ++ y) ->
  (forall p, quiet m p M y) ->
  exists q, In q (jsSplit m (x ++ M ++ y)) /\ contains M q.
Proof.
  intros Hh Hq. unfold jsSplit.
  destruct (@scan_frame m x M y None Hh Hq) as [ts ->].
  destruct (pieces_contains M (scan m (lastOr (lastOr None x) M) 0 y) ts)
    as (q & Hin & Hc).
  destruct (pieces _) as [p ps]. now exists q.
Qed.

(** *** Literal patterns *)

Lemma scan_cons0 m prev c s :
  scan m prev 0 (c :: s)
  = match m prev (c :: s) with
    | O => Keep c :: scan m (Some c) 0 s
    | S k => Hit (firstn (S k) (c :: s)) :: scan m (Some c) k s
    end.
Proof. reflexivity. Qed.

Lemma isPrefix_self p y : isPrefix p (p ++ y) = true.
Proof.
  induction p as [|a p IH]; simpl; [reflexivity|].
  now rewrite Z.eqb_refl, IH.
Qed.

Lemma isPrefix_skip p : forall x z,
  isPrefix p (x ++ z) = true -> length x <= length p ->
  isPrefix (skipn (length x) p) z = true.
Proof.
  induction p as [|a p IH]; intros x z H Hl.
  - destruct x; simpl in *; [assumption | lia].
  - destruct x as [|c x]; simpl in *; [assumption|].
    apply andb_true_iff in H as [_ H]. apply IH; [assumption | lia].
Qed.

Lemma heldBy_literal p x z :
  (forall k, 0 < k -> k < length p -> isPrefix (skipn k p) z = false) ->
  heldBy (literal p) x z.
Proof.
  intros Hk prev x1 c x2 _. unfold literal.
  destruct (isPrefix p (c :: x2 ++ z)) eqn:E; [|lia].
  destruct (Nat.le_gt_cases (length p) (length (c :: x2))) as [Hle|Hgt];
    [exact Hle | exfalso].
  change (c :: x2 ++ z) with ((c :: x2) ++ z) in E.
  apply isPrefix_skip in E; [|lia].
  rewrite Hk in E; [discriminate | simpl; lia | exact Hgt].
Qed.

Lemma quiet_literal_head p a p' w : forall prev y,
  p = a :: p' -> Forall (fun c => c <> a) w -> quiet (literal p) prev w y.
Proof.
  intros prev y ->. revert prev.
  induction w as [|c w IH]; intros prev Hw; simpl; [exact I|].
  inversion Hw; subst. split; [|now apply IH].
  unfold literal. simpl.
  assert (Z.eqb a c = false) as -> by (apply Z.eqb_neq; congruence).
  reflexivity.
Qed.

Lemma scan_literal_hit p prev y :
  p <> [] ->
  scan (literal p) prev 0 (p ++ y)
  = Hit p :: scan (literal p) (lastOr prev p) 0 y.
Proof.
  intros Hp. destruct p as [|a p]; [contradiction|].
  change ((a :: p) ++ y) with (a :: p ++ y).
  rewrite scan_cons0. unfold literal at 1.
  change (a :: p ++ y) with ((a :: p) ++ y).
  rewrite isPrefix_self. simpl length. cbv beta iota.
  assert (firstn (S (length p)) ((a :: p) ++ y) = a :: p) as ->.
  { simpl. f_equal.
    now rewrite firstn_app, firstn_all, Nat.sub_diag, firstn_O, app_nil_r. }
  now rewrite scan_skip.
Qed.

(** *** What a hit is *)

Lemma hits_scan m : forall s prev skip w,
  In w (hits (scan m prev skip s)) ->
  exists prev' s', 0 < m prev' s' /\ w = firstn (m prev' s') s'.
Proof.
  induction s as [|c s IH]; intros prev skip w H; simpl in H; [contradiction|].
  destruct skip as [|k]; [|now apply IH in H].
  destruct (m prev (c :: s)) as [|k] eqn:E.
  - simpl in H. now apply IH in H.
  - simpl in H. destruct H as [<-|H]; [|now apply IH in H].
    exists prev, (c :: s). rewrite E. split; [lia | reflexivity].
Qed.

Lemma hits_app_keep M ts : hits (map Keep M ++ ts) = hits ts.
Proof. induction M as [|c M IH]; simpl; [reflexivity | exact IH]. Qed.

Lemma quiet_by_head m (f : Z -> bool) w : forall prev y,
  (forall p c s, f c = false -> m p (c :: s) = 0) ->
  Forall (fun c => f c = false) w -> quiet m prev w y.
Proof.
  induction w as [|c w IH]; intros prev y Hm Hw; simpl; [exact I|].
  inversion Hw; subst. split; [now apply Hm | now apply IH].
Qed.

Lemma isPrefix_split p : forall s,
  isPrefix p s = true -> s = p ++ skipn (length p) s.
Proof.
  induction p as [|a p IH]; intros s H; [reflexivity|].
  destruct s as [|c s]; [discriminate|]. simpl in *.
  apply andb_true_iff in H as [Ha H]. apply Z.eqb_eq in Ha. subst c.
  f_equal. now apply IH.
Qed.

Lemma takeWhile_skipn f s :
  s = takeWhile f s ++ skipn (length (takeWhile f s)) s.
Proof.
  induction s as [|c s IH]; simpl; [reflexivity|].
  destruct (f c); simpl; [now f_equal | reflexivity].
Qed.

Lemma takeWhile_Forall f s : Forall (fun c => f c = true) (takeWhile f s).
Proof.
  induction s as [|c s IH]; simpl; [constructor|].
  destruct (f c) eqn:E; now constructor.
Qed.

Lemma takeWhile_all f d c r :
  Forall (fun x => f x = true) d -> f c = false ->
  takeWhile f (d ++ c :: r) = d.
Proof.
  intros Hd Hc. induction Hd as [|x d Hx _ IH]; simpl.
  - now rewrite Hc.
  - now rewrite Hx, IH.
Qed.

End ScanFacts.

(* ------------------------------------------------------------------ *)
(** ** Page markers through sentence splitting *)
(* ------------------------------------------------------------------ *)

Module Markers.
Import Chunker ScanFacts.

(** The two wire formats: [=== PDF PAGE <n> of <total> ===] written by the
    AI-assisted extraction ([ai = true]) and [=== PAGE <n> of <total> ===]
    written by [extractPdfText] of [src/lib/pdfParser.ts]. *)
Definition pageMarker (ai : bool) (n total : jsstring) : jsstring :=
  (if ai then lit "=== PDF PAGE " else lit "=== PAGE ")
    ++ n ++ lit " of " ++ total ++ lit " ===".

Definition digits (s : jsstring) : Prop := Forall (fun c => isDigit c = true) s.

Definition notLetter (c : Z) : Prop := isUpper c = false /\ isLower c = false.

Lemma digit_notLetter c : isDigit c = true -> notLetter c.
Proof.
  unfold isDigit, notLetter, isUpper, isLower. intros H.
  apply andb_true_iff in H as [H1 H2].
  apply Z.leb_le in H1. apply Z.leb_le in H2.
  split; apply andb_false_iff; left; apply Z.leb_gt; lia.
Qed.

Ltac each_abbr H :=
  cbv in H;
  repeat (destruct H as [<- | H]; [ | ]); [ .. | contradiction ].

(** *** The abbreviation passes leave a marker alone *)

Lemma abbr_first_lower abbr :
  In abbr abbreviations ->
  exists a r, abbr = a :: r /\ isLower a = true /\ length abbr <= 4.
Proof.
  intros H. each_abbr H;
    (eexists _, _; split; [reflexivity | split; [reflexivity | simpl; lia]]).
Qed.

Lemma ciEq_lower_notLetter a c :
  isLower a = true -> notLetter c -> ciEq a c = false.
Proof.
  unfold notLetter, ciEq, isLower, isUpper. intros Ha [Hu Hl].
  apply andb_true_iff in Ha as [H1 H2].
  apply Z.leb_le in H1. apply Z.leb_le in H2.
  assert (Z.eqb c a = false) as ->.
  { apply Z.eqb_neq. intros ->.
    apply andb_false_iff in Hl as [Hl|Hl]; apply Z.leb_gt in Hl; lia. }
  assert (Z.eqb c (a - 32) = false) as ->.
  { apply Z.eqb_neq. intros ->.
    apply andb_false_iff in Hu as [Hu|Hu]; apply Z.leb_gt in Hu; lia. }
  assert ((65 <=? a)%Z && (a <=? 90)%Z = false) as ->.
  { apply andb_false_iff. right. apply Z.leb_gt. lia. }
  now rewrite andb_false_r.
Qed.

Lemma abbrRegex_notLetter abbr prev c s :
  In abbr abbreviations -> notLetter c -> abbrRegex abbr prev (c :: s) = 0.
Proof.
  intros Hin Hc. destruct (abbr_first_lower Hin) as (a & r & -> & Ha & _).
  unfold abbrRegex. simpl matchAtoms. unfold atomMatches.
  assert (Z.eqb a 46 = false) as ->.
  { apply Z.eqb_neq. intros ->. discriminate Ha. }
  rewrite (ciEq_lower_notLetter _ Ha Hc). simpl.
  now rewrite andb_false_r.
Qed.

Lemma abbrRegex_inside_word abbr p c s :
  isWordChar p = true -> isWordChar c = true ->
  abbrRegex abbr (Some p) (c :: s) = 0.
Proof.
  intros Hp Hc. unfold abbrRegex. simpl. now rewrite Hp, Hc.
Qed.

Lemma abbrRegex_P abbr prev d s :
  In abbr abbreviations -> d = 68%Z \/ d = 65%Z ->
  abbrRegex abbr prev (80%Z :: d :: s) = 0.
Proof.
  intros H Hd. unfold abbrRegex.
  assert (matchAtoms abbr (80%Z :: d :: s) = false) as ->;
    [| now rewrite andb_false_r].
  destruct Hd as [-> | ->]; each_abbr H; reflexivity.
Qed.

Lemma abbrRegex_o abbr prev s :
  In abbr abbreviations -> abbrRegex abbr prev (111%Z :: s) = 0.
Proof.
  intros H. unfold abbrRegex.
  assert (matchAtoms abbr (111%Z :: s) = false) as ->;
    [| now rewrite andb_false_r].
  each_abbr H; reflexivity.
Qed.

Lemma quiet_abbr_notLetters abbr w : forall prev y,
  In abbr abbreviations -> Forall notLetter w ->
  quiet (abbrRegex abbr) prev w y.
Proof.
  induction w as [|c w IH]; intros prev y Hin Hw; simpl; [exact I|].
  inversion Hw; subst. split; [now apply abbrRegex_notLetter | now apply IH].
Qed.

Lemma quiet_abbr_digits abbr w prev y :
  In abbr abbreviations -> digits w -> quiet (abbrRegex abbr) prev w y.
Proof.
  intros Hin Hw. apply quiet_abbr_notLetters; [assumption|].
  eapply Forall_impl; [|exact Hw]. intros c. apply digit_notLetter.
Qed.

Ltac abbr_position Hin :=
  first
    [ apply abbrRegex_notLetter; [exact Hin | split; reflexivity]
    | apply abbrRegex_inside_word; reflexivity
    | apply abbrRegex_P; [exact Hin | (now left) || (now right)]
    | apply abbrRegex_o; exact Hin ].

Lemma quiet_abbr_marker abbr ai n total prev y :
  In abbr abbreviations -> digits n -> digits total ->
  quiet (abbrRegex abbr) prev (pageMarker ai n total) y.
Proof.
  intros Hin Hn Ht. unfold pageMarker.
  apply quiet_app.
  - destruct ai; simpl; repeat split; abbr_position Hin.
  - apply quiet_app; [now apply quiet_abbr_digits|].
    apply quiet_app.
    + simpl; repeat split; abbr_position Hin.
    + apply quiet_app; [now apply quiet_abbr_digits|].
      simpl; repeat split; abbr_position Hin.
Qed.

Lemma pageMarker_head ai n total y :
  exists rest,
    pageMarker ai n total ++ y = 61%Z :: 61%Z :: 61%Z :: 32%Z :: 80%Z :: rest.
Proof. destruct ai; simpl; eexists; reflexivity. Qed.

Lemma abbrRegex_hit abbr prev s k :
  abbrRegex abbr prev s = S k ->
  k = length abbr /\ isPrefix [46%Z] (skipn (length abbr) s) = true.
Proof.
  unfold abbrRegex.
  destruct (negb _ && matchAtoms abbr s && _) eqn:E; [|intros; discriminate].
  intros H. injection H as <-.
  apply andb_true_iff in E as [_ E]. now split.
Qed.

Lemma heldBy_abbr abbr x ai n total y :
  In abbr abbreviations ->
  heldBy (abbrRegex abbr) x (pageMarker ai n total ++ y).
Proof.
  intros Hin prev x1 c x2 _.
  destruct (pageMarker_head ai n total y) as [rest ->].
  destruct (abbr_first_lower Hin) as (_ & _ & _ & _ & Hlen).
  destruct (abbrRegex abbr prev (c :: x2 ++ _)) as [|k] eqn:E; [lia|].
  apply abbrRegex_hit in E as [-> E].
  destruct (Nat.le_gt_cases (S (length abbr)) (length (c :: x2)))
    as [Hle|Hgt]; [exact Hle | exfalso].
  change (c :: x2 ++ ?z) with ((c :: x2) ++ z) in E.
  rewrite skipn_app, skipn_all2 in E by lia. simpl app in E.
  simpl length in *.
  remember (length abbr - S (length x2)) as j eqn:Ej.
  assert (j <= 3) as Hj by lia. clear - E Hj.
  destruct j as [|[|[|[|j]]]]; simpl in E; try discriminate. lia.
Qed.

Lemma maskAbbreviations_marker ai n total text :
  digits n -> digits total ->
  contains (pageMarker ai n total) text ->
  contains (pageMarker ai n total) (maskAbbreviations text).
Proof.
  intros Hn Ht. unfold maskAbbreviations.
  assert (Hall : Forall (fun a => In a abbreviations) abbreviations)
    by (apply Forall_forall; auto).
  revert text. induction Hall as [|abbr l Hin _ IH]; intros text Hc; simpl.
  - exact Hc.
  - apply IH. destruct Hc as (x & y & ->).
    apply jsReplace_frame.
    + now apply heldBy_abbr.
    + intros p. now apply quiet_abbr_marker.
Qed.

(** *** Masking and restoring the marker prefix *)

Definition middle (n total : jsstring) : jsstring :=
  32%Z :: n ++ lit " of " ++ total ++ [32%Z].

Lemma pageMarker_eq ai n total :
  pageMarker ai n total
  = (if ai then PDF_PAGE else lit "=== PAGE") ++ middle n total ++ lit "===".
Proof.
  unfold pageMarker, middle. destruct ai; cbn;
    repeat (rewrite <- ?app_assoc; cbn); reflexivity.
Qed.

(** What the closing [===] of a marker can become under the masking
    replace: it stays, or its last code units open a following
    [=== PDF PAGE] and are masked with it. *)
Inductive tailForm : jsstring -> Prop :=
| tail_plain : tailForm (lit "===")
| tail_masked j : j <= 2 -> tailForm (repeat 61%Z j ++ PAGE_MARKER).

Definition maskedMarker (ai : bool) (n total E : jsstring) : jsstring :=
  (if ai then PAGE_MARKER else lit "=== PAGE") ++ middle n total ++ E.

Lemma digit_bounds c : isDigit c = true -> (48 <= c <= 57)%Z.
Proof.
  unfold isDigit. intros H. apply andb_true_iff in H as [H1 H2].
  apply Z.leb_le in H1. apply Z.leb_le in H2. lia.
Qed.

Lemma middle_chars n total (P : Z -> Prop) :
  digits n -> digits total ->
  (forall c, (48 <= c <= 57)%Z -> P c) ->
  P 32%Z -> P 111%Z -> P 102%Z ->
  Forall P (middle n total).
Proof.
  intros Hn Ht Hd Hs Ho Hf. unfold middle.
  assert (Hdig : forall w, digits w -> Forall P w).
  { intros w Hw. eapply Forall_impl; [|exact Hw].
    intros c Hc. apply Hd. now apply digit_bounds. }
  constructor; [exact Hs|].
  apply Forall_app; split; [now apply Hdig|].
  apply Forall_app; split; [repeat constructor; assumption|].
  apply Forall_app; split; [now apply Hdig | repeat constructor; assumption].
Qed.

Lemma middle_no c n total :
  digits n -> digits total ->
  (c < 32 \/ 57 < c)%Z -> c <> 111%Z -> c <> 102%Z ->
  Forall (fun d => d <> c) (middle n total).
Proof. intros Hn Ht Hc Ho Hf. apply middle_chars; auto; intros; lia. Qed.

Ltac eval_bound Hk :=
  match type of Hk with
  | _ < ?L => let v := eval vm_compute in L in change L with v in Hk
  end.

Lemma heldBy_mask x ai n total y :
  heldBy (literal PDF_PAGE) x (pageMarker ai n total ++ y).
Proof.
  destruct (pageMarker_head ai n total y) as [rest ->].
  apply heldBy_literal. intros k H0 Hk. eval_bound Hk.
  do 12 (destruct k as [|k]; [try lia; try (vm_compute; reflexivity)|]).
  lia.
Qed.

Lemma mask_tail prev y :
  exists E r,
    tailForm E /\
    flat_map (emit PAGE_MARKER)
             (scan (literal PDF_PAGE) prev 0 (lit "===" ++ y)) = E ++ r.
Proof.
  change (lit "===" ++ y) with (61%Z :: 61%Z :: 61%Z :: y).
  rewrite scan_cons0. unfold literal at 1.
  destruct (isPrefix PDF_PAGE (61%Z :: 61%Z :: 61%Z :: y)).
  { eexists PAGE_MARKER, _. split; [apply (@tail_masked 0); lia|].
    reflexivity. }
  rewrite scan_cons0. unfold literal at 1.
  destruct (isPrefix PDF_PAGE (61%Z :: 61%Z :: y)).
  { eexists ([61%Z] ++ PAGE_MARKER), _. split; [apply (@tail_masked 1); lia|].
    reflexivity. }
  rewrite scan_cons0. unfold literal at 1.
  destruct (isPrefix PDF_PAGE (61%Z :: y)).
  { eexists ([61%Z; 61%Z] ++ PAGE_MARKER), _.
    split; [apply (@tail_masked 2); lia|]. reflexivity. }
  eexists (lit "==="), _. split; [constructor|]. reflexivity.
Qed.

Lemma mask_marker ai n total text :
  digits n -> digits total ->
  contains (pageMarker ai n total) text ->
  exists E, tailForm E /\
    contains (maskedMarker ai n total E)
             (jsReplace (literal PDF_PAGE) PAGE_MARKER text).
Proof.
  intros Hn Ht (x & y & ->). unfold jsReplace.
  destruct (@scan_arrive (literal PDF_PAGE) x (pageMarker ai n total ++ y)
              None 0) as [ts ->]; [lia | apply heldBy_mask|].
  rewrite pageMarker_eq, <- !app_assoc.
  set (p1 := lastOr None x). clearbody p1.
  assert (Hhead : exists p2,
    scan (literal PDF_PAGE) p1 0
      ((if ai then PDF_PAGE else lit "=== PAGE")
         ++ middle n total ++ lit "===" ++ y)
    = (if ai then [Hit PDF_PAGE] else map Keep (lit "=== PAGE"))
        ++ scan (literal PDF_PAGE) p2 0 (middle n total ++ lit "===" ++ y)).
  { destruct ai.
    - exists (lastOr p1 PDF_PAGE).
      rewrite scan_literal_hit by discriminate. reflexivity.
    - exists (lastOr p1 (lit "=== PAGE")). rewrite scan_quiet; [reflexivity|].
      unfold middle. repeat split; vm_compute; reflexivity. }
  destruct Hhead as [p2 ->].
  rewrite (@scan_quiet (literal PDF_PAGE) (middle n total)).
  2:{ eapply quiet_literal_head; [reflexivity|].
      apply middle_no; auto; cbn; lia. }
  rewrite !flat_map_app, flat_map_keep.
  destruct (mask_tail (lastOr p2 (middle n total)) y) as (E & r & HE & ->).
  exists E. split; [exact HE|].
  exists (flat_map (emit PAGE_MARKER) ts), r. unfold maskedMarker.
  rewrite <- !app_assoc. f_equal. f_equal.
  destruct ai; reflexivity.
Qed.

Lemma maskedMarker_head ai n total E y :
  exists a b rest,
    maskedMarker ai n total E ++ y = a :: b :: rest
    /\ ((a = 60%Z /\ b = 60%Z /\ exists r, rest = 80%Z :: r)
        \/ (a = 61%Z /\ b = 61%Z)).
Proof.
  destruct ai; cbn; eexists _, _, _; (split; [reflexivity|]);
    [left; repeat split; eexists; reflexivity | right; split; reflexivity].
Qed.

Lemma tailForm_chars (P : Z -> Prop) E :
  tailForm E ->
  Forall P (lit "===") -> Forall P PAGE_MARKER -> Forall P E.
Proof.
  intros [|j Hj] He Hm; [exact He|].
  apply Forall_app; split; [|exact Hm].
  inversion He; subst. now apply Forall_forall; intros c ->%repeat_spec.
Qed.

Lemma maskedMarker_chars (P : Z -> Prop) ai n total E :
  digits n -> digits total -> tailForm E ->
  (forall c, (48 <= c <= 57)%Z -> P c) ->
  Forall P (lit " of =<>PAGE_MARKER") ->
  Forall P (maskedMarker ai n total E).
Proof.
  intros Hn Ht HE Hd Hc. unfold maskedMarker.
  assert (Hin : forall c, In c (lit " of =<>PAGE_MARKER") -> P c)
    by now apply Forall_forall.
  assert (Hall : forall w, forallb (fun c => includes [c]
                   (lit " of =<>PAGE_MARKER")) w = true -> Forall P w).
  { intros w Hw. apply Forall_forall. intros c Hcw. apply Hin.
    rewrite forallb_forall in Hw. specialize (Hw c Hcw).
    clear - Hw. revert Hw.
    generalize (lit " of =<>PAGE_MARKER") as l.
    induction l as [|d l IH]; simpl; [discriminate|].
    rewrite andb_true_r. destruct (Z.eqb_spec c d) as [->|Hne]; [now left|].
    simpl. intros H. right. apply IH. exact H. }
  apply Forall_app; split; [destruct ai; now apply Hall|].
  apply Forall_app; split.
  - apply middle_chars; auto; apply Hin; cbn; tauto.
  - apply tailForm_chars; [exact HE | now apply Hall | now apply Hall].
Qed.

(** *** The sentence split keeps a masked marker in one piece *)

Lemma lastNewline_le run : forall i found,
  found <= i + length run -> lastNewline run i found <= i + length run.
Proof.
  induction run as [|c run IH]; intros i found H; simpl in *; [lia|].
  replace (i + S (length run)) with (S i + length run) by lia.
  apply IH. destruct (Z.eqb c 10); lia.
Qed.

Lemma sentenceRegex_le prev s :
  sentenceRegex prev s <= length (takeWhile isSpace s).
Proof.
  unfold sentenceRegex. destruct prev as [p|]; [|lia].
  destruct (isSentenceEnd p); [|lia].
  destruct (takeWhile isSpace s) as [|c run] eqn:E; [lia|].
  pose proof (@lastNewline_le (c :: run) 0 0 ltac:(lia)) as Hl.
  destruct (skipn _ s) as [|d ?]; [exact Hl|].
  destruct (isUpper d); [lia | exact Hl].
Qed.

Lemma takeWhile_stop c r : forall x,
  isSpace c = false -> length (takeWhile isSpace (x ++ c :: r)) <= length x.
Proof.
  induction x as [|d x IH]; intros Hc; simpl.
  - now rewrite Hc.
  - destruct (isSpace d); simpl; [specialize (IH Hc)|]; lia.
Qed.

Lemma heldBy_sentence x c r :
  isSpace c = false -> heldBy sentenceRegex x (c :: r).
Proof.
  intros Hc prev x1 d x2 _.
  etransitivity; [apply sentenceRegex_le|].
  change (d :: x2 ++ c :: r) with ((d :: x2) ++ c :: r).
  now apply takeWhile_stop.
Qed.

Lemma quiet_sentence y M : forall prev,
  Forall (fun c => isSentenceEnd c = false) M ->
  match M with c :: _ => isSpace c = false | [] => True end
  \/ match prev with Some p => isSentenceEnd p = false | None => True end ->
  quiet sentenceRegex prev M y.
Proof.
  induction M as [|c M IH]; intros prev Hall Hor; simpl; [exact I|].
  inversion Hall; subst. split.
  - unfold sentenceRegex. destruct prev as [p|]; [|reflexivity].
    destruct (isSentenceEnd p) eqn:Ep; [|reflexivity].
    destruct Hor as [Hc|Hp]; [|congruence].
    simpl. now rewrite Hc.
  - apply IH; [assumption | now right].
Qed.

Lemma split_marker ai n total E text :
  digits n -> digits total -> tailForm E ->
  contains (maskedMarker ai n total E) text ->
  exists q, In q (jsSplit sentenceRegex text)
            /\ contains (maskedMarker ai n total E) q.
Proof.
  intros Hn Ht HE (x & y & ->).
  assert (Hchars : Forall (fun c => isSentenceEnd c = false)
                          (maskedMarker ai n total E)).
  { apply maskedMarker_chars; auto.
    - intros c Hc. unfold isSentenceEnd.
      repeat (apply orb_false_iff; split); apply Z.eqb_neq; lia.
    - apply Forall_forall. intros c Hc. cbn in Hc.
      repeat (destruct Hc as [<-|Hc]; [reflexivity|]). contradiction. }
  destruct (maskedMarker_head ai n total E y) as (a & b & rest & Eq & Hab).
  assert (Ha : isSpace a = false)
    by (destruct Hab as [(-> & _)|(-> & _)]; reflexivity).
  apply jsSplit_frame.
  - rewrite Eq. now apply heldBy_sentence.
  - intros p. apply quiet_sentence; [exact Hchars|]. left.
    destruct (maskedMarker ai n total E) as [|a' M'] eqn:EM; [exact I|].
    simpl in Eq. injection Eq as -> _. exact Ha.
Qed.

(** *** Restoring *)

Lemma no60 (w : jsstring) :
  forallb (fun c => negb (Z.eqb c 60)) w = true ->
  Forall (fun c => c <> 60%Z) w.
Proof.
  intros H. apply Forall_forall. intros c Hc.
  rewrite forallb_forall in H. specialize (H c Hc).
  apply negb_true_iff in H. now apply Z.eqb_neq.
Qed.

Lemma middle_no60 n total :
  digits n -> digits total -> Forall (fun c => c <> 60%Z) (middle n total).
Proof. intros. apply middle_no; auto; lia. Qed.

Lemma quiet_DOT_token prev y : quiet (literal DOT) prev PAGE_MARKER y.
Proof. repeat split; vm_compute; reflexivity. Qed.

Lemma quiet_DOT_tail E prev y : tailForm E -> quiet (literal DOT) prev E y.
Proof.
  intros [|j Hj].
  - eapply quiet_literal_head; [reflexivity | now apply no60].
  - apply quiet_app; [|apply quiet_DOT_token].
    eapply quiet_literal_head; [reflexivity|].
    apply Forall_forall. intros c ->%repeat_spec. discriminate.
Qed.

Lemma quiet_DOT_marker ai n total E prev y :
  digits n -> digits total -> tailForm E ->
  quiet (literal DOT) prev (maskedMarker ai n total E) y.
Proof.
  intros Hn Ht HE. unfold maskedMarker. apply quiet_app.
  - destruct ai; [apply quiet_DOT_token|].
    eapply quiet_literal_head; [reflexivity | now apply no60].
  - apply quiet_app; [|now apply quiet_DOT_tail].
    eapply quiet_literal_head; [reflexivity | now apply middle_no60].
Qed.

Lemma heldBy_restore p x ai n total E y :
  p = DOT \/ p = PAGE_MARKER ->
  heldBy (literal p) x (maskedMarker ai n total E ++ y).
Proof.
  intros Hp.
  destruct (maskedMarker_head ai n total E y) as (a & b & rest & -> & Hab).
  apply heldBy_literal. intros k H0 Hk.
  destruct Hab as [(-> & -> & r & ->)|(-> & ->)], Hp as [-> | ->];
    eval_bound Hk;
    do 15 (destruct k as [|k]; [try lia; try (vm_compute; reflexivity)|]);
    lia.
Qed.

Lemma restoreDot_marker ai n total E q :
  digits n -> digits total -> tailForm E ->
  contains (maskedMarker ai n total E) q ->
  contains (maskedMarker ai n total E) (jsReplace (literal DOT) [46%Z] q).
Proof.
  intros Hn Ht HE (x & y & ->). apply jsReplace_frame.
  - apply heldBy_restore. now left.
  - intros p. now apply quiet_DOT_marker.
Qed.

Lemma restore_tail E prev y :
  tailForm E ->
  exists r,
    flat_map (emit PDF_PAGE) (scan (literal PAGE_MARKER) prev 0 (E ++ y))
    = lit "===" ++ r.
Proof.
  intros [|j Hj].
  - rewrite scan_quiet.
    + rewrite flat_map_app, flat_map_keep. now eexists.
    + eapply quiet_literal_head; [reflexivity | now apply no60].
  - rewrite <- app_assoc, scan_quiet.
    + rewrite scan_literal_hit by discriminate.
      rewrite flat_map_app, flat_map_keep.
      destruct j as [|[|[|j]]]; [| | |lia]; cbn; eexists; reflexivity.
    + eapply quiet_literal_head; [reflexivity|].
      apply Forall_forall. intros c ->%repeat_spec. discriminate.
Qed.

Lemma restorePage_marker ai n total E q :
  digits n -> digits total -> tailForm E ->
  contains (maskedMarker ai n total E) q ->
  contains (pageMarker ai n total)
           (jsReplace (literal PAGE_MARKER) PDF_PAGE q).
Proof.
  intros Hn Ht HE (x & y & ->). unfold jsReplace.
  destruct (@scan_arrive (literal PAGE_MARKER) x
              (maskedMarker ai n total E ++ y) None 0) as [ts ->];
    [lia | apply heldBy_restore; now right|].
  unfold maskedMarker. rewrite <- !app_assoc.
  set (p1 := lastOr None x). clearbody p1.
  assert (Hhead : exists p2,
    flat_map (emit PDF_PAGE)
      (scan (literal PAGE_MARKER) p1 0
         ((if ai then PAGE_MARKER else lit "=== PAGE")
            ++ middle n total ++ E ++ y))
    = (if ai then PDF_PAGE else lit "=== PAGE")
        ++ flat_map (emit PDF_PAGE)
             (scan (literal PAGE_MARKER) p2 0 (middle n total ++ E ++ y))).
  { destruct ai.
    - exists (lastOr p1 PAGE_MARKER).
      rewrite scan_literal_hit by discriminate. reflexivity.
    - exists (lastOr p1 (lit "=== PAGE")). rewrite scan_quiet.
      + now rewrite flat_map_app, flat_map_keep.
      + eapply quiet_literal_head; [reflexivity | now apply no60]. }
  rewrite flat_map_app. destruct Hhead as [p2 ->].
  rewrite (@scan_quiet (literal PAGE_MARKER) (middle n total)).
  2:{ eapply quiet_literal_head; [reflexivity | now apply middle_no60]. }
  rewrite flat_map_app, flat_map_keep.
  destruct (restore_tail (lastOr p2 (middle n total)) y HE) as [r ->].
  exists (flat_map (emit PDF_PAGE) ts), r.
  now rewrite pageMarker_eq, <- !app_assoc.
Qed.

(** A marker of either wire format that occurs in the text occurs, code
    unit for code unit, in one of the sentences. *)
Lemma splitIntoSentences_marker ai n total text :
  digits n -> digits total ->
  contains (pageMarker ai n total) text ->
  exists s, In s (splitIntoSentences text)
            /\ contains (pageMarker ai n total) s.
Proof.
  intros Hn Ht Hc.
  pose proof (@maskAbbreviations_marker ai n total text Hn Ht Hc) as H1.
  destruct (@mask_marker ai n total _ Hn Ht H1) as (E & HE & H2).
  destruct (@split_marker ai n total E _ Hn Ht HE H2) as (q & Hq & H3).
  exists (restore q). split.
  - unfold splitIntoSentences. apply in_map. exact Hq.
  - unfold restore. apply restorePage_marker with (E := E); try assumption.
    apply restoreDot_marker; assumption.
Qed.

End Markers.

(* ------------------------------------------------------------------ *)
(** ** Sentences inside chunks *)
(* ------------------------------------------------------------------ *)

Module ChunkContents.
Import Chunker ScanFacts Markers.

(** Text that [trim] cannot cut into: it begins and ends with code units
    that are not white space. *)
Definition solid (m : jsstring) : Prop :=
  exists a m1 l, m = a :: m1 ++ [l] /\ isSpace a = false /\ isSpace l = false.

Lemma dropWhile_stop f c r : forall x,
  f c = false -> exists x', dropWhile f (x ++ c :: r) = x' ++ c :: r.
Proof.
  induction x as [|d x IH]; intros Hc; simpl.
  - rewrite Hc. now exists [].
  - destruct (f d); [now apply IH | now exists (d :: x)].
Qed.

Lemma trim_contains m s : solid m -> contains m s -> contains m (trim s).
Proof.
  intros (a & m1 & l & -> & Ha & Hl) (x & y & ->). unfold trim.
  simpl app.
  destruct (@dropWhile_stop isSpace a ((m1 ++ [l]) ++ y) x Ha) as [x' ->].
  replace (rev (x' ++ a :: (m1 ++ [l]) ++ y))
    with (rev y ++ l :: rev m1 ++ a :: rev x').
  2:{ rewrite !rev_app_distr. simpl. rewrite !rev_app_distr. simpl.
      now rewrite <- !app_assoc. }
  destruct (@dropWhile_stop isSpace l (rev m1 ++ a :: rev x') (rev y) Hl)
    as [y' ->].
  exists x', (rev y').
  rewrite rev_app_distr. simpl. rewrite rev_app_distr. simpl.
  rewrite !rev_involutive, <- !app_assoc. reflexivity.
Qed.

Lemma solid_nonempty m s : solid m -> contains m s -> s <> [].
Proof.
  intros (a & m1 & l & -> & _) H ->. apply contains_nil_inv in H. discriminate.
Qed.

(** The occurrence is in a chunk already pushed, or in the running chunk. *)
Definition held (m : jsstring) (st : ChunkState) : Prop :=
  (exists c, In c (chunks st) /\ contains m c) \/ contains m (currentChunk st).

Lemma chunkStep_held m st s : solid m -> held m st -> held m (chunkStep st s).
Proof.
  intros Hm H. unfold chunkStep.
  destruct (trim s) as [|c t] eqn:Et; [exact H|].
  destruct ((targetChunkSize <? _) && (0 <? _)) eqn:E; unfold held; simpl.
  - left. destruct H as [(ch & Hin & Hc)|Hc].
    + exists ch. split; [apply in_or_app; now left | exact Hc].
    + exists (trim (currentChunk st)).
      split; [apply in_or_app; right; now left | now apply trim_contains].
  - destruct H as [H|Hc]; [now left | right].
    destruct (currentChunk st) as [|d cur] eqn:Ecur.
    + exfalso. now apply (solid_nonempty Hm Hc).
    + now apply contains_app_r.
Qed.

Lemma chunkStep_enters m st s :
  solid m -> contains m s -> held m (chunkStep st s).
Proof.
  intros Hm Hc. unfold chunkStep.
  pose proof (trim_contains Hm Hc) as Ht.
  destruct (trim s) as [|c t] eqn:Et.
  - exfalso. now apply (solid_nonempty Hm Ht).
  - right.
    destruct ((targetChunkSize <? _) && (0 <? _)); simpl.
    + apply contains_app_l. now apply (contains_app_l [32%Z]).
    + destruct (currentChunk st); [exact Ht|].
      apply (contains_app_l (z :: j)). now apply (contains_app_l [32%Z]).
Qed.

Lemma fold_chunkStep_held m sentences : forall st,
  solid m -> held m st -> held m (fold_left chunkStep sentences st).
Proof.
  induction sentences as [|s ss IH]; intros st Hm H; simpl; [exact H|].
  apply IH; [assumption | now apply chunkStep_held].
Qed.

Lemma fold_chunkStep_enters m sentences : forall st s,
  solid m -> In s sentences -> contains m s ->
  held m (fold_left chunkStep sentences st).
Proof.
  induction sentences as [|s0 ss IH]; intros st s Hm Hin Hc; simpl.
  - contradiction.
  - destruct Hin as [->|Hin].
    + apply fold_chunkStep_held; [assumption | now apply chunkStep_enters].
    + now apply IH with s.
Qed.

(** Every sentence reaches a chunk, and with it whatever it contains. *)
Lemma collectChunks_contains m sentences s :
  solid m -> In s sentences -> contains m s ->
  exists c, In c (collectChunks sentences) /\ contains m c.
Proof.
  intros Hm Hin Hc. unfold collectChunks.
  pose proof (@fold_chunkStep_enters m sentences (mkChunkState [] [] []) s
                Hm Hin Hc) as [(c & Hc1 & Hc2)|Hcur].
  - exists c. split; [|exact Hc2].
    destruct (trim _); [exact Hc1 | apply in_or_app; now left].
  - pose proof (trim_contains Hm Hcur) as Ht.
    destruct (trim (currentChunk _)) as [|d t] eqn:Et.
    + exfalso. now apply (solid_nonempty Hm Ht).
    + exists (d :: t). split; [apply in_or_app; right; now left | exact Ht].
Qed.

Lemma pageMarker_solid ai n total : solid (pageMarker ai n total).
Proof.
  unfold pageMarker.
  destruct ai.
  - exists 61%Z, (lit "== PDF PAGE " ++ n ++ lit " of " ++ total ++ lit " =="),
      61%Z.
    repeat split. repeat (progress (cbn; rewrite <- ?app_assoc)). reflexivity.
  - exists 61%Z, (lit "== PAGE " ++ n ++ lit " of " ++ total ++ lit " =="),
      61%Z.
    repeat split. repeat (progress (cbn; rewrite <- ?app_assoc)). reflexivity.
Qed.

End ChunkContents.

(* ------------------------------------------------------------------ *)
(** ** The retrying transport *)
(* ------------------------------------------------------------------ *)

Module TransportFacts.
Import Platform Ingestion.
Local Open Scope Z_scope.

(** The two tests of the loop body. *)
Definition clientError (r : Response) : bool :=
  (400 <=? resp_status r) && (resp_status r <? 500)
  && negb (resp_status r =? 429).

Definition retryable (r : Response) : bool :=
  (500 <=? resp_status r) || (resp_status r =? 429).

(** An outcome after which the loop goes round again. *)
Definition failing (o : FetchOutcome) : bool :=
  match o with
  | NetworkError _ => true
  | Responds r => negb (clientError r) && retryable r
  end.

(** [lastError] after the outcomes of [n] failing attempts. *)
Fixpoint lastErrorAfter (net : nat -> FetchOutcome * Z) (n : nat) (first : nat)
    (lastError : option jsstring) : option jsstring :=
  match n with
  | O => lastError
  | S n' =>
      lastErrorAfter net n' (S first)
        match fst (net first) with
        | NetworkError m => Some m
        | Responds _ => lastError
        end
  end.

Lemma attemptOnce_run attempt lastError w :
  attemptOnce attempt lastError w =
  match network w (fetches w) with
  | (NetworkError m, e) =>
      (Ok (Continues (Some m)), slept (2 ^ attempt * 1000) (fetched e w))
  | (Responds r, e) =>
      if clientError r then (Ok (Returns r), fetched e w)
      else if retryable r
      then (Ok (Continues lastError), slept (2 ^ attempt * 1000) (fetched e w))
      else (Ok (Returns r), fetched e w)
  end.
Proof.
  unfold attemptOnce, tryCatch, bind, fetch, clientError, retryable.
  destruct (network w (fetches w)) as [[m|r] e]; [reflexivity|].
  destruct ((400 <=? resp_status r) && (resp_status r <? 500)
            && negb (resp_status r =? 429)); [reflexivity|].
  destruct ((500 <=? resp_status r) || (resp_status r =? 429)); reflexivity.
Qed.

(** A 4xx answer other than 429 is returned by the attempt that received
    it: one call of [fetch], no wait. *)
Lemma client_error_returned_at_once n w r e :
  network w (fetches w) = (Responds r, e) -> clientError r = true ->
  fetchWithRetry (S n) w = (Ok r, fetched e w).
Proof.
  intros Hn Hc. unfold fetchWithRetry. simpl. unfold bind.
  rewrite attemptOnce_run, Hn, Hc. reflexivity.
Qed.

(** When every one of the [n] attempts fails, the loop waits
    [2^attempt * 1000] ms after each of them and throws. *)
Lemma retryLoop_exhausted n : forall attempt lastError w,
  (forall k, (k < n)%nat ->
             failing (fst (network w (fetches w + k)%nat)) = true) ->
  exists w',
    retryLoop n attempt lastError w
    = (Throw (match lastErrorAfter (network w) n (fetches w) lastError with
              | Some m => m
              | None => lit "Max retries exceeded"
              end), w')
    /\ sleeps w' = sleeps w
                   ++ map (fun j => 2 ^ (attempt + Z.of_nat j) * 1000) (seq 0 n)
    /\ fetches w' = (fetches w + n)%nat
    /\ network w' = network w.
Proof.
  induction n as [|n IH]; intros attempt lastError w Hall.
  - exists w. simpl. rewrite app_nil_r, Nat.add_0_r. repeat split.
  - simpl retryLoop. unfold bind. rewrite attemptOnce_run.
    pose proof (Hall 0%nat ltac:(lia)) as H0. rewrite Nat.add_0_r in H0.
    simpl lastErrorAfter.
    destruct (network w (fetches w)) as [[m|r] e] eqn:En; simpl in H0 |- *;
      rewrite ?En; simpl.
    + destruct (IH (attempt + 1) (Some m)
                   (slept (2 ^ attempt * 1000) (fetched e w)))
        as (w' & -> & Hs & Hf & Hnet).
      { intros k Hk. simpl. specialize (Hall (S k) ltac:(lia)).
        now rewrite Nat.add_succ_r in Hall. }
      exists w'. simpl in *. split; [reflexivity|].
      split; [|split; [lia | assumption]].
      rewrite Hs, <- app_assoc. f_equal. simpl. f_equal.
      * now rewrite Z.add_0_r.
      * rewrite <- seq_shift, map_map. apply map_ext. intros j.
        f_equal. f_equal. lia.
    + apply andb_true_iff in H0 as [Hc Hr].
      apply negb_true_iff in Hc. rewrite Hc, Hr.
      destruct (IH (attempt + 1) lastError
                   (slept (2 ^ attempt * 1000) (fetched e w)))
        as (w' & -> & Hs & Hf & Hnet).
      { intros k Hk. simpl. specialize (Hall (S k) ltac:(lia)).
        now rewrite Nat.add_succ_r in Hall. }
      exists w'. simpl in *. split; [reflexivity|].
      split; [|split; [lia | assumption]].
      rewrite Hs, <- app_assoc. f_equal. simpl. f_equal.
      * now rewrite Z.add_0_r.
      * rewrite <- seq_shift, map_map. apply map_ext. intros j.
        f_equal. f_equal. lia.
Qed.

(** What the transport returns is never a 429 and never a 5xx:
    the 429 branch of [handleAiError] cannot be reached through it. *)
Lemma retryLoop_returns n : forall attempt lastError w r w',
  retryLoop n attempt lastError w = (Ok r, w') -> retryable r = false.
Proof.
  induction n as [|n IH]; intros attempt lastError w r w' H; simpl in H.
  - discriminate.
  - unfold bind in H. rewrite attemptOnce_run in H.
    destruct (network w (fetches w)) as [[m|r0] e].
    + now apply IH in H.
    + destruct (clientError r0) eqn:Hc.
      * injection H as <- _. unfold clientError in Hc. unfold retryable.
        apply andb_true_iff in Hc as [Hc H429].
        apply andb_true_iff in Hc as [_ H5].
        apply negb_true_iff in H429. rewrite H429, orb_false_r.
        apply Z.ltb_lt in H5. apply Z.leb_gt. lia.
      * destruct (retryable r0) eqn:Hr.
        -- now apply IH in H.
        -- now injection H as <- _.
Qed.

End TransportFacts.

(* ------------------------------------------------------------------ *)
(** ** What extraction leaves alone *)
(* ------------------------------------------------------------------ *)

Module Frame.
Import Platform Ingestion.
Local Open Scope js_scope.

(** Identity, status and error message of every row, in table order. *)
Definition ledger (w : World) : list (jsstring * Status * option jsstring) :=
  map (fun r => (id r, status r, error_message r)) (sources w).

(** The ledger after an update that sets status and message of the rows
    with id [i]. *)
Definition ledgerMark (i : jsstring) (st : Status) (em : option jsstring)
    (l : list (jsstring * Status * option jsstring))
  : list (jsstring * Status * option jsstring) :=
  map (fun e => if str_eqb (fst (fst e)) i then (fst (fst e), st, em) else e) l.

(** A computation that changes neither the ledger nor the chunks, nor what
    the outside world holds in store. *)
Definition discreet {A} (c : M A) : Prop :=
  forall w,
    source_chunks (snd (c w)) = source_chunks w
    /\ ledger (snd (c w)) = ledger w
    /\ storage (snd (c w)) = storage w
    /\ network (snd (c w)) = network w.

Lemma discreet_ret A (a : A) : discreet (ret a).
Proof. intros w. simpl. auto. Qed.

Lemma discreet_throw A e : discreet (@throw A e).
Proof. intros w. simpl. auto. Qed.

Lemma discreet_bind A B (c : M A) (k : A -> M B) :
  discreet c -> (forall a, discreet (k a)) -> discreet (bind c k).
Proof.
  intros Hc Hk w. unfold bind.
  destruct (Hc w) as (H1 & H2 & H3 & H4).
  destruct (c w) as [[a|e] w1]; simpl in *; [|auto].
  destruct (Hk a w1) as (K1 & K2 & K3 & K4).
  repeat split; congruence.
Qed.

Lemma discreet_tryCatch A (c : M A) (h : jsstring -> M A) :
  discreet c -> (forall e, discreet (h e)) -> discreet (tryCatch c h).
Proof.
  intros Hc Hh w. unfold tryCatch.
  destruct (Hc w) as (H1 & H2 & H3 & H4).
  destruct (c w) as [[a|e] w1]; simpl in *; [auto|].
  destruct (Hh e w1) as (K1 & K2 & K3 & K4).
  repeat split; congruence.
Qed.

Lemma discreet_sleep ms : discreet (sleep ms).
Proof. intros w. simpl. auto. Qed.

Lemma discreet_fetch : discreet fetch.
Proof.
  intros w. unfold fetch.
  destruct (network w (fetches w)) as [[m|r] e]; simpl; auto.
Qed.

Lemma discreet_download p : discreet (download p).
Proof. intros w. simpl. auto. Qed.

Lemma discreet_dateNow : discreet dateNow.
Proof. intros w. simpl. auto. Qed.

Lemma discreet_updateSource i f :
  (forall r, id (f r) = id r /\ status (f r) = status r
             /\ error_message (f r) = error_message r) ->
  discreet (updateSource i f).
Proof.
  intros Hf w. simpl. repeat split. unfold ledger. simpl.
  rewrite map_map. apply map_ext. intros r.
  destruct (str_eqb (id r) i); [|reflexivity]. simpl.
  destruct (Hf r) as (-> & -> & ->). reflexivity.
Qed.

Lemma discreet_if A (b : bool) (c d : M A) :
  discreet c -> discreet d -> discreet (if b then c else d).
Proof. now destruct b. Qed.

Create HintDb discreet.
#[export] Hint Resolve discreet_ret discreet_throw discreet_sleep
  discreet_fetch discreet_download discreet_dateNow discreet_if : discreet.

Ltac discreet_step :=
  first
    [ apply discreet_bind; [|intros ?]
    | apply discreet_tryCatch; [|intros ?]
    | apply discreet_updateSource; intros ?; simpl; auto
    | solve [auto with discreet] ].

Lemma discreet_retryLoop n : forall attempt lastError,
  discreet (retryLoop n attempt lastError).
Proof.
  induction n as [|n IH]; intros attempt lastError; simpl.
  - auto with discreet.
  - apply discreet_bind.
    + unfold attemptOnce. repeat discreet_step.
    + intros [r|le]; [auto with discreet | apply IH].
Qed.

Lemma discreet_aiCompletion : discreet aiCompletion.
Proof.
  unfold aiCompletion. apply discreet_bind; [apply discreet_retryLoop|].
  intros r. apply discreet_bind.
  - apply discreet_if; [auto with discreet|].
    unfold handleAiError. repeat apply discreet_if; auto with discreet.
  - intros _. unfold completionOf. destruct (resp_body r); auto with discreet.
Qed.

Lemma discreet_heartbeat i b t e : discreet (heartbeat i b t e).
Proof. unfold heartbeat. repeat discreet_step. Qed.

Lemma discreet_batchTurn i t e b st : discreet (batchTurn i t e b st).
Proof.
  unfold batchTurn. apply discreet_bind; [apply discreet_heartbeat|].
  intros _. apply discreet_bind.
  - apply discreet_tryCatch.
    + apply discreet_bind; [apply discreet_aiCompletion|].
      intros ?. auto with discreet.
    + intros ?. auto with discreet.
  - intros ?. repeat discreet_step.
Qed.

Lemma discreet_batchLoop i t e n : forall b st,
  discreet (batchLoop i t e n b st).
Proof.
  induction n as [|n IH]; intros b st; simpl; [auto with discreet|].
  apply discreet_bind; [apply discreet_batchTurn | intros ?; apply IH].
Qed.

Lemma discreet_extractPdfContent size i : discreet (extractPdfContent size i).
Proof.
  unfold extractPdfContent. apply discreet_if.
  - unfold extractPdfSingleCall.
    apply discreet_bind; [apply discreet_aiCompletion|].
    intros ?. auto with discreet.
  - unfold extractPdfInBatches.
    apply discreet_bind; [apply discreet_batchLoop|].
    intros ?. auto with discreet.
Qed.

Lemma discreet_extractPhase source pre : discreet (extractPhase source pre).
Proof.
  unfold extractPhase.
  assert (Hdl : discreet (
    fileData <- download (file_path source) ;;
    match fileData with
    | DownloadError message =>
        throw (lit "Failed to download file: "
                 ++ match message with
                    | Some m => m
                    | None => lit "undefined"
                    end)
    | Downloaded fileText =>
        if str_eqb (file_type source) (lit "txt") then
          let pages := estimatePages fileText in
          ret (mkExtracted fileText (if Z.eqb pages 0 then 1%Z else pages))
        else if str_eqb (file_type source) (lit "pdf") then
          if Z.ltb MAX_SERVER_PDF_BYTES (file_size source) then
            throw (tooLargeMessage (file_size source))
          else extractPdfContent (file_size source) (id source)
        else if str_eqb (file_type source) (lit "docx")
                || str_eqb (file_type source) (lit "doc") then
          extractDocxContent
        else ret (mkExtracted [] (storedPageCount source))
    end)).
  { apply discreet_bind; [auto with discreet|].
    intros [m|fileText]; [auto with discreet|].
    apply discreet_if; [auto with discreet|].
    apply discreet_if;
      [apply discreet_if;
         [auto with discreet | apply discreet_extractPdfContent]|].
    apply discreet_if; [|auto with discreet].
    unfold extractDocxContent.
    apply discreet_bind; [apply discreet_aiCompletion|].
    intros ?. auto with discreet. }
  destruct pre as [[|c pre]|]; try exact Hdl.
  repeat discreet_step.
Qed.

End Frame.

(* ------------------------------------------------------------------ *)
(** ** The background job *)
(* ------------------------------------------------------------------ *)

Module JobFacts.
Import Platform Ingestion Chunker Frame.
Local Open Scope js_scope.

Lemma str_eqb_eq a b : str_eqb a b = true <-> a = b.
Proof.
  unfold str_eqb. destruct (list_eq_dec Z.eq_dec a b); split; intros;
    congruence.
Qed.

Lemma ledger_updateSource i f st em w :
  (forall r, id (f r) = id r /\ status (f r) = st /\ error_message (f r) = em) ->
  ledger (snd (updateSource i f w)) = ledgerMark i st em (ledger w).
Proof.
  intros Hf. unfold ledger, ledgerMark. simpl. rewrite !map_map.
  apply map_ext. intros r. simpl.
  destruct (str_eqb (id r) i); [|reflexivity]. simpl.
  destruct (Hf r) as (-> & -> & ->). reflexivity.
Qed.

Lemma ledgerMark_twice i st em st' em' l :
  ledgerMark i st' em' (ledgerMark i st em l) = ledgerMark i st' em' l.
Proof.
  unfold ledgerMark. rewrite map_map. apply map_ext. intros [[j s] m]. simpl.
  destruct (str_eqb j i) eqn:E; simpl; now rewrite E.
Qed.

Lemma setChunks_same w : setChunks w (source_chunks w) = w.
Proof. now destruct w. Qed.

Lemma insertLoop_all turns : forall rows w,
  length rows <= turns ->
  insertLoop turns rows w = (Ok tt, setChunks w (source_chunks w ++ rows)).
Proof.
  induction turns as [|turns IH]; intros rows w Hlen.
  - destruct rows; [|simpl in Hlen; lia].
    simpl. now rewrite app_nil_r, setChunks_same.
  - destruct rows as [|r rows].
    + simpl. now rewrite app_nil_r, setChunks_same.
    + remember (r :: rows) as all eqn:Eall.
      assert (insertLoop (S turns) all w
              = (insertChunks (firstn 50 all) ;;
                 insertLoop turns (skipn 50 all)) w) as ->
        by (rewrite Eall; reflexivity).
      unfold bind, insertChunks. rewrite IH.
      * unfold setChunks.
        cbn [source_chunks sources storage network fetches clock sleeps
             LOVABLE_API_KEY].
        now rewrite <- app_assoc, firstn_skipn.
      * rewrite length_skipn. subst all. simpl in *. lia.
Qed.

Lemma chunkRows_length i chunks : length (chunkRows i chunks) = length chunks.
Proof.
  unfold chunkRows.
  now rewrite length_map, length_combine, length_seq, Nat.min_id.
Qed.

(** The chunk replacement and the [ready] update always go through. *)
Lemma persistPhase_run source extracted w :
  exists w',
    persistPhase source extracted w = (Ok tt, w')
    /\ ledger w' = ledgerMark (id source) ready None (ledger w)
    /\ source_chunks w'
       = filter (fun c => negb (str_eqb (source_id c) (id source)))
                (source_chunks w)
         ++ chunkRows (id source)
              match text extracted with
              | [] => []
              | _ :: _ => splitIntoSmartChunks (text extracted)
              end.
Proof.
  unfold persistPhase, bind. unfold deleteChunks at 1.
  rewrite insertLoop_all by (rewrite chunkRows_length; lia).
  match goal with |- exists w', ?c = _ /\ _ => exists (snd c) end.
  split; [reflexivity|]. split.
  - rewrite (@ledger_updateSource _ _ ready None); [reflexivity|].
    intros r. simpl. auto.
  - reflexivity.
Qed.

(** The job never rejects: whatever its [try] block throws is caught. *)
Lemma processDocumentInBackground_settles source pre w :
  fst (processDocumentInBackground source pre w) = Ok tt.
Proof.
  unfold processDocumentInBackground, tryCatch, bind.
  destruct (extractPhase source pre w) as [[ex|e] w1]; [|reflexivity].
  destruct (persistPhase_run source ex w1) as (w' & -> & _). reflexivity.
Qed.

Lemma job_after_extraction source pre w ex w1 :
  extractPhase source pre w = (Ok ex, w1) ->
  ledger (snd (processDocumentInBackground source pre w))
  = ledgerMark (id source) ready None (ledger w).
Proof.
  intros H. unfold processDocumentInBackground, tryCatch, bind. rewrite H.
  destruct (persistPhase_run source ex w1) as (w' & -> & Hl & _).
  simpl. rewrite Hl.
  destruct (discreet_extractPhase source pre w) as (_ & Hw & _).
  rewrite H in Hw. simpl in Hw. now rewrite Hw.
Qed.

Lemma job_after_failure source pre w e w1 :
  extractPhase source pre w = (Throw e, w1) ->
  ledger (snd (processDocumentInBackground source pre w))
  = ledgerMark (id source) error (Some e) (ledger w)
  /\ source_chunks (snd (processDocumentInBackground source pre w))
     = source_chunks w
  /\ fetches (snd (processDocumentInBackground source pre w)) = fetches w1.
Proof.
  intros H. unfold processDocumentInBackground, tryCatch, bind. rewrite H.
  destruct (discreet_extractPhase source pre w) as (Hc & Hw & _).
  rewrite H in Hc, Hw. simpl in Hc, Hw. repeat split.
  - rewrite (@ledger_updateSource _ _ error (Some e)); [now rewrite Hw|].
    intros r. simpl. auto.
  - simpl. exact Hc.
Qed.

(** *** Batches *)

(** The outcomes of the page-range extractions of the batches, in batch
    order: the run of the loop with only the outcomes kept. *)
Fixpoint batchOutcomes (sourceId : jsstring) (totalBatches estimatedPages : Z)
    (remaining : nat) (batch : Z) (w : World) : list (Result jsstring) :=
  match remaining with
  | O => []
  | S remaining' =>
      let w1 := snd (heartbeat sourceId batch totalBatches estimatedPages w) in
      let '(outcome, w2) :=
        extractPdfPageRange (startPageOf batch)
          (endPageOf batch estimatedPages) estimatedPages w1 in
      let w3 :=
        snd ((if (batch <? totalBatches - 1)%Z then sleep 500 else ret tt) w2) in
      outcome :: batchOutcomes sourceId totalBatches estimatedPages remaining'
                   (batch + 1) w3
  end.

(** What a batch contributes to the text: what it extracted, or the
    placeholder for its page range. *)
Definition batchPart (estimatedPages batch : Z) (outcome : Result jsstring)
  : jsstring :=
  match outcome with
  | Ok batchText => batchText
  | Throw _ =>
      batchPlaceholder (startPageOf batch) (endPageOf batch estimatedPages)
  end.

Fixpoint partsFrom (estimatedPages batch : Z) (outcomes : list (Result jsstring))
  : list jsstring :=
  match outcomes with
  | [] => []
  | o :: os =>
      batchPart estimatedPages batch o :: partsFrom estimatedPages (batch + 1) os
  end.

Lemma partsFrom_length e os : forall b, length (partsFrom e b os) = length os.
Proof. induction os as [|o os IH]; intros b; simpl; [|rewrite IH]; reflexivity. Qed.

Lemma partsFrom_nth e os : forall b j o,
  nth_error os j = Some o ->
  nth_error (partsFrom e b os) j = Some (batchPart e (b + Z.of_nat j) o).
Proof.
  induction os as [|o0 os IH]; intros b j o H.
  - destruct j; discriminate.
  - destruct j as [|j].
    + simpl in *. injection H as ->. now rewrite Z.add_0_r.
    + cbn [nth_error partsFrom] in *. rewrite (IH _ _ _ H).
      f_equal. f_equal. lia.
Qed.

Lemma batchOutcomes_length i t e n : forall b w,
  length (batchOutcomes i t e n b w) = n.
Proof.
  induction n as [|n IH]; intros b w; simpl; [reflexivity|].
  destruct (extractPdfPageRange _ _ _ _) as [o w2]. simpl. now rewrite IH.
Qed.

Lemma heartbeat_ok i b t e w :
  heartbeat i b t e w = (Ok tt, snd (heartbeat i b t e w)).
Proof. reflexivity. Qed.

Lemma batchOutcomes_S i t e n b w :
  batchOutcomes i t e (S n) b w
  = fst (extractPdfPageRange (startPageOf b) (endPageOf b e) e
           (snd (heartbeat i b t e w)))
    :: batchOutcomes i t e n (b + 1)
         (snd ((if (b <? t - 1)%Z then sleep 500 else ret tt)
                 (snd (extractPdfPageRange (startPageOf b) (endPageOf b e) e
                         (snd (heartbeat i b t e w)))))).
Proof.
  simpl. now destruct (extractPdfPageRange _ _ _ _).
Qed.

Lemma pause_ok (b : bool) w :
  (if b then sleep 500 else ret tt) w
  = (Ok tt, snd ((if b then sleep 500 else ret tt) w)).
Proof. now destruct b. Qed.

(** The loop never throws, and adds one part per batch, in order. *)
Lemma batchLoop_run i t e n : forall b st w,
  exists pc w',
    batchLoop i t e n b st w
    = (Ok (mkBatchState
             (allText st ++ partsFrom e b (batchOutcomes i t e n b w)) pc), w').
Proof.
  induction n as [|n IH]; intros b st w.
  - exists (actualPageCount st), w. simpl. rewrite app_nil_r. now destruct st.
  - rewrite batchOutcomes_S.
    cbn [batchLoop]. unfold bind at 1. unfold batchTurn. unfold bind at 1.
    set (w1 := snd (heartbeat i b t e w)).
    assert (Hh : heartbeat i b t e w = (Ok tt, w1)) by reflexivity.
    rewrite Hh. clear Hh.
    unfold bind at 1. unfold tryCatch. unfold bind at 1.
    destruct (extractPdfPageRange (startPageOf b) (endPageOf b e) e w1)
      as [[batchText|m] w2] eqn:Ex; rewrite ?Ex;
      cbn [fst snd partsFrom batchPart];
      unfold ret at 1; unfold bind at 1; rewrite pause_ok; unfold ret at 1;
      match goal with
      | |- exists pc w', batchLoop i t e n (b + 1)%Z ?st' ?w3 = _ =>
          destruct (IH (b + 1)%Z st' w3) as (pc & w' & ->)
      end;
      exists pc, w'; cbn [allText]; now rewrite <- app_assoc.
Qed.

Lemma extractPdfInBatches_run e i w :
  exists pc w',
    extractPdfInBatches e i w
    = (Ok (mkExtracted
             (join [10%Z; 10%Z]
                (partsFrom e 0
                   (batchOutcomes i (ceilDiv e PAGES_PER_BATCH) e
                      (Z.to_nat (ceilDiv e PAGES_PER_BATCH)) 0 w)))
             pc), w').
Proof.
  unfold extractPdfInBatches, bind.
  destruct (batchLoop_run i (ceilDiv e PAGES_PER_BATCH) e
              (Z.to_nat (ceilDiv e PAGES_PER_BATCH)) 0
              (mkBatchState [] e) w) as (pc & w' & ->).
  now exists pc, w'.
Qed.

End JobFacts.

(* ------------------------------------------------------------------ *)
(** ** Concrete documents and gateways *)
(* ------------------------------------------------------------------ *)

Module Scenarios.
Import Platform Ingestion.
Local Open Scope Z_scope.

(** A gateway answer with a status and a completion, after one second. *)
Definition answers (status : Z) (completion : string) : FetchOutcome * Z :=
  (Responds (mkResponse status (Completion (lit completion))), 1000).

(** A pending document [doc1] of the given type and size. *)
Definition document (type : string) (size : Z) (pages : option Z) : Source :=
  mkSource (lit "doc1") (lit "report") (lit "u1/report") (lit type) size
           (lit "u1") pending None None None None pages None 0.

(** A store with that document, one chunk of an earlier pass, the file in
    the bucket and the API key configured. *)
Definition world (source : Source) (net : nat -> FetchOutcome * Z) : World :=
  mkWorld [source] [mkChunk (lit "doc1") 0 (lit "text of an earlier pass")]
          (fun _ => Downloaded (lit "file text")) net 0 5000 []
          (Some (lit "key")).

Definition post (pre : option jsstring) : Request :=
  mkRequest (lit "POST") (inr (mkRequestBody (Some (lit "doc1")) pre)).

(** Sixteen estimated pages, four batches; the second batch meets a 503 on
    each of its three attempts. *)
Definition secondBatchFails (n : nat) : FetchOutcome * Z :=
  match n with
  | 0%nat => answers 200 "=== PDF PAGE 1 of 17 === first batch"
  | 1%nat | 2%nat | 3%nat => answers 503 ""
  | _ => answers 200 "a later batch"
  end.

(** The same store, [ms] later. *)
Definition later (ms : Z) (w : World) : World :=
  mkWorld (sources w) (source_chunks w) (storage w) (network w) (fetches w)
          (clock w + ms) (sleeps w) (LOVABLE_API_KEY w).

Definition creditsExhausted (n : nat) : FetchOutcome * Z := answers 402 "".

Definition rateLimited (n : nat) : FetchOutcome * Z := answers 429 "".

End Scenarios.

(* ------------------------------------------------------------------ *)
(** ** Failure containment of the job *)
(* ------------------------------------------------------------------ *)

Module JobClaims.
Import Platform Ingestion Chunker Frame JobFacts Scenarios.
Local Open Scope Z_scope.

Lemma extractPhase_batched source raw w :
  file_type source = lit "pdf" ->
  storage w (file_path source) = Downloaded raw ->
  file_size source <= MAX_SERVER_PDF_BYTES ->
  15 < ceilDiv (file_size source) 50000 ->
  extractPhase source None w
  = extractPdfInBatches (ceilDiv (file_size source) 50000) (id source) w.
Proof.
  intros Ht Hs Hsize Hpages. unfold extractPhase, bind, download.
  rewrite Hs, Ht.
  change (str_eqb (lit "pdf") (lit "txt")) with false.
  change (str_eqb (lit "pdf") (lit "pdf")) with true. cbv iota.
  destruct (Z.ltb_spec MAX_SERVER_PDF_BYTES (file_size source)); [lia|].
  unfold extractPdfContent.
  destruct (Z.leb_spec (ceilDiv (file_size source) 50000) 15); [lia|].
  reflexivity.
Qed.

(** C5.  A PDF that goes through batched extraction: the extraction
    returns, its text is the parts of the batches in batch order joined by
    two newlines, the part of a batch being what it extracted or, when its
    extraction threw (after the retries of the transport), the placeholder
    [[Error extracting pages <start>-<end>]]; the job then completes and the
    document is [ready] with no error message. *)
Theorem partial_batch_failure_is_contained
    (source : Source) (raw : jsstring) (w : World) :
  file_type source = lit "pdf" ->
  storage w (file_path source) = Downloaded raw ->
  file_size source <= MAX_SERVER_PDF_BYTES ->
  15 < ceilDiv (file_size source) 50000 ->
  let estimatedPages := ceilDiv (file_size source) 50000 in
  let totalBatches := ceilDiv estimatedPages PAGES_PER_BATCH in
  let outcomes :=
    batchOutcomes (id source) totalBatches estimatedPages
                  (Z.to_nat totalBatches) 0 w in
  let parts := partsFrom estimatedPages 0 outcomes in
  (exists pageCount w1,
      extractPhase source None w
      = (Ok (mkExtracted (join [10; 10] parts) pageCount), w1))
  /\ length parts = Z.to_nat totalBatches
  /\ (forall j batchText,
        nth_error outcomes j = Some (Ok batchText) ->
        nth_error parts j = Some batchText)
  /\ (forall j message,
        nth_error outcomes j = Some (Throw message) ->
        nth_error parts j
        = Some (batchPlaceholder (startPageOf (Z.of_nat j))
                                 (endPageOf (Z.of_nat j) estimatedPages)))
  /\ fst (processDocumentInBackground source None w) = Ok tt
  /\ ledger (snd (processDocumentInBackground source None w))
     = ledgerMark (id source) ready None (ledger w).
Proof.
  intros Ht Hs Hsize Hpages estimatedPages totalBatches outcomes parts.
  pose proof (extractPhase_batched source w Ht Hs Hsize Hpages) as Hx.
  destruct (extractPdfInBatches_run estimatedPages (id source) w)
    as (pc & w1 & Hrun).
  fold estimatedPages in Hx. rewrite Hrun in Hx.
  split; [now exists pc, w1|].
  split; [subst parts outcomes;
          now rewrite partsFrom_length, batchOutcomes_length|].
  split; [intros j t Hj; subst parts;
          now rewrite (partsFrom_nth estimatedPages _ 0 _ Hj)|].
  split; [intros j m Hj; subst parts;
          now rewrite (partsFrom_nth estimatedPages _ 0 _ Hj)|].
  split; [apply processDocumentInBackground_settles|].
  now apply job_after_extraction with (1 := Hx).
Qed.

(** The run of the spec's scenario, with four batches: the second batch
    fails, the text keeps the three others around its placeholder and the
    document is [ready]. *)
Lemma partial_batch_failure_witness :
  (exists pageCount w1,
      extractPhase (document "pdf" 800000 None) None
                   (world (document "pdf" 800000 None) secondBatchFails)
      = (Ok (mkExtracted
               (lit "=== PDF PAGE 1 of 17 === first batch" ++ [10; 10]
                ++ lit "[Error extracting pages 6-10]" ++ [10; 10]
                ++ lit "a later batch" ++ [10; 10] ++ lit "a later batch")
               pageCount), w1))
  /\ ledger (snd (processDocumentInBackground (document "pdf" 800000 None) None
                    (world (document "pdf" 800000 None) secondBatchFails)))
     = [(lit "doc1", ready, None)].
Proof.
  destruct (@partial_batch_failure_is_contained
              (document "pdf" 800000 None) (lit "file text")
              (world (document "pdf" 800000 None) secondBatchFails)
              eq_refl eq_refl ltac:(vm_compute; discriminate)
              ltac:(vm_compute; reflexivity))
    as (Hx & _ & _ & _ & _ & Hl).
  split; [exact Hx | exact Hl].
Defined.



End JobClaims.

(* ------------------------------------------------------------------ *)
(** ** Page counts from markers *)
(* ------------------------------------------------------------------ *)

Module PageCountFacts.
Import Platform Ingestion ScanFacts Markers.

Lemma firstn_length_app (a b : jsstring) : firstn (length a) (a ++ b) = a.
Proof.
  now rewrite firstn_app, firstn_all, Nat.sub_diag, firstn_O, app_nil_r.
Qed.

Lemma skipn_length_app (a b : jsstring) : skipn (length a) (a ++ b) = b.
Proof.
  now rewrite skipn_app, skipn_all, Nat.sub_diag.
Qed.

Lemma length_nonzero (d : jsstring) : negb (length d =? 0) = true -> d <> [].
Proof. destruct d; [discriminate | discriminate]. Qed.

(** A match of the marker regex is a marker: the head, a run of digits,
    [ of ], a run of digits, [ ===]. *)
Lemma markerRegex_shape head prev s :
  0 < markerRegex head prev s ->
  exists n total,
    digits n /\ digits total /\ n <> [] /\ total <> []
    /\ firstn (markerRegex head prev s) s
       = head ++ n ++ lit " of " ++ total ++ lit " ===".
Proof.
  unfold markerRegex. destruct (isPrefix head s) eqn:Eh; [|lia].
  set (s1 := skipn (length head) s).
  set (d1 := takeWhile isDigit s1).
  set (s2 := skipn (length d1) s1).
  set (s3 := skipn 4 s2).
  set (d2 := takeWhile isDigit s3).
  set (s4 := skipn (length d2) s3).
  cbv zeta.
  destruct (negb (length d1 =? 0) && isPrefix (lit " of ") s2
            && negb (length d2 =? 0) && isPrefix (lit " ===") s4) eqn:E; [|lia].
  intros _.
  apply andb_true_iff in E as [E E4]. apply andb_true_iff in E as [E E3].
  apply andb_true_iff in E as [E1 E2].
  exists d1, d2.
  split; [apply takeWhile_Forall|]. split; [apply takeWhile_Forall|].
  split; [now apply length_nonzero|]. split; [now apply length_nonzero|].
  assert (Hs : s = (head ++ d1 ++ lit " of " ++ d2 ++ lit " ===")
                     ++ skipn 4 s4).
  { rewrite (isPrefix_split _ _ Eh) at 1. fold s1.
    rewrite (takeWhile_skipn isDigit s1) at 1. fold d1. fold s2.
    rewrite (isPrefix_split _ _ E2) at 1.
    change (skipn (length (lit " of ")) s2) with s3.
    rewrite (takeWhile_skipn isDigit s3) at 1. fold d2. fold s4.
    rewrite (isPrefix_split _ _ E4) at 1.
    change (length (lit " ===")) with 4.
    now rewrite <- !app_assoc. }
  replace (length head + length d1 + 4 + length d2 + 4)
    with (length (head ++ d1 ++ lit " of " ++ d2 ++ lit " ===")).
  - transitivity (firstn (length (head ++ d1 ++ lit " of " ++ d2 ++ lit " ==="))
                          ((head ++ d1 ++ lit " of " ++ d2 ++ lit " ===")
                             ++ skipn 4 s4));
      [now rewrite <- Hs | apply firstn_length_app].
  - rewrite !length_app. change (length (lit " of ")) with 4.
    change (length (lit " ===")) with 4. lia.
Qed.

Lemma digit_not_space_head (total : jsstring) rest :
  digits total ->
  takeWhile isDigit (total ++ lit " ===" ++ rest) = total.
Proof. intros H. now apply takeWhile_all. Qed.

Lemma markerTotal_marker head n total :
  digits n -> digits total ->
  markerTotal head (head ++ n ++ lit " of " ++ total ++ lit " ===") = total.
Proof.
  intros Hn Ht. unfold markerTotal. rewrite skipn_length_app.
  assert (takeWhile isDigit (n ++ lit " of " ++ total ++ lit " ===") = n)
    as -> by now apply takeWhile_all.
  rewrite skipn_length_app.
  change (skipn 4 (lit " of " ++ total ++ lit " ==="))
    with (total ++ lit " ===" ++ []).
  now apply digit_not_space_head.
Qed.

Lemma ofRegex_other p c s : Z.eqb c 111 = false -> ofRegex p (c :: s) = 0.
Proof.
  intros H. unfold ofRegex.
  change (lit "of ") with [111%Z; 102%Z; 32%Z]. cbn [isPrefix].
  rewrite Z.eqb_sym, H. reflexivity.
Qed.

Lemma ofTotal_marker head n total :
  head = lit "=== PAGE " \/ head = lit "=== PDF PAGE " ->
  digits n -> digits total -> total <> [] ->
  ofTotal (head ++ n ++ lit " of " ++ total ++ lit " ===") = Some total.
Proof.
  intros Hh Hn Ht Hne. unfold ofTotal, jsMatchAll.
  replace (head ++ n ++ lit " of " ++ total ++ lit " ===")
    with ((head ++ n ++ [32%Z]) ++ lit "of " ++ total ++ lit " ===")
    by (rewrite <- !app_assoc; reflexivity).
  rewrite (@scan_quiet ofRegex (head ++ n ++ [32%Z])).
  2:{ apply quiet_by_head with (f := fun c => Z.eqb c 111).
      - apply ofRegex_other.
      - apply Forall_app; split;
          [destruct Hh as [-> | ->]; repeat constructor|].
        apply Forall_app; split; [|repeat constructor].
        eapply Forall_impl; [|exact Hn]. intros c Hc.
        apply digit_bounds in Hc. apply Z.eqb_neq. lia. }
  set (p := lastOr None (head ++ n ++ [32%Z])). clearbody p.
  change (lit "of " ++ total ++ lit " ===")
    with (111%Z :: 102%Z :: 32%Z :: total ++ lit " ===").
  rewrite scan_cons0. unfold ofRegex at 1.
  change (isPrefix (lit "of ") (111%Z :: 102%Z :: 32%Z :: total ++ lit " ==="))
    with true.
  change (skipn 3 (111%Z :: 102%Z :: 32%Z :: total ++ lit " ==="))
    with (total ++ lit " ===" ++ []).
  rewrite digit_not_space_head by assumption.
  destruct total as [|t total]; [contradiction|].
  cbv iota. rewrite hits_app_keep. simpl hits. cbv iota.
  f_equal. simpl. f_equal. now rewrite firstn_length_app.
Qed.

End PageCountFacts.

(* ------------------------------------------------------------------ *)
(** ** The trigger and pre-extracted text *)
(* ------------------------------------------------------------------ *)

Module TriggerClaims.
Import Platform Ingestion Chunker Frame JobFacts Scenarios ScanFacts Markers
       PageCountFacts.
Local Open Scope Z_scope.

(** A request is rejected synchronously when the response carries an error
    and nothing was handed to the background. *)
Definition rejectedSynchronously (s : Served) : Prop :=
  (exists message, reply_body (reply s) = ErrorReply message)
  /\ background s = None.

Lemma extractPhase_oversized source pre raw w :
  falsy pre = true ->
  file_type source = lit "pdf" ->
  storage w (file_path source) = Downloaded raw ->
  MAX_SERVER_PDF_BYTES < file_size source ->
  extractPhase source pre w = (Throw (tooLargeMessage (file_size source)), w).
Proof.
  intros Hp Ht Hs Hsize.
  assert (Hx : extractPhase source None w
               = (Throw (tooLargeMessage (file_size source)), w)).
  { unfold extractPhase, bind, download. rewrite Hs, Ht.
    change (str_eqb (lit "pdf") (lit "txt")) with false.
    change (str_eqb (lit "pdf") (lit "pdf")) with true. cbv iota.
    destruct (Z.ltb_spec MAX_SERVER_PDF_BYTES (file_size source));
      [reflexivity | lia]. }
  destruct pre as [[|c pre]|]; [exact Hx | discriminate | exact Hx].
Qed.

(** C7, counterexample.  A PDF of 3 MB without pre-extracted text: the
    trigger answers 200 "Document processing started" and hands the job to
    the background. *)
Lemma oversized_pdf_is_not_rejected_synchronously :
  MAX_SERVER_PDF_BYTES < file_size (document "pdf" 3145728 None)
  /\ ~ rejectedSynchronously
         (serve (post None) (world (document "pdf" 3145728 None) rateLimited)).
Proof.
  split; [reflexivity|]. intros [[message H] _]. discriminate H.
Qed.

(** C7, as the code has it.  For a PDF above the 2 MB ceiling without
    pre-extracted text the trigger answers as for any document: status 200,
    "Document processing started", the document set to [processing] and the
    job handed to the background.  The job then rejects the file: the
    document ends in [error] with the guidance message, no call to the AI
    gateway was made and the stored chunks are as before. *)
Theorem oversized_pdf_is_rejected_in_background
    (req : Request) (body : RequestBody) (c : Z) (i raw : jsstring)
    (source : Source) (w : World) :
  str_eqb (method req) (lit "OPTIONS") = false ->
  json req = inr body ->
  sourceId body = Some (c :: i) ->
  falsy (preExtractedText body) = true ->
  falsy (LOVABLE_API_KEY w) = false ->
  filter (fun r => str_eqb (id r) (c :: i)) (sources w) = [source] ->
  file_type source = lit "pdf" ->
  MAX_SERVER_PDF_BYTES < file_size source ->
  storage w (file_path source) = Downloaded raw ->
  reply (serve req w)
  = mkReply 200 (Started (lit "Document processing started") (c :: i))
  /\ background (serve req w)
     = Some (processDocumentInBackground source (preExtractedText body))
  /\ ledger (at_reply (serve req w))
     = ledgerMark (c :: i) processing None (ledger w)
  /\ ledger (settled (serve req w))
     = ledgerMark (c :: i) error
                  (Some (tooLargeMessage (file_size source))) (ledger w)
  /\ fetches (settled (serve req w)) = fetches w
  /\ source_chunks (settled (serve req w)) = source_chunks w.
Proof.
  intros Hm Hj Hi Hpre Hkey Hrow Ht Hsize Hs.
  assert (Hid : id source = c :: i).
  { assert (Hin : In source (filter (fun r => str_eqb (id r) (c :: i))
                                    (sources w)))
      by (rewrite Hrow; now left).
    apply filter_In in Hin as [_ Hin]. now apply str_eqb_eq. }
  unfold settled, serve. rewrite Hm, Hj, Hi, Hkey, Hrow.
  cbn [reply background at_reply].
  set (w1 := snd (updateSource (c :: i) (markProcessing (clock w)) w)).
  assert (Hl1 : ledger w1 = ledgerMark (c :: i) processing None (ledger w)).
  { subst w1. apply ledger_updateSource. intros r. simpl. auto. }
  assert (Hx : extractPhase source (preExtractedText body) w1
               = (Throw (tooLargeMessage (file_size source)), w1))
    by (now apply extractPhase_oversized with raw).
  destruct (job_after_failure source (preExtractedText body) w1 Hx)
    as (Hl & Hc & Hf).
  repeat split.
  - exact Hl1.
  - now rewrite Hl, Hid, Hl1, ledgerMark_twice.
  - exact Hf.
  - exact Hc.
Qed.

Lemma oversized_pdf_witness :
  reply (serve (post None) (world (document "pdf" 3145728 None) rateLimited))
  = mkReply 200 (Started (lit "Document processing started") (lit "doc1"))
  /\ ledger (settled (serve (post None)
                            (world (document "pdf" 3145728 None) rateLimited)))
     = [(lit "doc1", error, Some (tooLargeMessage 3145728))]
  /\ fetches (settled (serve (post None)
                             (world (document "pdf" 3145728 None) rateLimited)))
     = 0%nat.
Proof.
  destruct (@oversized_pdf_is_rejected_in_background
              (post None) (mkRequestBody (Some (lit "doc1")) None)
              100 (lit "oc1") (lit "file text")
              (document "pdf" 3145728 None)
              (world (document "pdf" 3145728 None) rateLimited)
              eq_refl eq_refl eq_refl eq_refl eq_refl eq_refl eq_refl
              eq_refl eq_refl)
    as (Hr & _ & _ & Hl & Hf & _).
  split; [exact Hr | split; [exact Hl | exact Hf]].
Defined.

(** *** The page count of pre-extracted text *)

(** The page count as the specification words it: the highest total among
    the markers of the text, the estimate from the length of the text when
    there is no marker. *)
Definition pageCountAsSpecified (pre : jsstring) : Z :=
  match map (fun m => parseInt (markerTotal (lit "=== PAGE ") m))
            (jsMatchAll (markerRegex (lit "=== PAGE ")) pre) with
  | [] => Z.max 1 (estimatePages pre)
  | total :: totals => fold_left Z.max totals total
  end.

(** Two pages whose markers disagree on the total. *)
Definition twoTotals : jsstring :=
  lit "=== PAGE 1 of 9 ===" ++ [10; 10] ++ lit "=== PAGE 2 of 3 ===".

(** Ten thousand letters and no marker. *)
Definition noMarker : jsstring := repeat 97 (100 * 100).

(** C8, counterexample.  With markers of totals 9 and 3 the job keeps 3,
    the total of the last one; with no marker and no stored page count it
    keeps 1, where the estimate from the length is 4.  No call to the
    gateway is made in either run. *)
Lemma preextracted_page_count_differs :
  (fst (extractPhase (document "pdf" 100000 None) (Some twoTotals)
          (world (document "pdf" 100000 None) rateLimited))
   = Ok (mkExtracted twoTotals 3)
   /\ pageCountAsSpecified twoTotals = 9)
  /\ (fst (extractPhase (document "pdf" 100000 None) (Some noMarker)
             (world (document "pdf" 100000 None) rateLimited))
      = Ok (mkExtracted noMarker 1)
      /\ pageCountAsSpecified noMarker = 4).
Proof. repeat split; vm_compute; reflexivity. Qed.

(** C8, as the code has it.  With pre-extracted text the extraction makes
    no call to the gateway and returns the text as it is.  Every match of
    [=== PAGE \d+ of (\d+) ===] in it is a marker; the page count is the
    total of the last of them in the text, and the stored [page_count] of
    the document (1 when there is none) when the text has no marker. *)
Theorem preextracted_text_page_count
    (source : Source) (c : Z) (pre : jsstring) (w : World) :
  let preExtractedText := c :: pre in
  let pageMatches := jsMatchAll (markerRegex (lit "=== PAGE ")) preExtractedText in
  (forall m, In m pageMatches ->
     exists n total,
       digits n /\ digits total /\ n <> [] /\ total <> []
       /\ m = pageMarker false n total
       /\ markerTotal (lit "=== PAGE ") m = total)
  /\ exists w',
       extractPhase source (Some preExtractedText) w
       = (Ok (mkExtracted preExtractedText
                match rev pageMatches with
                | lastMatch :: _ =>
                    parseInt (markerTotal (lit "=== PAGE ") lastMatch)
                | [] => storedPageCount source
                end), w')
       /\ fetches w' = fetches w.
Proof.
  intros preExtractedText pageMatches.
  assert (Hshape : forall m, In m pageMatches ->
     exists n total,
       digits n /\ digits total /\ n <> [] /\ total <> []
       /\ m = pageMarker false n total
       /\ markerTotal (lit "=== PAGE ") m = total).
  { intros m Hm. apply hits_scan in Hm as (p & s & Hpos & ->).
    destruct (markerRegex_shape _ _ _ Hpos)
      as (n & total & Hn & Ht & Hn0 & Ht0 & ->).
    exists n, total. repeat split; try assumption.
    now apply markerTotal_marker. }
  split; [exact Hshape|].
  exists (snd (updateSource (id source)
                 (setProgress 50 (lit "Text extracted, creating chunks...")) w)).
  split; [|reflexivity].
  subst preExtractedText. unfold extractPhase, bind.
  cbv beta iota delta [updateSource ret]. fold pageMatches.
  f_equal. f_equal. f_equal.
  destruct (rev pageMatches) as [|lastMatch rest] eqn:Er; [reflexivity|].
  assert (Hin : In lastMatch pageMatches).
  { apply in_rev. rewrite Er. now left. }
  destruct (Hshape _ Hin) as (n & total & Hn & Ht & Hn0 & Ht0 & -> & Hm).
  unfold pageMarker.
  rewrite ofTotal_marker; auto.
  now rewrite markerTotal_marker.
Qed.

End TriggerClaims.

(* ------------------------------------------------------------------ *)
(** ** Exhausted retries *)
(* ------------------------------------------------------------------ *)

Module TransportClaims.
Import Platform Ingestion TransportFacts Scenarios.
Local Open Scope Z_scope.

Lemma lastErrorAfter_responses net n : forall first lastError,
  (forall k, (k < n)%nat -> exists r e, net (first + k)%nat = (Responds r, e)) ->
  lastErrorAfter net n first lastError = lastError.
Proof.
  induction n as [|n IH]; intros first lastError H; simpl; [reflexivity|].
  destruct (H 0%nat ltac:(lia)) as (r & e & H0).
  rewrite Nat.add_0_r in H0. rewrite H0. simpl. apply IH.
  intros k Hk. destruct (H (S k) ltac:(lia)) as (r' & e' & Hk').
  exists r', e'. now rewrite Nat.add_succ_l, <- Nat.add_succ_r.
Qed.

(** C4, where the code departs from it.  When the gateway answers 429 to
    each of the three attempts, the transport has waited 1000, 2000 and
    4000 ms and throws an error that says "Max retries exceeded": the
    status is gone, and [handleAiError], which has the message for a rate
    limit, is not reached. *)
Theorem rate_limit_exhaustion_loses_the_error (w : World) :
  (forall k, (k < 3)%nat ->
     exists body elapsed,
       network w (fetches w + k)%nat
       = (Responds (mkResponse 429 body), elapsed)) ->
  fst (aiCompletion w) = Throw (lit "Max retries exceeded")
  /\ sleeps (snd (aiCompletion w)) = sleeps w ++ [1000; 2000; 4000]
  /\ fetches (snd (aiCompletion w)) = (fetches w + 3)%nat.
Proof.
  intros H.
  destruct (@retryLoop_exhausted 3 0 None w) as (w' & Hrun & Hs & Hf & _).
  { intros k Hk. destruct (H k Hk) as (b & e & ->). reflexivity. }
  rewrite lastErrorAfter_responses in Hrun.
  2:{ intros k Hk. destruct (H k Hk) as (b & e & Hk'). eauto. }
  unfold aiCompletion, bind, fetchWithRetry. rewrite Hrun. simpl.
  repeat split; assumption.
Qed.

Lemma rate_limit_exhaustion_witness :
  fst (aiCompletion (world (document "pdf" 100000 None) rateLimited))
  = Throw (lit "Max retries exceeded")
  /\ (forall body,
        fst (handleAiError (A := unit) (mkResponse 429 body)
               (world (document "pdf" 100000 None) rateLimited))
        = Throw (lit "AI rate limit exceeded. Please try again in a few minutes.")).
Proof.
  split.
  - apply (@rate_limit_exhaustion_loses_the_error
             (world (document "pdf" 100000 None) rateLimited)).
    intros k Hk. exists (Completion []), 1000. reflexivity.
  - intros body. reflexivity.
Defined.

End TransportClaims.

(* ------------------------------------------------------------------ *)
(** ** The sweeper and the heartbeat *)
(* ------------------------------------------------------------------ *)

Module SweeperClaims.
Import Platform Ingestion Sweeper Frame Scenarios.
Local Open Scope Z_scope.

(** The select looks at [updated_at] only for a row without
    [processing_started_at]: the heartbeat of a row that has it changes
    nothing in what the sweeper decides. *)
Lemma isStuck_ignores_heartbeat thresholdTime t started r :
  processing_started_at r = Some started ->
  isStuck thresholdTime (update_updated_at t r) = isStuck thresholdTime r.
Proof.
  intros H. unfold isStuck. simpl. now rewrite H.
Qed.

(** The document [doc1] (sixteen estimated pages, four batches) eleven
    minutes after the trigger, when the job has just written the heartbeat
    of its third batch. *)
Definition duringThirdBatch : World :=
  snd (heartbeat (lit "doc1") 2 4 16
         (later 660000
            (at_reply (serve (post None)
                             (world (document "pdf" 800000 None)
                                    secondBatchFails))))).

(** C1, where the code departs from it.  The document is [processing] and
    its heartbeat is one second old when the sweeper passes; the sweeper
    marks it [error], reporting 11 minutes. *)
Theorem sweeper_ignores_fresh_heartbeat :
  map (fun r => (status r, processing_started_at r, updated_at r))
      (sources duringThirdBatch)
  = [(processing, Some 5000, 665000)]
  /\ clock (later 1000 duringThirdBatch) = 666000
  /\ ledger (snd (cleanupStuckDocuments (later 1000 duringThirdBatch)))
     = [(lit "doc1", error,
         Some (lit "Processing timed out after 11 minutes. Click Reprocess to try again."))].
Proof. repeat split. Qed.

End SweeperClaims.

(* ------------------------------------------------------------------ *)
(** ** What the chunker guarantees *)
(* ------------------------------------------------------------------ *)

Module ChunkerClaims.
Import Chunker ScanFacts Markers ChunkerFacts ChunkContents.









(** A one-page document of a few words, as [extractPdfText] writes it. *)
Definition onePage : jsstring :=
  lit "=== PAGE 1 of 1 ===" ++ [10%Z] ++ lit "Hello world.".

(** C3, counterexample.  The text has a marker; its only chunk has 32 code
    units, the closing filter drops it, and no chunk is left to hold the
    marker. *)
Lemma short_text_loses_its_marker :
  contains (pageMarker false (lit "1") (lit "1")) onePage
  /\ ~ exists chunk,
         In chunk (splitIntoSmartChunks onePage)
         /\ contains (pageMarker false (lit "1") (lit "1")) chunk.
Proof.
  split.
  - exists [], ([10%Z] ++ lit "Hello world."). reflexivity.
  - intros (chunk & Hin & _).
    assert (H : splitIntoSmartChunks onePage = []) by (vm_compute; reflexivity).
    rewrite H in Hin. contradiction.
Qed.

(** C3, as the code has it.  A marker of either wire format that occurs in
    the text occurs whole, code unit for code unit, inside a single chunk
    of the sequence the chunker builds; that chunk is in the output
    unless it is no longer than the minimum of 50 code units, which the
    closing filter drops. *)
Theorem page_marker_stays_whole_in_a_chunk
    (ai : bool) (n total text : jsstring) :
  digits n -> digits total ->
  contains (pageMarker ai n total) text ->
  exists chunk,
    In chunk (collectChunks (splitIntoSentences text))
    /\ contains (pageMarker ai n total) chunk
    /\ (MIN_CHUNK_LENGTH < length chunk ->
        In chunk (splitIntoSmartChunks text)).
Proof.
  intros Hn Ht Hc.
  destruct (@splitIntoSentences_marker ai n total text Hn Ht Hc)
    as (s & Hs & Hcs).
  destruct (@collectChunks_contains (pageMarker ai n total)
              (splitIntoSentences text) s
              (pageMarker_solid ai n total) Hs Hcs) as (chunk & Hin & Hcc).
  exists chunk. split; [exact Hin|]. split; [exact Hcc|].
  intros Hlen. unfold splitIntoSmartChunks. apply filter_In.
  split; [exact Hin | apply Nat.ltb_lt; exact Hlen].
Qed.

(** Two pages in the AI wire format with a sentence each. *)
Definition twoPages : jsstring :=
  lit "=== PDF PAGE 1 of 2 ===" ++ [10%Z]
  ++ lit "The first page has a sentence. It has another one."
  ++ [10%Z; 10%Z] ++ lit "=== PDF PAGE 2 of 2 ===" ++ [10%Z]
  ++ lit "The second page ends here.".

Lemma page_marker_witness :
  exists chunk,
    In chunk (collectChunks (splitIntoSentences twoPages))
    /\ contains (pageMarker true (lit "2") (lit "2")) chunk
    /\ (MIN_CHUNK_LENGTH < length chunk ->
        In chunk (splitIntoSmartChunks twoPages)).
Proof.
  apply (@page_marker_stays_whole_in_a_chunk true (lit "2") (lit "2") twoPages).
  - repeat constructor.
  - repeat constructor.
  - exists (lit "=== PDF PAGE 1 of 2 ===" ++ [10%Z]
            ++ lit "The first page has a sentence. It has another one."
            ++ [10%Z; 10%Z]),
      ([10%Z] ++ lit "The second page ends here.").
    reflexivity.
Defined.

End ChunkerClaims.

(* ------------------------------------------------------------------ *)
(** ** The retrieval scorer *)
(* ------------------------------------------------------------------ *)

Module ChatFacts.
Import Platform Chat.

(** The number of keywords that occur in the text. *)
Definition countIncluded (keywords : list jsstring) (contentLower : jsstring)
  : nat :=
  length (filter (fun kw => includes kw contentLower) keywords).

(** The chunks read from the store, in the order they are read. *)
Definition retrieved (w : World) (sourceIds : list jsstring)
  : list (Chunk * jsstring) :=
  flat_map (chunksOf w) (firstn 5 (candidateIds w sourceIds)).

Definition resultOf (keywords : list jsstring) (cn : Chunk * jsstring)
  : ChunkResult :=
  mkChunkResult (content (fst cn)) (chunk_index (fst cn)) (source_id (fst cn))
                (snd cn)
                (countIncluded keywords (toLowerCase (content (fst cn)))).

Definition matches (keywords : list jsstring) (cn : Chunk * jsstring) : bool :=
  0 <? countIncluded keywords (toLowerCase (content (fst cn))).

Definition totalChars (results : list ChunkResult) : nat :=
  list_sum (map (fun r => length (r_content r)) results).


(** *** Keywords *)







(** *** Scores *)

Lemma scoreOf_count keywords contentLower :
  scoreOf keywords contentLower = countIncluded keywords contentLower.
Proof.
  unfold scoreOf, countIncluded.
  assert (H : forall acc,
    fold_left (fun acc kw => acc + (if includes kw contentLower then 1 else 0))
              keywords acc
    = acc + length (filter (fun kw => includes kw contentLower) keywords)).
  { induction keywords as [|kw kws IH]; intros acc; simpl; [lia|].
    rewrite IH. destruct (includes kw contentLower); simpl; lia. }
  apply H.
Qed.

Lemma scoreChunks_filter keywords chunks :
  scoreChunks keywords chunks
  = map (resultOf keywords) (filter (matches keywords) chunks).
Proof.
  unfold scoreChunks, matches.
  induction chunks as [|cn chunks IH]; simpl; [reflexivity|].
  rewrite IH, scoreOf_count.
  destruct (0 <? countIncluded _ _); reflexivity.
Qed.

Lemma filter_flat_map {A B} (f : A -> list B) (g : B -> bool) l :
  filter g (flat_map f l) = flat_map (fun a => filter g (f a)) l.
Proof.
  induction l as [|a l IH]; simpl; [reflexivity|].
  now rewrite filter_app, IH.
Qed.

Lemma map_flat_map {A B C} (f : A -> list B) (g : B -> C) l :
  map g (flat_map f l) = flat_map (fun a => map g (f a)) l.
Proof.
  induction l as [|a l IH]; simpl; [reflexivity|].
  now rewrite map_app, IH.
Qed.

Lemma scored_filter w query sourceIds :
  scored w query sourceIds
  = map (resultOf (keywordsOf query))
        (filter (matches (keywordsOf query)) (retrieved w sourceIds)).
Proof.
  unfold scored, retrieved. rewrite filter_flat_map, map_flat_map.
  apply flat_map_ext. intros i. apply scoreChunks_filter.
Qed.

(** *** The stable sort *)


Lemma insertByScore_perm a l : Permutation (a :: l) (insertByScore a l).
Proof.
  induction l as [|b l IH]; simpl; [reflexivity|].
  destruct (r_score b <=? r_score a); [reflexivity|].
  rewrite perm_swap. now constructor.
Qed.

Lemma sortByScore_perm l : Permutation l (sortByScore l).
Proof.
  induction l as [|a l IH]; simpl; [constructor|].
  rewrite <- insertByScore_perm. now constructor.
Qed.





(** *** The bounded prefix *)

Lemma limit_prefix l : forall t n,
  n < MAX_CHUNKS ->
  exists rest,
    l = limit l t n ++ rest
    /\ match rest with
       | [] => True
       | next :: _ =>
           n + length (limit l t n) = MAX_CHUNKS
           \/ MAX_CONTEXT_CHARS
              < t + totalChars (limit l t n) + length (r_content next)
       end.
Proof.
  induction l as [|c l IH]; intros t n Hn.
  - exists []. split; [reflexivity | exact I].
  - cbn [limit].
    destruct (MAX_CONTEXT_CHARS <? t + length (r_content c)) eqn:Ec.
    + exists (c :: l). split; [reflexivity|]. right.
      apply Nat.ltb_lt in Ec. unfold totalChars. simpl. lia.
    + destruct (MAX_CHUNKS <=? S n) eqn:En.
      * exists l. split; [reflexivity|].
        destruct l as [|next l']; [exact I|].
        apply Nat.leb_le in En. left. simpl. lia.
      * apply Nat.leb_gt in En.
        destruct (IH (t + length (r_content c)) (S n) En)
          as (rest & Hl & Hr).
        exists rest. split; [simpl; now f_equal|].
        destruct rest as [|next rest']; [exact I|].
        unfold totalChars in *. simpl.
        destruct Hr as [Hr|Hr]; [left|right]; lia.
Qed.


Lemma flat_map_nil {A B} (l : list A) : flat_map (fun _ : A => @nil B) l = [].
Proof. induction l; simpl; auto. Qed.

(** The two early returns change nothing: without candidates or without
    keywords nothing is scored. *)
Lemma searchRelevantChunks_eq w query sourceIds :
  searchRelevantChunks w query sourceIds
  = limit (sortByScore (scored w query sourceIds)) 0 0.
Proof.
  unfold searchRelevantChunks, scored.
  destruct (candidateIds w sourceIds) as [|i ids]; [reflexivity|].
  destruct (keywordsOf query) as [|kw kws] eqn:Ek; [|reflexivity].
  assert (H : forall chunks, scoreChunks [] chunks = []).
  { intros chunks. unfold scoreChunks. simpl. apply flat_map_nil. }
  rewrite (flat_map_ext _ (fun _ => [])); [|intros a; apply H].
  now rewrite flat_map_nil.
Qed.

End ChatFacts.

Module ChatClaims.
Import Platform Chat ChatFacts.


Lemma in_firstn {A} (x : A) n : forall l, In x (firstn n l) -> In x l.
Proof.
  induction n as [|n IH]; intros [|a l] H; simpl in *; try contradiction.
  destruct H as [->|H]; [now left | right; now apply IH].
Qed.

Lemma chunksOf_source w i cn : In cn (chunksOf w i) -> source_id (fst cn) = i.
Proof.
  unfold chunksOf. intros H. apply in_firstn in H.
  apply in_flat_map in H as (c & _ & H).
  destruct (str_eqb (source_id c) i) eqn:E; [|contradiction].
  destruct (find _ _) as [r|]; [|contradiction].
  destruct H as [<-|[]]. simpl.
  unfold str_eqb in E. now destruct (list_eq_dec Z.eq_dec (source_id c) i).
Qed.

Lemma scored_source w query sourceIds r :
  In r (scored w query sourceIds) ->
  In (r_source_id r) (firstn 5 (candidateIds w sourceIds)).
Proof.
  rewrite scored_filter. intros H.
  apply in_map_iff in H as (cn & <- & H). apply filter_In in H as [H _].
  unfold retrieved in H. apply in_flat_map in H as (i & Hi & H).
  apply chunksOf_source in H. simpl. now rewrite H.
Qed.

(** C10.  A document that is not among the first five candidate ids (the
    ids passed in or, when none is passed, the ids of the ready documents
    gathered from the store): none of its chunks is scored, and none is in
    the answer. *)
Theorem only_first_five_documents_are_searched
    (w : World) (query : jsstring) (sourceIds : list jsstring)
    (documentId : jsstring) :
  ~ In documentId (firstn 5 (candidateIds w sourceIds)) ->
  (forall r, In r (scored w query sourceIds) -> r_source_id r <> documentId)
  /\ (forall r, In r (searchRelevantChunks w query sourceIds) ->
                r_source_id r <> documentId).
Proof.
  intros Hd.
  assert (Hs : forall r, In r (scored w query sourceIds) ->
                         r_source_id r <> documentId).
  { intros r Hr E. apply Hd. rewrite <- E. now apply scored_source in Hr. }
  split; [exact Hs|].
  intros r Hr. apply Hs.
  rewrite searchRelevantChunks_eq in Hr.
  destruct (limit_prefix (sortByScore (scored w query sourceIds)) 0 (n := 0))
    as (rest & Hl & _); [unfold MAX_CHUNKS; lia|].
  apply (Permutation_in _ (Permutation_sym (sortByScore_perm _))).
  rewrite Hl. apply in_or_app. now left.
Qed.

(** Six ready documents; the first and the sixth have a chunk each, and the
    chunk of the sixth matches the query better. *)
Definition readyDocument (i : string) : Source :=
  mkSource (lit i) (lit i) (lit i) (lit "txt") 100 (lit "u1") ready None None
           None None (Some 1%Z) None 0.

Definition sixDocuments : World :=
  mkWorld (map readyDocument ["d1"; "d2"; "d3"; "d4"; "d5"; "d6"]%string)
          [mkChunk (lit "d1") 0 (lit "Our refund rules are short.");
           mkChunk (lit "d6") 0 (lit "The refund policy: refunds within 30 days.")]
          (fun _ => DownloadError None)
          (fun _ => (NetworkError [], 0%Z)) 0 0 [] None.

Lemma only_first_five_witness :
  searchRelevantChunks sixDocuments (lit "refund policy") []
  = [mkChunkResult (lit "Our refund rules are short.") 0 (lit "d1") (lit "d1") 1]
  /\ (forall r, In r (searchRelevantChunks sixDocuments (lit "refund policy") [])
                -> r_source_id r <> lit "d6").
Proof.
  split; [vm_compute; reflexivity|].
  apply (@only_first_five_documents_are_searched
           sixDocuments (lit "refund policy") [] (lit "d6")).
  vm_compute. intros H.
  repeat (destruct H as [H|H]; [discriminate H|]). exact H.
Defined.

End ChatClaims.

(* ------------------------------------------------------------------ *)
(** ** What one call through the transport costs *)
(* ------------------------------------------------------------------ *)

Module TransportBudget.
Import Platform Ingestion TransportFacts Scenarios.
Local Open Scope Z_scope.

(** The waits of the first [k] attempts of a loop that starts at
    [attempt]. *)
Definition backoff (attempt : Z) (k : nat) : list Z :=
  map (fun j => 2 ^ (attempt + Z.of_nat j) * 1000) (seq 0 k).

Lemma backoff_S attempt k :
  backoff attempt (S k) = 2 ^ attempt * 1000 :: backoff (attempt + 1) k.
Proof.
  unfold backoff. simpl. f_equal; [now rewrite Z.add_0_r|].
  rewrite <- seq_shift, map_map. apply map_ext. intros j.
  f_equal. f_equal. lia.
Qed.

(** Whatever the gateway does, the loop fails [k] times, waits after each
    failure, and either returns the answer of attempt [k] or has used up its
    [n] attempts. *)
Lemma retryLoop_budget n : forall attempt lastError w,
  exists k,
    (k <= n)%nat
    /\ sleeps (snd (retryLoop n attempt lastError w))
       = sleeps w ++ backoff attempt k
    /\ match fst (retryLoop n attempt lastError w) with
       | Ok _ => (k < n)%nat
                 /\ fetches (snd (retryLoop n attempt lastError w))
                    = (fetches w + S k)%nat
       | Throw _ => k = n
                    /\ fetches (snd (retryLoop n attempt lastError w))
                       = (fetches w + n)%nat
       end.
Proof.
  induction n as [|n IH]; intros attempt lastError w.
  - exists 0%nat. simpl. rewrite app_nil_r, Nat.add_0_r. auto.
  - simpl retryLoop. unfold bind. rewrite attemptOnce_run.
    destruct (network w (fetches w)) as [[m|r] e] eqn:En.
    + destruct (IH (attempt + 1) (Some m)
                   (slept (2 ^ attempt * 1000) (fetched e w)))
        as (k & Hk & Hs & Hr).
      exists (S k). split; [lia|]. split.
      * rewrite Hs, backoff_S. simpl. now rewrite <- app_assoc.
      * destruct (fst (retryLoop n (attempt + 1) (Some m) _));
          destruct Hr as [Hr ->]; simpl; split; lia.
    + destruct (clientError r).
      * exists 0%nat. simpl. rewrite app_nil_r. repeat split; lia.
      * destruct (retryable r).
        -- destruct (IH (attempt + 1) lastError
                        (slept (2 ^ attempt * 1000) (fetched e w)))
             as (k & Hk & Hs & Hr).
           exists (S k). split; [lia|]. split.
           ++ rewrite Hs, backoff_S. simpl. now rewrite <- app_assoc.
           ++ destruct (fst (retryLoop n (attempt + 1) lastError _));
                destruct Hr as [Hr ->]; simpl; split; lia.
        -- exists 0%nat. simpl. rewrite app_nil_r. repeat split; lia.
Qed.

(** X1.  [fetchWithRetry] with a positive number of attempts (the
    extractors pass 3), whatever the gateway does: it calls [fetch] at
    least once and at most as many times as it has attempts, the waits it
    adds are 1000, 2000, 4000, ... ms, one after each failed attempt and
    none after the attempt whose answer it returns, and an answer it
    returns is neither a 429 nor a 5xx. *)
Theorem transport_attempts_and_waits (n : nat) (w : World) :
  let maxRetries := S n in
  let run := fetchWithRetry maxRetries w in
  exists failed : nat,
    (failed <= maxRetries)%nat
    /\ sleeps (snd run)
       = sleeps w ++ map (fun j => 2 ^ Z.of_nat j * 1000) (seq 0 failed)
    /\ (fetches w < fetches (snd run) <= fetches w + maxRetries)%nat
    /\ match fst run with
       | Ok response =>
           fetches (snd run) = (fetches w + failed + 1)%nat
           /\ (500 <=? resp_status response) = false
           /\ (resp_status response =? 429) = false
       | Throw _ => failed = maxRetries
                    /\ fetches (snd run) = (fetches w + failed)%nat
       end.
Proof.
  intros maxRetries run. subst run maxRetries. unfold fetchWithRetry.
  destruct (retryLoop_budget (S n) 0 None w) as (k & Hk & Hs & Hr).
  exists k. split; [exact Hk|]. split; [exact Hs|].
  destruct (retryLoop (S n) 0 None w) as [[r|m] w'] eqn:E;
    cbn [fst snd] in *.
  - destruct Hr as [Hlt Hf]. split; [lia|]. split; [lia|].
    apply retryLoop_returns in E. unfold retryable in E.
    now apply orb_false_iff in E.
  - destruct Hr as [-> Hf]. split; lia.
Qed.

(** The message [handleAiError] throws for a status. *)
Definition aiErrorMessage (status : Z) : jsstring :=
  if status =? 429 then
    lit "AI rate limit exceeded. Please try again in a few minutes."
  else if status =? 402 then
    lit "AI credits exhausted. Please add funds to continue."
  else lit "AI extraction failed (" ++ showZ status ++ lit ")".

Lemma handleAiError_throws A r w :
  @handleAiError A r w = (Throw (aiErrorMessage (resp_status r)), w).
Proof.
  unfold handleAiError, aiErrorMessage.
  destruct (resp_status r =? 429); [reflexivity|].
  destruct (resp_status r =? 402); reflexivity.
Qed.

(** X2.  A 4xx answer other than 429 ends the AI call at the first attempt: one
    call of [fetch], no wait, and the exception carries the message for the
    status, "AI credits exhausted. Please add funds to continue." for a
    402. *)
Theorem client_error_ends_the_call (w : World) (r : Response) (elapsed : Z) :
  network w (fetches w) = (Responds r, elapsed) ->
  400 <= resp_status r < 500 ->
  resp_status r <> 429 ->
  aiCompletion w
  = (Throw (if resp_status r =? 402
            then lit "AI credits exhausted. Please add funds to continue."
            else lit "AI extraction failed (" ++ showZ (resp_status r)
                     ++ lit ")"),
     fetched elapsed w).
Proof.
  intros Hn Hr H429. unfold aiCompletion, bind.
  rewrite (@client_error_returned_at_once 2 w r elapsed Hn).
  2:{ unfold clientError.
      destruct (Z.leb_spec 400 (resp_status r)); [|lia].
      destruct (Z.ltb_spec (resp_status r) 500); [|lia].
      destruct (Z.eqb_spec (resp_status r) 429); [lia | reflexivity]. }
  unfold ok.
  replace ((200 <=? resp_status r) && (resp_status r <=? 299)) with false.
  2:{ symmetry. apply andb_false_iff. right. apply Z.leb_gt. lia. }
  rewrite handleAiError_throws. unfold aiErrorMessage.
  destruct (Z.eqb_spec (resp_status r) 429); [lia | reflexivity].
Qed.

Lemma client_error_ends_the_call_witness :
  aiCompletion (world (document "docx" 100000 None) creditsExhausted)
  = (Throw (lit "AI credits exhausted. Please add funds to continue."),
     fetched 1000 (world (document "docx" 100000 None) creditsExhausted)).
Proof.
  apply (@client_error_ends_the_call
           (world (document "docx" 100000 None) creditsExhausted)
           (mkResponse 402 (Completion [])) 1000 eq_refl).
  - simpl. lia.
  - simpl. lia.
Defined.

End TransportBudget.

(* ------------------------------------------------------------------ *)
(** ** The batches of a large PDF and the calls a job may make *)
(* ------------------------------------------------------------------ *)

Module BatchPlan.
Import Platform Ingestion Chunker Frame JobFacts TransportBudget.
Local Open Scope Z_scope.

Lemma ceilDiv_bounds a b : 0 < b -> b * (ceilDiv a b - 1) < a <= b * ceilDiv a b.
Proof.
  intros Hb. unfold ceilDiv.
  pose proof (Z.div_mod (- a) b ltac:(lia)) as Hd.
  pose proof (Z.mod_pos_bound (- a) b Hb) as Hm.
  nia.
Qed.

(** X3.  The page ranges of the batches of [extractPdfInBatches] cut the pages
    [1 .. estimatedPages] into consecutive ranges: the first starts at page
    1, each has between one and [PAGES_PER_BATCH] pages, each starts on the
    page after the end of the one before, and the last ends at
    [estimatedPages]. *)
Theorem batch_ranges_partition_the_pages (estimatedPages : Z) :
  1 <= estimatedPages ->
  let totalBatches := ceilDiv estimatedPages PAGES_PER_BATCH in
  1 <= totalBatches
  /\ startPageOf 0 = 1
  /\ endPageOf (totalBatches - 1) estimatedPages = estimatedPages
  /\ (forall batch, 0 <= batch < totalBatches ->
        startPageOf batch <= endPageOf batch estimatedPages
        /\ endPageOf batch estimatedPages - startPageOf batch < PAGES_PER_BATCH)
  /\ (forall batch, 0 <= batch < totalBatches - 1 ->
        startPageOf (batch + 1) = endPageOf batch estimatedPages + 1).
Proof.
  intros He totalBatches.
  pose proof (@ceilDiv_bounds estimatedPages PAGES_PER_BATCH eq_refl) as Hc.
  fold totalBatches in Hc. unfold startPageOf, endPageOf, PAGES_PER_BATCH in *.
  repeat split; intros; lia.
Qed.

Lemma batch_ranges_witness :
  ceilDiv 16 PAGES_PER_BATCH = 4
  /\ map (fun batch => (startPageOf batch, endPageOf batch 16)) [0; 1; 2; 3]
     = [(1, 5); (6, 10); (11, 15); (16, 16)]
  /\ endPageOf (ceilDiv 16 PAGES_PER_BATCH - 1) 16 = 16.
Proof.
  split; [reflexivity|]. split; [reflexivity|].
  apply (@batch_ranges_partition_the_pages 16). lia.
Defined.

(** A computation that calls [fetch] at most [n] times. *)
Definition spends {A} (n : nat) (c : M A) : Prop :=
  forall w, (fetches w <= fetches (snd (c w)) <= fetches w + n)%nat.

Lemma spends_more A (c : M A) n m : (n <= m)%nat -> spends n c -> spends m c.
Proof. intros Hnm Hc w. specialize (Hc w). lia. Qed.

Lemma spends_ret A (a : A) : spends 0 (ret a).
Proof. intros w. simpl. lia. Qed.

Lemma spends_throw A e : spends 0 (@throw A e).
Proof. intros w. simpl. lia. Qed.

Lemma spends_bind A B (c : M A) (k : A -> M B) n m :
  spends n c -> (forall a, spends m (k a)) -> spends (n + m) (bind c k).
Proof.
  intros Hc Hk w. unfold bind. specialize (Hc w).
  destruct (c w) as [[a|e] w1]; simpl in *; [|lia].
  specialize (Hk a w1). lia.
Qed.

Lemma spends_tryCatch A (c : M A) (h : jsstring -> M A) n m :
  spends n c -> (forall e, spends m (h e)) -> spends (n + m) (tryCatch c h).
Proof.
  intros Hc Hh w. unfold tryCatch. specialize (Hc w).
  destruct (c w) as [[a|e] w1]; simpl in *; [lia|].
  specialize (Hh e w1). lia.
Qed.

Lemma spends_if A (b : bool) (c d : M A) n :
  spends n c -> spends n d -> spends n (if b then c else d).
Proof. now destruct b. Qed.

Lemma spends_updateSource i f : spends 0 (updateSource i f).
Proof. intros w. simpl. lia. Qed.

Lemma spends_retryLoop n attempt lastError :
  spends n (retryLoop n attempt lastError).
Proof.
  intros w.
  destruct (retryLoop_budget n attempt lastError w) as (k & Hk & _ & Hr).
  destruct (fst (retryLoop n attempt lastError w)); lia.
Qed.

Lemma spends_aiCompletion : spends 3 aiCompletion.
Proof.
  unfold aiCompletion.
  apply (@spends_bind _ _ _ _ 3 0); [apply spends_retryLoop|].
  intros r. apply (@spends_bind _ _ _ _ 0 0).
  - apply spends_if; [apply spends_ret|].
    intros w. rewrite handleAiError_throws. simpl. lia.
  - intros _. unfold completionOf.
    destruct (resp_body r); [apply spends_throw | apply spends_ret].
Qed.

Lemma spends_batchTurn i t e b st : spends 3 (batchTurn i t e b st).
Proof.
  unfold batchTurn.
  apply (@spends_bind _ _ _ _ 0 3).
  { unfold heartbeat. apply (@spends_bind _ _ _ _ 0 0).
    - intros w. simpl. lia.
    - intros ?. apply spends_updateSource. }
  intros _. apply (@spends_bind _ _ _ _ 3 0).
  - apply (@spends_tryCatch _ _ _ 3 0).
    + apply (@spends_bind _ _ _ _ 3 0); [apply spends_aiCompletion|].
      intros ?. apply spends_ret.
    + intros ?. apply spends_ret.
  - intros ?. apply (@spends_bind _ _ _ _ 0 0).
    + apply spends_if; [|apply spends_ret]. intros w. simpl. lia.
    + intros ?. apply spends_ret.
Qed.

Lemma spends_batchLoop i t e n : forall b st,
  spends (3 * n) (batchLoop i t e n b st).
Proof.
  induction n as [|n IH]; intros b st; simpl batchLoop.
  - apply spends_ret.
  - apply spends_more with (3 + 3 * n)%nat; [lia|].
    apply spends_bind; [apply spends_batchTurn | intros ?; apply IH].
Qed.

Lemma spends_extractPdfContent size i :
  size <= MAX_SERVER_PDF_BYTES -> spends 27 (extractPdfContent size i).
Proof.
  intros Hsize. unfold extractPdfContent.
  apply spends_if.
  - apply spends_more with 3%nat; [lia|]. unfold extractPdfSingleCall.
    apply (@spends_bind _ _ _ _ 3 0); [apply spends_aiCompletion|].
    intros ?. apply spends_ret.
  - unfold extractPdfInBatches.
    apply spends_more
      with (3 * Z.to_nat (ceilDiv (ceilDiv size 50000) PAGES_PER_BATCH) + 0)%nat.
    + pose proof (@ceilDiv_bounds size 50000 eq_refl) as H1.
      pose proof (@ceilDiv_bounds (ceilDiv size 50000) PAGES_PER_BATCH eq_refl)
        as H2.
      unfold MAX_SERVER_PDF_BYTES, PAGES_PER_BATCH in *. lia.
    + apply spends_bind; [apply spends_batchLoop | intros ?; apply spends_ret].
Qed.

Lemma spends_extractPhase source pre :
  spends 27 (extractPhase source pre)
  /\ (file_type source <> lit "pdf" -> spends 3 (extractPhase source pre)).
Proof.
  assert (Hno : forall n,
    (3 <= n)%nat ->
    (file_type source = lit "pdf" -> (27 <= n)%nat) ->
    spends n (extractPhase source None)).
  { intros n H3 H27. unfold extractPhase.
    apply (@spends_bind _ _ _ _ 0 n); [intros w; simpl; lia|].
    intros [m|fileText]; [apply spends_more with 0%nat; [lia|apply spends_throw]|].
    apply spends_if;
      [apply spends_more with 0%nat; [lia | apply spends_ret]|].
    destruct (str_eqb (file_type source) (lit "pdf")) eqn:Ep.
    - apply str_eqb_eq in Ep. specialize (H27 Ep).
      destruct (Z.ltb_spec MAX_SERVER_PDF_BYTES (file_size source)).
      + apply spends_more with 0%nat; [lia | apply spends_throw].
      + apply spends_more with 27%nat; [lia|].
        now apply spends_extractPdfContent.
    - apply spends_if;
        [|apply spends_more with 0%nat; [lia | apply spends_ret]].
      apply spends_more with 3%nat; [lia|]. unfold extractDocxContent.
      apply (@spends_bind _ _ _ _ 3 0); [apply spends_aiCompletion|].
      intros ?. apply spends_ret. }
  assert (Hpre : forall c p,
            spends 0 (extractPhase source (Some (c :: p)))).
  { intros c p. unfold extractPhase.
    apply (@spends_bind _ _ _ _ 0 0); [apply spends_updateSource|].
    intros ?. apply spends_ret. }
  split.
  - destruct pre as [[|c p]|].
    + apply (Hno 27%nat); lia.
    + apply spends_more with 0%nat; [lia | apply Hpre].
    + apply (Hno 27%nat); lia.
  - intros Hpdf. destruct pre as [[|c p]|].
    + apply (Hno 3%nat); [lia | contradiction].
    + apply spends_more with 0%nat; [lia | apply Hpre].
    + apply (Hno 3%nat); [lia | contradiction].
Qed.

Lemma fetches_persistPhase source extracted w :
  fetches (snd (persistPhase source extracted w)) = fetches w.
Proof.
  destruct (persistPhase_run source extracted w) as (w' & Hrun & _).
  unfold persistPhase, bind, deleteChunks in *.
  rewrite insertLoop_all in * by (rewrite chunkRows_length; lia).
  reflexivity.
Qed.

Lemma spends_job source pre n :
  spends n (extractPhase source pre) ->
  spends n (processDocumentInBackground source pre).
Proof.
  intros Hx w. specialize (Hx w).
  unfold processDocumentInBackground, tryCatch, bind.
  destruct (extractPhase source pre w) as [[ex|e] w1]; simpl in *.
  - pose proof (fetches_persistPhase source ex w1) as Hp.
    destruct (persistPhase source ex w1) as [[[]|e] w2]; simpl in *; lia.
  - lia.
Qed.

(** X4.  The gateway calls of one job, whatever the document and whatever the
    gateway answers: at most 27 (nine batches of three attempts, the most a
    PDF under the 2 MB ceiling can have), and at most 3 for a document that
    is not a PDF. *)
Theorem job_call_budget (source : Source) (pre : option jsstring) (w : World) :
  let after := snd (processDocumentInBackground source pre w) in
  (fetches w <= fetches after <= fetches w + 27)%nat
  /\ (file_type source <> lit "pdf" -> (fetches after <= fetches w + 3)%nat).
Proof.
  intros after. subst after.
  destruct (spends_extractPhase source pre) as [H27 H3]. split.
  - exact (@spends_job source pre 27 H27 w).
  - intros Hpdf. apply (@spends_job source pre 3 (H3 Hpdf) w).
Qed.

End BatchPlan.

(* ------------------------------------------------------------------ *)
(** ** How a request and its job end *)
(* ------------------------------------------------------------------ *)

Module JobOutcomes.
Import Platform Ingestion Chunker Frame JobFacts Scenarios BatchPlan.
Local Open Scope Z_scope.

(** The preview and the chunks the job derives from the extracted text
    (lines 205 and 208). *)
Definition contentPreviewOf (source : Source) (textContent : jsstring) : jsstring :=
  match trim (substring0 500 textContent) with
  | [] => lit "[" ++ toUpperCase (file_type source) ++ lit " document]"
  | preview => preview
  end.

Definition chunksOfText (textContent : jsstring) : list jsstring :=
  match textContent with
  | [] => []
  | _ :: _ => splitIntoSmartChunks textContent
  end.

(** What a successful job has written in the row of its document. *)
Definition readyRow (source : Source) (extracted : Extracted) (r : Source) : Prop :=
  status r = ready
  /\ error_message r = None
  /\ page_count r = Some (pageCount extracted)
  /\ content_preview r = Some (contentPreviewOf source (text extracted)).

Lemma updateSource_rows i f w (P : Source -> Prop) :
  (forall r t, P (update_updated_at t (f r))) ->
  (forall r, id (f r) = id r) ->
  Forall (fun r => id r = i -> P r) (sources (snd (updateSource i f w))).
Proof.
  intros HP Hid. simpl. apply Forall_map. apply Forall_forall.
  intros r _. destruct (str_eqb (id r) i) eqn:E.
  - intros _. apply HP.
  - intros Hi. simpl in Hi. apply str_eqb_eq in Hi. congruence.
Qed.

Lemma chunkRows_columns i chunks :
  map source_id (chunkRows i chunks) = repeat i (length chunks)
  /\ map chunk_index (chunkRows i chunks) = seq 0 (length chunks)
  /\ map content (chunkRows i chunks) = chunks.
Proof.
  unfold chunkRows. rewrite !map_map. cbn [source_id chunk_index content].
  generalize 0%nat. induction chunks as [|c cs IH]; intros n; simpl.
  - auto.
  - destruct (IH (S n)) as (H1 & H2 & H3). now rewrite H1, H2, H3.
Qed.

Lemma filter_own_rows i chunks :
  filter (fun c => str_eqb (source_id c) i) (chunkRows i chunks)
  = chunkRows i chunks
  /\ filter (fun c => negb (str_eqb (source_id c) i)) (chunkRows i chunks) = [].
Proof.
  unfold chunkRows. generalize 0%nat.
  induction chunks as [|c cs IH]; intros n; simpl; [auto|].
  assert (E : str_eqb i i = true) by now apply str_eqb_eq.
  rewrite E. simpl. destruct (IH (S n)) as [H1 H2]. now rewrite H1, H2.
Qed.

Lemma filter_filter_neg A (f : A -> bool) l :
  filter f (filter (fun x => negb (f x)) l) = []
  /\ filter (fun x => negb (f x)) (filter (fun x => negb (f x)) l)
     = filter (fun x => negb (f x)) l.
Proof.
  induction l as [|x l [IH1 IH2]]; simpl; [auto|].
  destruct (f x) eqn:E; simpl; [auto|]. rewrite E. simpl. now rewrite IH2.
Qed.

(** What a job whose extraction succeeds leaves. *)
Lemma job_success
    (source : Source) (pre : option jsstring) (w w1 : World)
    (extracted : Extracted) :
  extractPhase source pre w = (Ok extracted, w1) ->
  let after := snd (processDocumentInBackground source pre w) in
  let chunks := chunksOfText (text extracted) in
  filter (fun c => str_eqb (source_id c) (id source)) (source_chunks after)
  = chunkRows (id source) chunks
  /\ map chunk_index (chunkRows (id source) chunks) = seq 0 (length chunks)
  /\ map content (chunkRows (id source) chunks) = chunks
  /\ filter (fun c => negb (str_eqb (source_id c) (id source)))
            (source_chunks after)
     = filter (fun c => negb (str_eqb (source_id c) (id source)))
              (source_chunks w)
  /\ Forall (fun r => id r = id source -> readyRow source extracted r)
            (sources after)
  /\ ledger after = ledgerMark (id source) ready None (ledger w).
Proof.
  intros Hx after chunks.
  pose proof (job_after_extraction source pre w Hx) as Hl.
  destruct (discreet_extractPhase source pre w) as (Hc & _).
  rewrite Hx in Hc. simpl in Hc.
  assert (Hafter : after = snd (persistPhase source extracted w1)).
  { subst after. unfold processDocumentInBackground, tryCatch, bind.
    rewrite Hx.
    destruct (persistPhase_run source extracted w1) as (w' & -> & _).
    reflexivity. }
  destruct (persistPhase_run source extracted w1) as (w' & Hrun & _ & Hch).
  rewrite Hrun in Hafter. simpl in Hafter. subst w'.
  fold (chunksOfText (text extracted)) in Hch. fold chunks in Hch.
  rewrite Hc in Hch.
  destruct (chunkRows_columns (id source) chunks) as (_ & Hidx & Hcont).
  destruct (filter_own_rows (id source) chunks) as [Hown Hother].
  destruct (filter_filter_neg
              (fun c => str_eqb (source_id c) (id source)) (source_chunks w))
    as [F1 F2].
  repeat split.
  - rewrite Hch, filter_app, F1, Hown. reflexivity.
  - exact Hidx.
  - exact Hcont.
  - rewrite Hch, filter_app, F2, Hother. now rewrite app_nil_r.
  - assert (Hrows : Forall (fun r => id r = id source -> readyRow source extracted r)
                      (sources (snd (persistPhase source extracted w1)))).
    { unfold persistPhase, bind. unfold deleteChunks at 1.
      rewrite insertLoop_all by (rewrite chunkRows_length; lia).
      apply updateSource_rows; [|reflexivity].
      intros r t. unfold readyRow. simpl. auto. }
    rewrite Hrun in Hrows. exact Hrows.
  - exact Hl.
Qed.






(** X7.  A request that starts no job has changed nothing: the state the
    handler leaves is the state it found, and its answer is not the
    answer of a started job. *)
Theorem request_without_job_changes_nothing (req : Request) (w : World) :
  background (serve req w) = None ->
  at_reply (serve req w) = w
  /\ settled (serve req w) = w
  /\ (reply (serve req w) = mkReply 200 NoBody
      \/ exists message,
           reply_body (reply (serve req w)) = ErrorReply message
           /\ 400 <= reply_status (reply (serve req w))).
Proof.
  unfold settled, serve.
  destruct (str_eqb (method req) (lit "OPTIONS")); [simpl; auto|].
  destruct (json req) as [message|body]; [simpl; intros _; repeat split|].
  { right. exists message. split; [reflexivity | lia]. }
  destruct (sourceId body) as [[|c i]|].
  - simpl. intros _. repeat split. right. eexists. split; [reflexivity | lia].
  - destruct (falsy (LOVABLE_API_KEY w)).
    + simpl. intros _. repeat split. right. eexists.
      split; [reflexivity | lia].
    + destruct (filter _ (sources w)) as [|s [|s' rest]].
      * simpl. intros _. repeat split. right. eexists.
        split; [reflexivity | lia].
      * simpl. discriminate.
      * simpl. intros _. repeat split. right. eexists.
        split; [reflexivity | lia].
  - simpl. intros _. repeat split. right. eexists. split; [reflexivity | lia].
Qed.

Lemma request_without_job_witness :
  at_reply (serve (mkRequest (lit "POST") (inr (mkRequestBody None None)))
                  (world (document "pdf" 100000 None) rateLimited))
  = world (document "pdf" 100000 None) rateLimited.
Proof.
  apply (@request_without_job_changes_nothing
           (mkRequest (lit "POST") (inr (mkRequestBody None None)))
           (world (document "pdf" 100000 None) rateLimited) eq_refl).
Defined.



(** *** Documents that never reach the gateway *)

Lemma ceil_or_one n : 0 <= n -> (if n =? 0 then 1 else n) = Z.max 1 n.
Proof. intros H. destruct (Z.eqb_spec n 0); lia. Qed.

Lemma estimatePages_nonneg t : 0 <= estimatePages t.
Proof.
  unfold estimatePages, len.
  pose proof (@ceilDiv_bounds (Z.of_nat (length t)) ESTIMATED_CHARS_PER_PAGE
                eq_refl).
  unfold ESTIMATED_CHARS_PER_PAGE in *. lia.
Qed.

(** X9.  A text file without text from the browser is read from the bucket and
    taken as it is: no call to the gateway, the page count is the length
    over 3000 code units rounded up, 1 at least, and the document is
    [ready] with the chunks of the file's text. *)
Theorem text_file_is_ingested_as_it_is
    (source : Source) (pre : option jsstring) (fileText : jsstring) (w : World) :
  falsy pre = true ->
  file_type source = lit "txt" ->
  storage w (file_path source) = Downloaded fileText ->
  let after := snd (processDocumentInBackground source pre w) in
  extractPhase source pre w
  = (Ok (mkExtracted fileText
           (Z.max 1 (ceilDiv (len fileText) ESTIMATED_CHARS_PER_PAGE))), w)
  /\ fetches after = fetches w
  /\ ledger after = ledgerMark (id source) ready None (ledger w)
  /\ filter (fun c => str_eqb (source_id c) (id source)) (source_chunks after)
     = chunkRows (id source) (chunksOfText fileText).
Proof.
  intros Hpre Ht Hs after.
  assert (Hx : extractPhase source pre w
               = (Ok (mkExtracted fileText
                        (Z.max 1 (ceilDiv (len fileText) ESTIMATED_CHARS_PER_PAGE))),
                  w)).
  { assert (Hnone : extractPhase source None w
                    = (Ok (mkExtracted fileText
                             (Z.max 1 (ceilDiv (len fileText)
                                               ESTIMATED_CHARS_PER_PAGE))), w)).
    { unfold extractPhase, bind, download. rewrite Hs, Ht.
      change (str_eqb (lit "txt") (lit "txt")) with true. cbv iota.
      unfold ret. rewrite ceil_or_one by apply estimatePages_nonneg.
      reflexivity. }
    destruct pre as [[|c p]|]; [exact Hnone | discriminate | exact Hnone]. }
  split; [exact Hx|].
  destruct (@job_success source pre w w _ Hx) as (Hown & _ & _ & _ & _ & Hl).
  split; [|split; [exact Hl | exact Hown]].
  subst after. unfold processDocumentInBackground, tryCatch, bind. rewrite Hx.
  pose proof (fetches_persistPhase source
                (mkExtracted fileText
                   (Z.max 1 (ceilDiv (len fileText) ESTIMATED_CHARS_PER_PAGE)))
                w) as Hf.
  destruct (persistPhase source _ w) as [[[]|e] w2]; exact Hf.
Qed.

Lemma text_file_witness :
  extractPhase (document "txt" 9 None) None
               (world (document "txt" 9 None) rateLimited)
  = (Ok (mkExtracted (lit "file text") 1),
     world (document "txt" 9 None) rateLimited).
Proof.
  apply (@text_file_is_ingested_as_it_is
           (document "txt" 9 None) None (lit "file text")
           (world (document "txt" 9 None) rateLimited) eq_refl eq_refl eq_refl).
Defined.

(** X10.  Two ways a job without text from the browser ends before any call to
    the gateway.  When the download fails, the document ends in [error]
    with "Failed to download file: " and the message of the bucket, and its
    stored chunks stay.  When the file type is none of txt, pdf, docx and
    doc, no branch extracts anything: the text is empty, and the document
    ends [ready], its chunks deleted and none stored, with the preview
    "[TYPE document]". *)
Theorem job_without_extractor
    (source : Source) (pre : option jsstring) (w : World) :
  falsy pre = true ->
  let after := snd (processDocumentInBackground source pre w) in
  (forall message,
     storage w (file_path source) = DownloadError message ->
     ledger after
     = ledgerMark (id source) error
         (Some (lit "Failed to download file: "
                  ++ match message with
                     | Some m => m
                     | None => lit "undefined"
                     end))
         (ledger w)
     /\ source_chunks after = source_chunks w
     /\ fetches after = fetches w)
  /\ (forall fileText,
        storage w (file_path source) = Downloaded fileText ->
        existsb (str_eqb (file_type source))
                (map lit ["txt"; "pdf"; "docx"; "doc"]%string) = false ->
        ledger after = ledgerMark (id source) ready None (ledger w)
        /\ filter (fun c => str_eqb (source_id c) (id source))
                  (source_chunks after) = []
        /\ Forall (fun r => id r = id source ->
                            content_preview r
                            = Some (lit "[" ++ toUpperCase (file_type source)
                                        ++ lit " document]"))
                  (sources after)
        /\ fetches after = fetches w).
Proof.
  intros Hpre after. split.
  - intros message Hs.
    assert (Hx : extractPhase source pre w
                 = (Throw (lit "Failed to download file: "
                             ++ match message with
                                | Some m => m
                                | None => lit "undefined"
                                end), w)).
    { assert (Hnone : extractPhase source None w = (Throw _, w))
        by (unfold extractPhase, bind, download; rewrite Hs; reflexivity).
      destruct pre as [[|c p]|]; [exact Hnone | discriminate | exact Hnone]. }
    destruct (job_after_failure source pre w Hx) as (Hl & Hc & Hf).
    repeat split; assumption.
  - intros fileText Hs Htype.
    cbn [map existsb] in Htype.
    repeat (apply orb_false_iff in Htype as [? Htype]).
    assert (Hx : extractPhase source pre w
                 = (Ok (mkExtracted [] (storedPageCount source)), w)).
    { assert (Hnone : extractPhase source None w
                      = (Ok (mkExtracted [] (storedPageCount source)), w)).
      { unfold extractPhase, bind, download. rewrite Hs.
        repeat match goal with
               | H : str_eqb _ _ = false |- _ => rewrite H; clear H
               end.
        reflexivity. }
      destruct pre as [[|c p]|]; [exact Hnone | discriminate | exact Hnone]. }
    destruct (@job_success source pre w w _ Hx)
      as (Hown & _ & _ & _ & Hrows & Hl).
    split; [exact Hl|]. split; [exact Hown|]. split.
    + eapply Forall_impl; [|exact Hrows].
      intros r Hr Hid. destruct (Hr Hid) as (_ & _ & _ & Hp). exact Hp.
    + subst after. unfold processDocumentInBackground, tryCatch, bind.
      rewrite Hx.
      pose proof (fetches_persistPhase source
                    (mkExtracted [] (storedPageCount source)) w) as Hf.
      destruct (persistPhase source _ w) as [[[]|e] w2]; exact Hf.
Qed.

(** A spreadsheet that found its way into the table. *)
Lemma job_without_extractor_witness :
  ledger (snd (processDocumentInBackground (document "xlsx" 100 None) None
                 (world (document "xlsx" 100 None) rateLimited)))
  = [(lit "doc1", ready, None)]
  /\ source_chunks
       (snd (processDocumentInBackground (document "xlsx" 100 None) None
               (world (document "xlsx" 100 None) rateLimited)))
     = [].
Proof.
  destruct (@job_without_extractor
              (document "xlsx" 100 None) None
              (world (document "xlsx" 100 None) rateLimited) eq_refl)
    as [_ H].
  destruct (H (lit "file text") eq_refl eq_refl) as (Hl & _).
  split; [exact Hl | reflexivity].
Defined.

End JobOutcomes.

(* ------------------------------------------------------------------ *)
(** ** What a pass of the sweeper does *)
(* ------------------------------------------------------------------ *)

Module SweeperFacts.
Import Platform Ingestion Sweeper Frame JobFacts Scenarios.
Local Open Scope Z_scope.

(** The threshold of a pass that starts in [w], and the minutes it reports
    for a document (lines 22 and 52-53). *)
Definition thresholdTime (w : World) : Z :=
  clock w - STUCK_THRESHOLD_MINUTES * 60 * 1000.

Definition stuckMinutes (now : Z) (doc : Source) : Z :=
  roundDiv (now - match processing_started_at doc with
                  | Some started => started
                  | None => updated_at doc
                  end) 60000.

(** The row of a stuck document after the pass. *)
Definition swept (now : Z) (r : Source) : Source :=
  update_updated_at now (timedOut (stuckMinutes now r) r).

Lemma markStuck_run doc w :
  markStuck doc w
  = (Ok (id doc, stuckMinutes (clock w) doc),
     setSources w
       (map (fun r => if str_eqb (id r) (id doc)
                      then update_updated_at (clock w)
                             (timedOut (stuckMinutes (clock w) doc) r)
                      else r)
            (sources w))).
Proof. reflexivity. Qed.

(** The row a pass over [docs] leaves for [r]: the first document of
    [docs] with the id of [r] decides. *)
Definition markedBy (docs : list Source) (now : Z) (r : Source) : Source :=
  match find (fun d => str_eqb (id d) (id r)) docs with
  | Some d => update_updated_at now (timedOut (stuckMinutes now d) r)
  | None => r
  end.

Lemma str_eqb_refl a : str_eqb a a = true.
Proof. now apply str_eqb_eq. Qed.

Lemma str_eqb_sym a b : str_eqb a b = str_eqb b a.
Proof.
  destruct (str_eqb a b) eqn:E1, (str_eqb b a) eqn:E2; try reflexivity.
  - apply str_eqb_eq in E1. subst. now rewrite str_eqb_refl in E2.
  - apply str_eqb_eq in E2. subst. now rewrite str_eqb_refl in E1.
Qed.

Lemma find_none_by_id docs i :
  ~ In i (map id docs) -> find (fun d => str_eqb (id d) i) docs = None.
Proof.
  induction docs as [|d docs IH]; intros H; simpl; [reflexivity|].
  destruct (str_eqb (id d) i) eqn:E.
  - apply str_eqb_eq in E. exfalso. apply H. now left.
  - apply IH. intros Hin. apply H. now right.
Qed.

Lemma markAll_run docs : forall w,
  NoDup (map id docs) ->
  markAll docs w
  = (Ok (map (fun d => (id d, stuckMinutes (clock w) d)) docs),
     setSources w (map (markedBy docs (clock w)) (sources w))).
Proof.
  induction docs as [|d docs IH]; intros w Hnd.
  - simpl. unfold ret. f_equal. destruct w. unfold setSources. simpl.
    f_equal. unfold markedBy. simpl. now rewrite map_id.
  - inversion Hnd as [|? ? Hnotin Hnd']; subst.
    cbn [markAll]. unfold bind at 1. rewrite markStuck_run.
    unfold bind at 1. rewrite IH by assumption.
    unfold ret. cbn [map]. f_equal.
    unfold setSources. cbn [sources source_chunks storage network fetches
                            clock sleeps LOVABLE_API_KEY].
    f_equal. rewrite map_map. apply map_ext. intros r.
    unfold markedBy at 2. cbn [find]. rewrite (str_eqb_sym (id d) (id r)).
    destruct (str_eqb (id r) (id d)) eqn:E.
    + apply str_eqb_eq in E. unfold markedBy. cbn [id update_updated_at timedOut].
      rewrite E. now rewrite find_none_by_id.
    + reflexivity.
Qed.

Lemma NoDup_map_filter A B (f : A -> B) (p : A -> bool) l :
  NoDup (map f l) -> NoDup (map f (filter p l)).
Proof.
  induction l as [|a l IH]; intros H; simpl; [constructor|].
  inversion H as [|? ? Hnotin Hnd]; subst.
  destruct (p a); [|now apply IH].
  simpl. constructor; [|now apply IH].
  intros Hin. apply Hnotin. apply in_map_iff in Hin as (x & Hx & Hin).
  apply filter_In in Hin as [Hin _]. apply in_map_iff. now exists x.
Qed.

Lemma same_id_same_row (l : list Source) a b :
  NoDup (map id l) -> In a l -> In b l -> id a = id b -> a = b.
Proof.
  induction l as [|x l IH]; intros Hnd Ha Hb Hid; [contradiction|].
  inversion Hnd as [|? ? Hnotin Hnd']; subst.
  destruct Ha as [->|Ha], Hb as [->|Hb].
  - reflexivity.
  - exfalso. apply Hnotin. rewrite Hid. now apply in_map.
  - exfalso. apply Hnotin. rewrite <- Hid. now apply in_map.
  - now apply IH.
Qed.

Lemma markedBy_stuck (p : Source -> bool) l now r :
  NoDup (map id l) -> In r l ->
  markedBy (filter p l) now r = if p r then swept now r else r.
Proof.
  intros Hnd Hin. unfold markedBy, swept.
  destruct (find _ (filter p l)) as [d|] eqn:Ef.
  - apply find_some in Ef as [Hd Hid]. apply str_eqb_eq in Hid.
    apply filter_In in Hd as [Hd Hp].
    assert (d = r) by now apply (same_id_same_row l).
    subst d. now rewrite Hp.
  - destruct (p r) eqn:Hp; [|reflexivity].
    exfalso.
    assert (Hf : str_eqb (id r) (id r) = false)
      by (apply (find_none _ _ Ef r); now apply filter_In).
    now rewrite str_eqb_refl in Hf.
Qed.

Lemma stuck_for_ten_minutes w r :
  isStuck (thresholdTime w) r = true -> 10 <= stuckMinutes (clock w) r.
Proof.
  unfold isStuck, thresholdTime, stuckMinutes, roundDiv, STUCK_THRESHOLD_MINUTES.
  intros H.
  assert (Hlt : match processing_started_at r with
                | Some started => started
                | None => updated_at r
                end < clock w - 10 * 60 * 1000).
  { destruct (status r); try discriminate;
      destruct (processing_started_at r); now apply Z.ltb_lt. }
  apply Z.div_le_lower_bound; lia.
Qed.

(** X11.  One pass of the sweeper over a table whose ids are distinct.  The
    rows it selects are those in [pending] or [processing] whose
    [processing_started_at], or [updated_at] when that is null, is more
    than ten minutes old.  Each of them ends in [error] with the time-out
    message and its progress fields cleared, every other row is as it was
    and in its place, the pass reports the selected documents in table
    order, each with at least 10 minutes, and no chunk is touched. *)
Theorem sweep_marks_exactly_the_stuck (w : World) :
  NoDup (map id (sources w)) ->
  let now := clock w in
  let stuck := isStuck (thresholdTime w) in
  fst (cleanupStuckDocuments w)
  = Ok (map (fun r => (id r, stuckMinutes now r)) (filter stuck (sources w)))
  /\ sources (snd (cleanupStuckDocuments w))
     = map (fun r => if stuck r then swept now r else r) (sources w)
  /\ (forall r, stuck r = true ->
        status (swept now r) = error
        /\ error_message (swept now r)
           = Some (lit "Processing timed out after "
                     ++ showZ (stuckMinutes now r)
                     ++ lit " minutes. Click Reprocess to try again.")
        /\ processing_progress (swept now r) = None
        /\ processing_info (swept now r) = None
        /\ 10 <= stuckMinutes now r)
  /\ source_chunks (snd (cleanupStuckDocuments w)) = source_chunks w.
Proof.
  intros Hnd now stuck.
  assert (Hrun : cleanupStuckDocuments w
                 = markAll (filter stuck (sources w)) w) by reflexivity.
  rewrite Hrun, markAll_run by now apply NoDup_map_filter.
  cbn [fst snd]. split; [reflexivity|]. split.
  - unfold setSources. cbn [sources]. apply map_ext_in. intros r Hin.
    now apply markedBy_stuck.
  - split; [|reflexivity].
    intros r Hr. repeat split. now apply stuck_for_ten_minutes.
Qed.

(** A pending document never triggered and a document that is ready, both
    untouched for an hour. *)
Definition forgotten : World :=
  mkWorld [document "pdf" 100000 None;
           mkSource (lit "doc2") (lit "notes") (lit "u1/notes") (lit "txt") 10
                    (lit "u1") ready None (Some 0) None None (Some 1) None 0]
          [] (fun _ => Downloaded []) rateLimited 0 3600000 [] (Some (lit "key")).

Lemma sweep_witness :
  map (fun r => (id r, status r)) (sources (snd (cleanupStuckDocuments forgotten)))
  = [(lit "doc1", error); (lit "doc2", ready)]
  /\ fst (cleanupStuckDocuments forgotten) = Ok [(lit "doc1", 60)].
Proof.
  destruct (@sweep_marks_exactly_the_stuck forgotten) as (Hr & Hs & _).
  - repeat constructor; simpl; intuition discriminate.
  - split; [rewrite Hs; reflexivity | exact Hr].
Defined.

Lemma Forall2_map_left A B C (f : A -> B) (R : B -> C -> Prop) l : forall l',
  Forall2 R (map f l) l' -> Forall2 (fun a c => R (f a) c) l l'.
Proof.
  induction l as [|a l IH]; intros l' H; inversion H; subst; constructor.
  - assumption.
  - now apply IH.
Qed.

Lemma markAll_cons d docs w :
  snd (markAll (d :: docs) w) = snd (markAll docs (snd (markStuck d w))).
Proof.
  cbn [markAll]. unfold bind. rewrite markStuck_run. cbn [snd].
  now destruct (markAll docs _) as [[rs|e] w2].
Qed.

(** The status a row may have after documents were marked. *)
Lemma markAll_statuses docs : forall w,
  clock (snd (markAll docs w)) = clock w
  /\ Forall2 (fun r r' => status r' = error
                          \/ (r' = r /\ ~ In (id r) (map id docs)))
             (sources w) (sources (snd (markAll docs w))).
Proof.
  induction docs as [|d docs IH]; intros w.
  - simpl. split; [reflexivity|].
    induction (sources w); constructor; auto.
  - rewrite markAll_cons, markStuck_run. cbn [snd].
    set (w1 := setSources w _).
    destruct (IH w1) as [Hclock Hrows].
    split; [exact Hclock|].
    subst w1. cbn [sources setSources] in Hrows.
    apply Forall2_map_left in Hrows.
    eapply Forall2_impl; [|exact Hrows].
    intros r r' [He | [-> Hnot]]; [now left|].
    destruct (str_eqb (id r) (id d)) eqn:Ed.
    + left. reflexivity.
    + right. split; [reflexivity|]. simpl. intros [Hd | Hin].
      * rewrite Hd in Ed. now rewrite str_eqb_refl in Ed.
      * now apply Hnot.
Qed.

Lemma Forall2_right A B (R : A -> B -> Prop) (P : B -> Prop) l l' :
  Forall2 R l l' -> (forall a b, In a l -> R a b -> P b) -> Forall P l'.
Proof.
  induction 1 as [|a b l l' Hab _ IH]; intros H; constructor.
  - apply (H a); [now left | exact Hab].
  - apply IH. intros a' b' Hin. apply H. now right.
Qed.

Lemma filter_none A (p : A -> bool) l :
  Forall (fun a => p a = false) l -> filter p l = [].
Proof.
  induction 1 as [|a l Ha _ IH]; simpl; [reflexivity|]. now rewrite Ha.
Qed.

(** X12.  A second pass at the same time finds nothing to do: what the first
    pass selected is in [error], which the select leaves out, and it
    changed no other row.  Whether ids repeat or not. *)
Theorem second_sweep_finds_nothing (w : World) :
  let swept := snd (cleanupStuckDocuments w) in
  cleanupStuckDocuments swept = (Ok [], swept).
Proof.
  intros w'. subst w'.
  assert (Hrun : forall v, cleanupStuckDocuments v
                           = markAll (filter (isStuck (thresholdTime v))
                                             (sources v)) v) by reflexivity.
  rewrite (Hrun w).
  destruct (markAll_statuses (filter (isStuck (thresholdTime w)) (sources w)) w)
    as [Hclock Hrows].
  set (w' := snd (markAll _ w)) in *.
  rewrite (Hrun w').
  assert (Hnone : filter (isStuck (thresholdTime w')) (sources w') = []).
  { assert (HT : thresholdTime w' = thresholdTime w)
      by (unfold thresholdTime; now rewrite Hclock).
    rewrite HT.
    assert (Hall : Forall (fun r => isStuck (thresholdTime w) r = false)
                          (sources w')).
    { eapply Forall2_right; [exact Hrows|].
      intros r r' Hin [He | [-> Hnot]].
      - unfold isStuck. now rewrite He.
      - destruct (isStuck (thresholdTime w) r) eqn:Es; [|reflexivity].
        exfalso. apply Hnot. apply in_map. now apply filter_In. }
    now apply filter_none. }
  rewrite Hnone. reflexivity.
Qed.

End SweeperFacts.

(* ------------------------------------------------------------------ *)
(** ** The shape of the chunks *)
(* ------------------------------------------------------------------ *)

Module ChunkShape.
Import Chunker ScanFacts ChunkerFacts.

(** Text with no white space at either end. *)
Definition tight (s : jsstring) : Prop :=
  match s with c :: _ => isSpace c = false | [] => True end
  /\ match rev s with c :: _ => isSpace c = false | [] => True end.

(** [b] ends [a]. *)
Definition suffix (b a : jsstring) : Prop := exists x, a = x ++ b.

Lemma suffix_refl a : suffix a a.
Proof. now exists []. Qed.

Lemma suffix_trans c b a : suffix c b -> suffix b a -> suffix c a.
Proof. intros [x ->] [y ->]. exists (y ++ x). now rewrite app_assoc. Qed.

Lemma suffix_app b a x : suffix b a -> suffix b (x ++ a).
Proof. intros [y ->]. exists (x ++ y). now rewrite app_assoc. Qed.

Lemma suffix_skipn n a : suffix (skipn n a) a.
Proof. exists (firstn n a). now rewrite firstn_skipn. Qed.

Lemma suffix_dropWhile f a : suffix (dropWhile f a) a.
Proof.
  induction a as [|c a IH]; simpl; [apply suffix_refl|].
  destruct (f c); [|apply suffix_refl].
  now apply (suffix_app [c]).
Qed.

Lemma dropWhile_head f s :
  match dropWhile f s with c :: _ => f c = false | [] => True end.
Proof.
  induction s as [|c s IH]; simpl; [exact I|].
  destruct (f c) eqn:E; [exact IH | exact E].
Qed.

Lemma dropWhile_none f s :
  match s with c :: _ => f c = false | [] => True end -> dropWhile f s = s.
Proof. destruct s as [|c s]; simpl; [reflexivity|]. now intros ->. Qed.

Lemma rev_head_suffix (b a : jsstring) c r :
  suffix b a -> rev b = c :: r -> exists r', rev a = c :: r'.
Proof.
  intros [x ->] Hb. rewrite rev_app_distr, Hb. simpl. now eexists.
Qed.

(** [trim] leaves a string alone exactly when it has nothing to cut. *)
Lemma trim_tight s : tight (trim s).
Proof.
  unfold tight, trim. rewrite rev_involutive. split.
  - pose proof (dropWhile_head isSpace s) as H1.
    set (d1 := dropWhile isSpace s) in *.
    destruct (rev (dropWhile isSpace (rev d1))) as [|c r] eqn:E; [exact I|].
    assert (Hs : suffix (dropWhile isSpace (rev d1)) (rev d1))
      by apply suffix_dropWhile.
    assert (Hr : rev (dropWhile isSpace (rev d1)) = c :: r) by exact E.
    destruct (rev_head_suffix Hs Hr) as [r' Hr'].
    rewrite rev_involutive in Hr'. rewrite Hr' in H1. exact H1.
  - apply dropWhile_head.
Qed.

Lemma trim_of_tight s : tight s -> trim s = s.
Proof.
  intros [Hh Hl]. unfold trim.
  rewrite (dropWhile_none isSpace s Hh).
  rewrite (dropWhile_none isSpace (rev s) Hl). apply rev_involutive.
Qed.

Lemma tight_app a b :
  a <> [] -> b <> [] -> tight a -> tight b -> forall x, tight (a ++ x ++ b).
Proof.
  intros Ha Hb [Hah _] [_ Hbl] x. split.
  - destruct a; [contradiction | exact Hah].
  - rewrite !rev_app_distr.
    destruct (rev b) eqn:E; [|exact Hbl].
    exfalso. apply Hb. apply (f_equal (@rev Z)) in E.
    now rewrite rev_involutive in E.
Qed.

(** White space stripped from the front of text that ends in none. *)
Lemma trim_front s t :
  t <> [] -> tight t -> suffix t s ->
  trim s <> [] /\ suffix (trim s) s /\ suffix t (trim s).
Proof.
  intros Ht [Hth Htl] [x ->].
  destruct t as [|c t]; [contradiction|]. clear Ht.
  destruct (@ChunkContents.dropWhile_stop isSpace c t x Hth) as [x' Hd].
  assert (Hlast : exists l r, rev (c :: t) = l :: r /\ isSpace l = false).
  { destruct (rev (c :: t)) as [|l r] eqn:E.
    - apply (f_equal (@rev Z)) in E. rewrite rev_involutive in E. discriminate.
    - now exists l, r. }
  destruct Hlast as (l & r & Hrev & Hl).
  assert (Htrim : trim (x ++ c :: t) = x' ++ c :: t).
  { unfold trim. rewrite Hd, rev_app_distr, Hrev. simpl. rewrite Hl.
    change (l :: r ++ rev x') with ((l :: r) ++ rev x').
    rewrite <- Hrev, <- rev_app_distr. apply rev_involutive. }
  rewrite Htrim. repeat split.
  - now destruct x'.
  - rewrite <- Hd. apply suffix_dropWhile.
  - now exists x'.
Qed.

(** [b] continues [a]: it begins with text that ends [a], followed by a
    space. *)
Definition overlaps (a b : jsstring) : Prop :=
  exists o x y,
    o <> [] /\ length o <= overlapSize /\ a = x ++ o /\ b = o ++ [32%Z] ++ y.

Fixpoint chained (cs : list jsstring) : Prop :=
  match cs with
  | a :: (b :: _) as rest => overlaps a b /\ chained rest
  | _ => True
  end.

Lemma chained_snoc cs : forall a b,
  chained (cs ++ [a]) -> overlaps a b -> chained ((cs ++ [a]) ++ [b]).
Proof.
  induction cs as [|c cs IH]; intros a b Hc Hab; simpl.
  - split; [exact Hab | exact I].
  - destruct cs as [|d cs]; simpl in *.
    + destruct Hc as [Hca _]. repeat split; assumption.
    + destruct Hc as [Hcd Hrest]. split; [exact Hcd|].
      now apply (IH a b).
Qed.

(** What the loop maintains. *)
Record shaped (st : ChunkState) : Prop := mkShaped {
  shaped_current : tight (currentChunk st);
  shaped_buffer : tight (overlapBuffer st);
  shaped_length : length (overlapBuffer st) <= overlapSize;
  shaped_suffix : suffix (overlapBuffer st) (currentChunk st);
  shaped_started : currentChunk st <> [] -> overlapBuffer st <> [];
  shaped_chunks : Forall (fun c => tight c /\ c <> []) (chunks st);
  shaped_chain : chained (chunks st ++ [currentChunk st])
}.

Lemma shaped_init : shaped (mkChunkState [] [] []).
Proof.
  constructor; simpl; try (split; exact I); try (apply suffix_refl);
    try lia; try constructor; try contradiction; auto.
Qed.

Lemma overlaps_grow a b y : overlaps a b -> overlaps a (b ++ y).
Proof.
  intros (o & x & z & Ho & Hl & -> & ->).
  exists o, x, (z ++ y). repeat split; try assumption.
  now rewrite <- !app_assoc.
Qed.

Lemma chained_grow cs : forall a y,
  a <> [] -> chained (cs ++ [a]) -> chained (cs ++ [a ++ y]).
Proof.
  induction cs as [|c cs IH]; intros a y Ha Hc; simpl; [exact I|].
  destruct cs as [|d cs]; simpl in *.
  - destruct Hc as [Hca _]. split; [now apply overlaps_grow | exact I].
  - destruct Hc as [Hcd Hrest]. split; [exact Hcd | now apply IH].
Qed.

Lemma chained_nil_last cs : chained (cs ++ [[]]) -> cs = [].
Proof.
  induction cs as [|c cs IH]; intros H; [reflexivity|]. exfalso.
  destruct cs as [|d cs]; simpl in H.
  - destruct H as [(o & x & y & Ho & _ & _ & Hb) _].
    destruct o; [contradiction | discriminate].
  - destruct H as [_ H]. specialize (IH H). discriminate.
Qed.

Lemma overlap_update buf t cur :
  t <> [] -> tight t -> suffix (buf ++ [32%Z] ++ t) cur ->
  let buf' := if overlapSize <? length (buf ++ [32%Z] ++ t)
              then trim (sliceLast overlapSize (buf ++ [32%Z] ++ t))
              else trim (buf ++ [32%Z] ++ t) in
  tight buf' /\ buf' <> [] /\ suffix buf' cur.
Proof.
  intros Ht Htt Hs buf'. subst buf'.
  set (combined := buf ++ [32%Z] ++ t) in *.
  destruct (overlapSize <? length combined) eqn:E.
  - apply Nat.ltb_lt in E.
    assert (Hrev : exists l r, rev t = l :: r).
    { destruct (rev t) as [|l r] eqn:Er; [|now eexists; eexists].
      apply (f_equal (@rev Z)) in Er. rewrite rev_involutive in Er.
      contradiction. }
    destruct Hrev as (l & r & Hrev).
    assert (Hl : isSpace l = false).
    { destruct Htt as [_ Htl]. now rewrite Hrev in Htl. }
    (* the slice is not empty and ends where [t] ends *)
    unfold sliceLast.
    set (sl := skipn (length combined - overlapSize) combined).
    assert (Hsl : suffix sl combined) by apply suffix_skipn.
    assert (Hlen : length sl = overlapSize).
    { subst sl. rewrite length_skipn. lia. }
    assert (Hend : suffix [l] sl).
    { destruct (rev sl) as [|l' r'] eqn:Er.
      - apply (f_equal (@length Z)) in Er. rewrite length_rev, Hlen in Er.
        discriminate.
      - destruct Hsl as [x Hx].
        assert (Hrc : exists r2, rev combined = l :: r2).
        { subst combined. rewrite !rev_app_distr, Hrev. simpl. now eexists. }
        destruct Hrc as [r2 Hr2]. rewrite Hx, rev_app_distr, Er in Hr2.
        simpl in Hr2. injection Hr2 as -> _.
        exists (rev r'). apply (f_equal (@rev Z)) in Er.
        rewrite rev_involutive in Er. now rewrite Er. }
    destruct (@trim_front sl [l]) as (Hne & Hsuf & _).
    + discriminate.
    + split; simpl; exact Hl.
    + exact Hend.
    + split; [apply trim_tight|]. split; [exact Hne|].
      eapply suffix_trans; [exact Hsuf|].
      eapply suffix_trans; [exact Hsl | exact Hs].
  - destruct (@trim_front combined t Ht Htt) as (Hne & Hsuf & _).
    + exists (buf ++ [32%Z]). subst combined. now rewrite <- app_assoc.
    + split; [apply trim_tight|]. split; [exact Hne|].
      eapply suffix_trans; [exact Hsuf | exact Hs].
Qed.

Lemma chunkStep_shaped st s : shaped st -> shaped (chunkStep st s).
Proof.
  intros [Hcur Hbuf Hlen Hsuf Hst Hch Hchain]. unfold chunkStep.
  pose proof (trim_tight s) as Htt.
  destruct (trim s) as [|c t] eqn:Et; [constructor; assumption|].
  assert (Hne : c :: t <> []) by discriminate.
  remember (c :: t) as ts eqn:Ets. clear Ets Et.
  destruct ((targetChunkSize <? length (currentChunk st) + length ts)
            && (0 <? length (currentChunk st))) eqn:E.
  - (* the running chunk is closed *)
    apply andb_true_iff in E as [_ E]. apply Nat.ltb_lt in E.
    assert (Hcne : currentChunk st <> [])
      by (destruct (currentChunk st); [simpl in E; lia | discriminate]).
    specialize (Hst Hcne).
    destruct (@overlap_update (overlapBuffer st) ts
                (overlapBuffer st ++ [32%Z] ++ ts) Hne Htt (suffix_refl _))
      as (H1 & H2 & H3).
    constructor; cbn [chunks currentChunk overlapBuffer].
    + apply tight_app; assumption.
    + exact H1.
    + apply overlap_update_length.
    + exact H3.
    + intros _. exact H2.
    + apply Forall_app. split; [exact Hch|].
      constructor; [|constructor].
      rewrite trim_of_tight by exact Hcur. split; assumption.
    + rewrite trim_of_tight by exact Hcur.
      apply chained_snoc; [exact Hchain|].
      destruct Hsuf as [x Hx].
      exists (overlapBuffer st), x, ts. repeat split; assumption.
  - (* the sentence joins the running chunk *)
    destruct (currentChunk st) as [|d cur] eqn:Ecur.
    + assert (Hb : overlapBuffer st = []).
      { destruct Hsuf as [x Hx]. symmetry in Hx.
        apply app_eq_nil in Hx as [_ Hx]. exact Hx. }
      destruct (@overlap_update (overlapBuffer st) ts ([32%Z] ++ ts) Hne Htt)
        as (H1 & H2 & H3).
      { rewrite Hb. apply suffix_refl. }
      assert (H3' : suffix
                      (if overlapSize <? length (overlapBuffer st ++ [32%Z] ++ ts)
                       then trim (sliceLast overlapSize
                                    (overlapBuffer st ++ [32%Z] ++ ts))
                       else trim (overlapBuffer st ++ [32%Z] ++ ts)) ts).
      { remember (if overlapSize <? length (overlapBuffer st ++ [32%Z] ++ ts)
                  then trim (sliceLast overlapSize
                               (overlapBuffer st ++ [32%Z] ++ ts))
                  else trim (overlapBuffer st ++ [32%Z] ++ ts)) as buf' eqn:Eb.
        clear Eb. destruct H3 as [x Hx]. destruct x as [|z x].
        - exfalso. assert (Hb' : buf' = 32%Z :: ts) by (symmetry; exact Hx).
          subst buf'. destruct H1 as [H1 _]. discriminate H1.
        - injection Hx as _ Hx. exists x. exact Hx. }
      pose proof (chained_nil_last _ Hchain) as Hnil.
      constructor; cbn [chunks currentChunk overlapBuffer].
      * exact Htt.
      * exact H1.
      * apply overlap_update_length.
      * exact H3'.
      * intros _. exact H2.
      * exact Hch.
      * rewrite Hnil. exact I.
    + rewrite <- Ecur in *.
      assert (Hcne : currentChunk st <> []) by (rewrite Ecur; discriminate).
      destruct (@overlap_update (overlapBuffer st) ts
                  (currentChunk st ++ [32%Z] ++ ts) Hne Htt)
        as (H1 & H2 & H3).
      { destruct Hsuf as [x Hx]. exists x. rewrite Hx at 1.
        rewrite <- !app_assoc. reflexivity. }
      constructor; cbn [chunks currentChunk overlapBuffer].
      * apply tight_app; assumption.
      * exact H1.
      * apply overlap_update_length.
      * exact H3.
      * intros _. exact H2.
      * exact Hch.
      * apply chained_grow; assumption.
Qed.

Lemma fold_chunkStep_shaped sentences : forall st,
  shaped st -> shaped (fold_left chunkStep sentences st).
Proof.
  induction sentences as [|s ss IH]; intros st H; simpl; [exact H|].
  apply IH. now apply chunkStep_shaped.
Qed.

(** The array before the closing filter: its members have no white space
    at either end, none is empty, and each continues the one before. *)
Lemma collectChunks_shaped sentences :
  Forall (fun c => tight c /\ c <> []) (collectChunks sentences)
  /\ chained (collectChunks sentences).
Proof.
  unfold collectChunks.
  destruct (fold_chunkStep_shaped sentences shaped_init)
    as [Hcur _ _ _ _ Hch Hchain].
  set (st := fold_left chunkStep sentences _) in *.
  rewrite (trim_of_tight Hcur).
  destruct (currentChunk st) as [|c cur] eqn:E.
  - split; [exact Hch|]. apply chained_nil_last in Hchain.
    rewrite Hchain. exact I.
  - split; [|exact Hchain].
    apply Forall_app. split; [exact Hch|].
    constructor; [|constructor]. split; [exact Hcur | discriminate].
Qed.

Lemma chained_nth cs : forall i a b,
  chained cs -> nth_error cs i = Some a -> nth_error cs (S i) = Some b ->
  overlaps a b.
Proof.
  induction cs as [|c cs IH]; intros i a b Hc Ha Hb; [now destruct i|].
  destruct cs as [|d cs]; [now destruct i|].
  destruct Hc as [Hcd Hrest]. destruct i as [|i].
  - simpl in Ha, Hb. injection Ha as <-. injection Hb as <-. exact Hcd.
  - now apply (IH i).
Qed.

(** X13.  The overlap of the chunker.  In the array of chunks the loop builds
    (the closing filter then drops its members of 50 code units or less),
    each chunk after the first begins with text that ends the chunk before
    it: the overlap buffer, which is not empty and at most [overlapSize]
    (400) code units long, then a space, then the sentence that did not
    fit. *)
Theorem consecutive_chunks_overlap
    (sentences : list jsstring) (i : nat) (chunk next : jsstring) :
  nth_error (collectChunks sentences) i = Some chunk ->
  nth_error (collectChunks sentences) (S i) = Some next ->
  exists overlap before rest,
    overlap <> []
    /\ length overlap <= overlapSize
    /\ chunk = before ++ overlap
    /\ next = overlap ++ [32%Z] ++ rest.
Proof.
  intros Ha Hb.
  destruct (collectChunks_shaped sentences) as [_ Hchain].
  exact (chained_nth _ _ Hchain Ha Hb).
Qed.

(** X14.  What [splitIntoSmartChunks] returns, whatever the text: every chunk has
    more than 50 code units and no white space at its beginning or at its
    end. *)
Theorem chunks_are_trimmed_and_long (text : jsstring) :
  Forall (fun chunk =>
            MIN_CHUNK_LENGTH < length chunk
            /\ trim chunk = chunk
            /\ (exists first rest, chunk = first :: rest /\ isSpace first = false)
            /\ (exists rest last, chunk = rest ++ [last] /\ isSpace last = false))
         (splitIntoSmartChunks text).
Proof.
  unfold splitIntoSmartChunks. apply Forall_forall. intros c Hin.
  apply filter_In in Hin as [Hin Hlen]. apply Nat.ltb_lt in Hlen.
  destruct (collectChunks_shaped (splitIntoSentences text)) as [Hall _].
  rewrite Forall_forall in Hall. destruct (Hall c Hin) as [Ht Hne].
  split; [exact Hlen|]. split; [apply trim_of_tight; exact Ht|].
  clear Hlen. destruct Ht as [Hh Hl]. split.
  - destruct c as [|a c]; [contradiction|]. exists a, c.
    split; [reflexivity | exact Hh].
  - destruct (rev c) as [|l r] eqn:Er.
    + apply (f_equal (@rev Z)) in Er. rewrite rev_involutive in Er.
      contradiction.
    + exists (rev r), l. split; [|exact Hl].
      apply (f_equal (@rev Z)) in Er. rewrite rev_involutive in Er.
      exact Er.
Qed.

(** An occurrence of [m] stays where it is, in a chunk already pushed or in
    the running chunk. *)
Lemma chunkStep_keeps m st s :
  shaped st -> ChunkContents.held m st -> ChunkContents.held m (chunkStep st s).
Proof.
  intros Hst H. pose proof (shaped_current Hst) as Hcur. unfold chunkStep.
  destruct (trim s) as [|c t] eqn:Et; [exact H|].
  destruct ((targetChunkSize <? _) && (0 <? _)) eqn:E;
    unfold ChunkContents.held; cbn [chunks currentChunk].
  - left. destruct H as [(ch & Hin & Hc)|Hc].
    + exists ch. split; [apply in_or_app; left; exact Hin | exact Hc].
    + exists (trim (currentChunk st)).
      split; [apply in_or_app; right; left; reflexivity|].
      rewrite trim_of_tight by exact Hcur. exact Hc.
  - destruct H as [H|Hc]; [left; exact H | right].
    destruct (currentChunk st) as [|d cur] eqn:Ecur.
    + apply contains_nil_inv in Hc. subst m. exists [], (c :: t). reflexivity.
    + apply contains_app_r. exact Hc.
Qed.

Lemma chunkStep_takes st s :
  trim s <> [] -> ChunkContents.held (trim s) (chunkStep st s).
Proof.
  intros Hne. unfold chunkStep.
  destruct (trim s) as [|c t] eqn:Et; [contradiction|]. right.
  destruct ((targetChunkSize <? _) && (0 <? _)); cbn [currentChunk].
  - exists (overlapBuffer st ++ [32%Z]), []. rewrite app_nil_r.
    rewrite <- app_assoc. reflexivity.
  - destruct (currentChunk st) as [|d cur].
    + exists [], []. rewrite app_nil_r. reflexivity.
    + exists ((d :: cur) ++ [32%Z]), []. rewrite app_nil_r.
      rewrite <- app_assoc. reflexivity.
Qed.

Lemma fold_chunkStep_keeps m sentences : forall st,
  shaped st -> ChunkContents.held m st ->
  ChunkContents.held m (fold_left chunkStep sentences st).
Proof.
  induction sentences as [|s ss IH]; intros st Hst H; simpl; [exact H|].
  apply IH; [apply chunkStep_shaped; exact Hst | apply chunkStep_keeps; assumption].
Qed.

Lemma fold_chunkStep_takes sentences : forall st s,
  shaped st -> In s sentences -> trim s <> [] ->
  ChunkContents.held (trim s) (fold_left chunkStep sentences st).
Proof.
  induction sentences as [|s0 ss IH]; intros st s Hst Hin Hne; simpl.
  - contradiction.
  - destruct Hin as [->|Hin].
    + apply fold_chunkStep_keeps;
        [apply chunkStep_shaped; exact Hst | apply chunkStep_takes; exact Hne].
    + apply IH; [apply chunkStep_shaped; exact Hst | exact Hin | exact Hne].
Qed.

(** X15.  No sentence is cut by the chunker.  Every sentence that is not blank
    stands, trimmed and whole, inside one chunk of the array the loop
    builds; the closing filter then keeps that chunk unless it has 50 code
    units or less. *)
Theorem every_sentence_is_whole_in_a_chunk
    (sentences : list jsstring) (sentence : jsstring) :
  In sentence sentences ->
  trim sentence <> [] ->
  exists chunk before rest,
    In chunk (collectChunks sentences)
    /\ chunk = before ++ trim sentence ++ rest
    /\ (MIN_CHUNK_LENGTH < length chunk ->
        In chunk (filter (fun chunk => MIN_CHUNK_LENGTH <? length chunk)
                         (collectChunks sentences))).
Proof.
  intros Hin Hne.
  assert (Hfound : exists chunk, In chunk (collectChunks sentences)
                                 /\ contains (trim sentence) chunk).
  { unfold collectChunks.
    pose proof (fold_chunkStep_shaped sentences shaped_init) as Hst.
    pose proof (@fold_chunkStep_takes sentences (mkChunkState [] [] [])
                  sentence shaped_init Hin Hne) as [(c & Hc1 & Hc2)|Hcur].
    - exists c. split; [|exact Hc2].
      destruct (trim (currentChunk _));
        [exact Hc1 | apply in_or_app; left; exact Hc1].
    - rewrite (trim_of_tight (shaped_current Hst)).
      destruct (currentChunk _) as [|d t] eqn:Et.
      + apply contains_nil_inv in Hcur. contradiction.
      + exists (d :: t).
        split; [apply in_or_app; right; left; reflexivity | exact Hcur]. }
  destruct Hfound as (chunk & Hc & (before & rest & Heq)).
  exists chunk, before, rest. split; [exact Hc|]. split; [exact Heq|].
  intros Hlen. apply filter_In. split; [exact Hc|].
  apply Nat.ltb_lt. exact Hlen.
Qed.

Lemma every_sentence_witness :
  exists chunk before rest,
    In chunk (collectChunks [lit "  It rained. "; lit "We stayed in."])
    /\ chunk = before ++ lit "It rained." ++ rest.
Proof.
  destruct (@every_sentence_is_whole_in_a_chunk
              [lit "  It rained. "; lit "We stayed in."] (lit "  It rained. ")
              (or_introl eq_refl))
    as (chunk & before & rest & Hin & Heq & _).
  - vm_compute. discriminate.
  - exists chunk, before, rest. split; [exact Hin | exact Heq].
Defined.

(** A sentence of 1500 letters and one of 1000: two chunks, the second
    begins with the last 400 letters of the first. *)
Lemma consecutive_chunks_witness :
  exists overlap before rest,
    overlap <> []
    /\ length overlap <= overlapSize
    /\ repeat 97%Z 1500 = before ++ overlap
    /\ repeat 97%Z 400 ++ [32%Z] ++ repeat 98%Z 1000
       = overlap ++ [32%Z] ++ rest.
Proof.
  apply (@consecutive_chunks_overlap
           [repeat 97%Z 1500; repeat 98%Z 1000] 0
           (repeat 97%Z 1500)
           (repeat 97%Z 400 ++ [32%Z] ++ repeat 98%Z 1000)).
  - vm_compute. reflexivity.
  - vm_compute. reflexivity.
Defined.

End ChunkShape.

(* ------------------------------------------------------------------ *)
(** ** From the browser to the page count *)
(* ------------------------------------------------------------------ *)

Module ClientExtraction.
Import Platform Ingestion Chunker PdfParser Upload.
Import ScanFacts Markers PageCountFacts Frame JobFacts Scenarios.
Import BatchPlan JobOutcomes.
Local Open Scope Z_scope.

(** *** Numbers printed and read back *)






(** *** The last marker of a text *)








(** *** The text the browser sends *)






(** *** The whole way *)

Lemma serve_started (i : jsstring) (pre : option jsstring) (source : Source)
    (w : World) :
  i <> [] ->
  falsy (LOVABLE_API_KEY w) = false ->
  filter (fun r => str_eqb (id r) i) (sources w) = [source] ->
  serve (invokeProcessDocument i pre) w
  = mkServed (mkReply 200 (Started (lit "Document processing started") i))
             (snd (updateSource i (markProcessing (clock w)) w))
             (Some (processDocumentInBackground source pre)).
Proof.
  intros Hi Hkey Hrow. destruct i as [|c i]; [contradiction|].
  unfold serve, invokeProcessDocument. cbn [method json sourceId preExtractedText].
  change (str_eqb (lit "POST") (lit "OPTIONS")) with false. cbv iota.
  rewrite Hkey, Hrow. reflexivity.
Qed.




End ClientExtraction.

(* ------------------------------------------------------------------ *)
(** ** The text of a page and the name of a file *)
(* ------------------------------------------------------------------ *)

Module ClientText.
Import Platform PdfParser Upload ScanFacts ChunkShape.
Local Open Scope Z_scope.

(** *** White space in the text of a page *)

(** [s] with each run of white space replaced by one space; [inRun] says
    that the code unit before was white space. *)
Fixpoint collapse (inRun : bool) (s : jsstring) : jsstring :=
  match s with
  | [] => []
  | c :: s' =>
      if isSpace c then (if inRun then collapse true s' else 32 :: collapse true s')
      else c :: collapse false s'
  end.

Lemma replace_spaces_collapse s : forall prev,
  flat_map (emit [32]) (scan Chat.spaces prev 0 s) = collapse false s
  /\ flat_map (emit [32])
              (scan Chat.spaces prev (length (takeWhile isSpace s)) s)
     = collapse true s.
Proof.
  induction s as [|c s IH]; intros prev; [split; reflexivity|].
  destruct (IH (Some c)) as [IH0 IH1].
  assert (H0 : flat_map (emit [32]) (scan Chat.spaces prev 0 (c :: s))
               = collapse false (c :: s)).
  { rewrite scan_cons0.
    change (Chat.spaces prev (c :: s))
      with (length (takeWhile isSpace (c :: s))).
    cbn [takeWhile collapse]. destruct (isSpace c); cbn [length].
    - cbn [flat_map emit app]. now rewrite IH1.
    - cbn [flat_map emit app]. now rewrite IH0. }
  split; [exact H0|].
  cbn [takeWhile]. destruct (isSpace c) eqn:Ec; cbn [length].
  - cbn [scan collapse]. rewrite Ec. exact IH1.
  - rewrite H0. cbn [collapse]. now rewrite Ec.
Qed.

(** Every white space is a plain space that does not follow one;
    [afterSpace] says that the text comes after a space. *)
Fixpoint single (afterSpace : bool) (o : jsstring) : Prop :=
  match o with
  | [] => True
  | c :: o' =>
      if isSpace c then c = 32 /\ afterSpace = false /\ single true o'
      else single false o'
  end.

Lemma single_collapse s : forall b, single b (collapse b s).
Proof.
  induction s as [|c s IH]; intros b; simpl; [exact I|].
  destruct (isSpace c) eqn:Ec.
  - destruct b; [apply IH|]. simpl. repeat split. apply IH.
  - simpl. rewrite Ec. apply IH.
Qed.

Lemma single_weaken o : forall b, single b o -> single false o.
Proof.
  destruct o as [|c o]; intros b H; simpl in *; [exact I|].
  destruct (isSpace c); [|exact H].
  destruct H as (H1 & _ & H3). auto.
Qed.

Lemma single_prefix x : forall b y, single b (x ++ y) -> single b x.
Proof.
  induction x as [|c x IH]; intros b y H; simpl in *; [exact I|].
  destruct (isSpace c).
  - destruct H as (H1 & H2 & H3). repeat split; try assumption.
    now apply (IH true y).
  - now apply (IH false y).
Qed.

Lemma single_dropWhile s : forall b,
  single b s -> single false (dropWhile isSpace s).
Proof.
  induction s as [|c s IH]; intros b H; simpl; [exact I|].
  destruct (isSpace c) eqn:Ec.
  - simpl in H. rewrite Ec in H. destruct H as (_ & _ & H). now apply (IH true).
  - now apply (single_weaken _ b).
Qed.

Lemma trim_prefix s : exists y, dropWhile isSpace s = trim s ++ y.
Proof.
  unfold trim. set (d := dropWhile isSpace s).
  destruct (suffix_dropWhile isSpace (rev d)) as [x Hx].
  exists (rev x). apply (f_equal (@rev Z)) in Hx.
  rewrite rev_involutive, rev_app_distr in Hx. exact Hx.
Qed.

Lemma single_spaces o : forall b,
  single b o -> Forall (fun c => isSpace c = true -> c = 32) o.
Proof.
  induction o as [|c o IH]; intros b H; constructor.
  - simpl in H. destruct (isSpace c); [now destruct H | discriminate].
  - simpl in H. destruct (isSpace c); [destruct H as (_ & _ & H)|];
      now apply IH in H.
Qed.

Lemma single_apart o : forall b x c d y,
  single b o -> o = x ++ c :: d :: y -> isSpace c = true -> isSpace d = false.
Proof.
  induction o as [|a o IH]; intros b x c d y H Heq Hc.
  - now destruct x.
  - destruct x as [|a' x]; simpl in Heq; injection Heq as -> Heq.
    + subst o. simpl in H. rewrite Hc in H. destruct H as (_ & _ & H).
      simpl in H. destruct (isSpace d); [|reflexivity].
      now destruct H as (_ & H & _).
    + simpl in H. destruct (isSpace a');
        [destruct H as (_ & _ & H)|]; now apply (IH _ x c d y H).
Qed.

(** X18.  The text of a page, as the browser sends it, is one line: it has no
    white space at either end, its only white space is the plain space,
    and no space follows another.  No tab, newline or other line
    terminator of the page survives. *)
Theorem page_text_is_one_line (items : list jsstring) :
  let pageText := pageTextOf items in
  trim pageText = pageText
  /\ Forall (fun c => isSpace c = true -> c = 32) pageText
  /\ Forall (fun c => isLineTerminator c = false) pageText
  /\ (forall before c d rest,
        pageText = before ++ c :: d :: rest ->
        isSpace c = true -> isSpace d = false).
Proof.
  intros pageText.
  assert (Hs : single false pageText).
  { subst pageText. unfold pageTextOf, jsReplace.
    destruct (replace_spaces_collapse (join [32] items) None) as [-> _].
    destruct (trim_prefix (collapse false (join [32] items))) as [y Hy].
    apply single_prefix with y. rewrite <- Hy.
    apply single_dropWhile with false. apply single_collapse. }
  split; [apply trim_of_tight; apply trim_tight|].
  pose proof (single_spaces _ _ Hs) as Hsp.
  split; [exact Hsp|]. split.
  - eapply Forall_impl; [|exact Hsp]. intros c Hc. cbv beta in Hc.
    destruct (isLineTerminator c) eqn:El; [|reflexivity].
    assert (Hc' : isSpace c = true).
    { unfold isLineTerminator in El. unfold isSpace.
      repeat (apply orb_true_iff in El as [El|El]);
        apply Z.eqb_eq in El; subst c; reflexivity. }
    specialize (Hc Hc'). subst c. discriminate.
  - intros before c d rest Heq.
    exact (@single_apart pageText false before c d rest Hs Heq).
Qed.

(** *** The extension of a file named as a PDF *)

Lemma split_dot_scan s : forall prev,
  scan (literal [46]) prev 0 s
  = map (fun c => if c =? 46 then Hit [46] else Keep c) s.
Proof.
  induction s as [|c s IH]; intros prev; [reflexivity|].
  cbn [scan map]. unfold literal at 1. cbn [isPrefix length].
  rewrite Z.eqb_sym. destruct (c =? 46) eqn:E; cbn [andb].
  - apply Z.eqb_eq in E. subst c. cbn [firstn]. now rewrite IH.
  - now rewrite IH.
Qed.

Lemma pieces_dotfree y :
  Forall (fun c => c <> 46) y ->
  pieces (map (fun c => if c =? 46 then Hit [46] else Keep c) y) = (y, []).
Proof.
  induction 1 as [|c y Hc _ IH]; [reflexivity|].
  cbn [map]. destruct (Z.eqb_spec c 46); [contradiction|].
  cbn [pieces]. now rewrite IH.
Qed.

Lemma pieces_last_dot x : forall y,
  Forall (fun c => c <> 46) y ->
  exists p ps,
    pieces (map (fun c => if c =? 46 then Hit [46] else Keep c) (x ++ 46 :: y))
    = (p, ps)
    /\ ps <> [] /\ last ps [] = y.
Proof.
  induction x as [|c x IH]; intros y Hy.
  - cbn [app map]. change (46 =? 46) with true. cbn [pieces].
    rewrite (pieces_dotfree Hy). exists [], [y]. repeat split. discriminate.
  - destruct (IH y Hy) as (p & ps & Hp & Hne & Hl).
    cbn [app map]. destruct (c =? 46); cbn [pieces]; rewrite Hp.
    + exists [], (p :: ps). repeat split; [discriminate|].
      destruct ps; [contradiction | exact Hl].
    + exists (c :: p), ps. repeat split; assumption.
Qed.

Lemma split_last_piece x y :
  Forall (fun c => c <> 46) y ->
  last (jsSplit (literal [46]) (x ++ 46 :: y)) [] = y.
Proof.
  intros Hy. unfold jsSplit. rewrite split_dot_scan.
  destruct (pieces_last_dot x Hy) as (p & ps & -> & Hne & Hl).
  destruct ps; [contradiction | exact Hl].
Qed.

Lemma rev_flat_map A B (f : A -> list B) l :
  rev (flat_map f l) = flat_map (fun a => rev (f a)) (rev l).
Proof.
  induction l as [|a l IH]; [reflexivity|].
  simpl. rewrite rev_app_distr, IH, flat_map_app. simpl.
  now rewrite app_nil_r.
Qed.

(** The last code unit of a lower-cased text, when it is one of ".pdf":
    it is the lower case of the last code unit of the text, alone. *)
Lemma lower_last u c rest tail :
  u = 46 \/ u = 112 \/ u = 100 \/ u = 102 ->
  isPrefix (u :: tail) (rev (Chat.lowerUnit c) ++ rest) = true ->
  Chat.lowerUnit c = [u] /\ isPrefix tail rest = true.
Proof.
  intros Hu. unfold Chat.lowerUnit.
  destruct (isUpper c) eqn:Eu; [|destruct (c =? 8490) eqn:Ek;
                                 [|destruct (c =? 304) eqn:Ei]];
    cbn [rev app isPrefix]; intros H;
    apply andb_true_iff in H as [H1 H2]; apply Z.eqb_eq in H1.
  - subst u. now split.
  - exfalso. lia.
  - exfalso. lia.
  - subst u. now split.
Qed.

Lemma lowerUnit_dot c : Chat.lowerUnit c = [46] -> c = 46.
Proof.
  unfold Chat.lowerUnit, isUpper.
  destruct ((65 <=? c) && (c <=? 90)) eqn:Eu.
  - intros [= H]. apply andb_true_iff in Eu as [E1 _].
    apply Z.leb_le in E1. lia.
  - destruct (c =? 8490); [discriminate|].
    destruct (c =? 304); [discriminate|]. now intros [= H].
Qed.

Lemma lowerUnit_letter c u : Chat.lowerUnit c = [u] -> u <> 46 -> c <> 46.
Proof. intros H Hu ->. apply Hu. now injection H. Qed.

(** X19.  A file whose name ends with ".pdf", in whatever case, has the
    extension "pdf" for the upload: it passes the test of the file type, it
    is stored with [file_type] "pdf", and [isPdfFile] sends it through the
    extraction in the browser whatever its MIME type. *)
Theorem pdf_name_gives_pdf_type (name : jsstring) :
  endsWith (Chat.toLowerCase name) (lit ".pdf") = true ->
  fileExtOf name = lit "pdf"
  /\ existsb (str_eqb (fileExtOf name)) validTypes = true
  /\ (forall type, isPdfFile type name = true).
Proof.
  intros Hends.
  assert (Hext : fileExtOf name = lit "pdf").
  { unfold endsWith, Chat.toLowerCase in Hends. rewrite rev_flat_map in Hends.
    change (rev (lit ".pdf")) with [102; 100; 112; 46] in Hends.
    destruct (rev name) as [|c1 [|c2 [|c3 [|c4 r]]]] eqn:Er;
      cbn [flat_map] in Hends;
      try (apply lower_last in Hends as [H1 Hends]; [|auto]);
      try (apply lower_last in Hends as [H2 Hends]; [|auto]);
      try (apply lower_last in Hends as [H3 Hends]; [|auto]);
      try discriminate Hends.
    apply lower_last in Hends as [H4 _]; [|auto].
    apply lowerUnit_dot in H4. subst c4.
    assert (Hname : name = rev r ++ 46 :: [c3; c2; c1]).
    { apply (f_equal (@rev Z)) in Er. rewrite rev_involutive in Er.
      rewrite Er. cbn [rev]. now rewrite <- !app_assoc. }
    unfold fileExtOf. rewrite Hname, split_last_piece.
    - unfold Chat.toLowerCase. cbn [flat_map]. now rewrite H3, H2, H1.
    - repeat constructor;
        [apply (lowerUnit_letter H3) | apply (lowerUnit_letter H2)
         | apply (lowerUnit_letter H1)]; discriminate. }
  split; [exact Hext|]. split; [now rewrite Hext|].
  intros type. unfold isPdfFile. rewrite Hends. apply orb_true_r.
Qed.

Lemma pdf_name_witness :
  fileExtOf (lit "Annual.Report.PDF") = lit "pdf".
Proof.
  apply (@pdf_name_gives_pdf_type (lit "Annual.Report.PDF")). reflexivity.
Defined.

End ClientText.

(* ------------------------------------------------------------------ *)
(** ** Uploading and reprocessing, to the end *)
(* ------------------------------------------------------------------ *)

Module UploadFacts.
Import Platform Ingestion Chunker PdfParser Upload.
Import Frame JobFacts Scenarios JobOutcomes ClientExtraction.
Local Open Scope Z_scope.

(** Two pages, read by pdf.js. *)
Definition twoPages : File :=
  mkFile (lit "minutes.pdf") (lit "application/pdf") 40000 (lit "%PDF-1.7")
         (inr [[lit "Minutes of the"; lit "annual  meeting."];
               [lit "The board approved the budget for the coming year."]]).


Lemma filter_map_same_id (f : Source -> Source) i l :
  (forall r, id (f r) = id r) ->
  filter (fun r => str_eqb (id r) i)
         (map (fun r => if str_eqb (id r) i then f r else r) l)
  = map f (filter (fun r => str_eqb (id r) i) l).
Proof.
  intros Hf. induction l as [|r l IH]; [reflexivity|].
  cbn [map filter]. destruct (str_eqb (id r) i) eqn:E.
  - rewrite Hf, E. cbn [map]. now rewrite IH.
  - rewrite E. exact IH.
Qed.

(** X17.  Reprocessing a PDF above the 2 MB ceiling cannot succeed.  The hook
    invokes the function with the id alone, so the job has no text from the
    browser: whatever the status of the document was, it ends in [error]
    with the message that asks for a new upload, no call to the gateway is
    made, and the chunks stored by an earlier pass stay. *)
Theorem reprocessing_a_large_pdf_fails
    (i raw : jsstring) (source : Source) (w : World) :
  i <> [] ->
  falsy (LOVABLE_API_KEY w) = false ->
  filter (fun r => str_eqb (id r) i) (sources w) = [source] ->
  file_type source = lit "pdf" ->
  MAX_SERVER_PDF_BYTES < file_size source ->
  storage w (file_path source) = Downloaded raw ->
  let served := reprocessSource i w in
  reply served = mkReply 200 (Started (lit "Document processing started") i)
  /\ ledger (settled served)
     = ledgerMark i error (Some (tooLargeMessage (file_size source))) (ledger w)
  /\ source_chunks (settled served) = source_chunks w
  /\ fetches (settled served) = fetches w.
Proof.
  intros Hi Hkey Hrow Ht Hsize Hs served. subst served.
  unfold reprocessSource.
  set (w1 := snd (updateSource i resetForReprocess w)).
  set (row := update_updated_at (clock w) (resetForReprocess source)).
  assert (Hrow1 : filter (fun r => str_eqb (id r) i) (sources w1) = [row]).
  { subst w1. cbn [snd updateSource sources setSources].
    rewrite (@filter_map_same_id
               (fun r => update_updated_at (clock w) (resetForReprocess r)) i
               (sources w) ltac:(reflexivity)).
    now rewrite Hrow. }
  assert (Hid : id source = i).
  { assert (Hin : In source (filter (fun r => str_eqb (id r) i) (sources w)))
      by (rewrite Hrow; now left).
    apply filter_In in Hin as [_ Hin]. now apply str_eqb_eq. }
  rewrite (@serve_started i None row w1 Hi Hkey Hrow1).
  unfold settled. cbn [reply background at_reply].
  set (w2 := snd (updateSource i (markProcessing (clock w1)) w1)).
  assert (Hx : extractPhase row None w2
               = (Throw (tooLargeMessage (file_size row)), w2)).
  { apply (@TriggerClaims.extractPhase_oversized row None raw w2);
      [reflexivity | exact Ht | exact Hs | exact Hsize]. }
  destruct (job_after_failure row None w2 Hx) as (Hl & Hc & Hf).
  split; [reflexivity|]. split; [|split; [exact Hc | exact Hf]].
  etransitivity; [exact Hl|].
  assert (Hl2 : ledger w2 = ledgerMark i processing None (ledger w1)).
  { subst w2. apply ledger_updateSource. intros r. simpl. auto. }
  assert (Hl1 : ledger w1 = ledgerMark i pending None (ledger w)).
  { subst w1. apply ledger_updateSource. intros r. simpl. auto. }
  change (id row) with (id source). change (file_size row) with (file_size source).
  now rewrite Hid, Hl2, Hl1, !ledgerMark_twice.
Qed.

(** A PDF of 3 MB that is [ready], with a chunk of an earlier pass. *)
Definition largeReady : World :=
  mkWorld [mkSource (lit "doc1") (lit "atlas.pdf") (lit "u1/atlas.pdf")
                    (lit "pdf") 3145728 (lit "u1") ready None (Some 1000)
                    (Some 50) None (Some 120) (Some (lit "Atlas")) 2000]
          [mkChunk (lit "doc1") 0 (lit "text of an earlier pass")]
          (fun _ => Downloaded (lit "%PDF-1.7")) rateLimited 0 5000 []
          (Some (lit "key")).

Lemma reprocessing_witness :
  ledger (settled (reprocessSource (lit "doc1") largeReady))
  = [(lit "doc1", error, Some (tooLargeMessage 3145728))]
  /\ source_chunks (settled (reprocessSource (lit "doc1") largeReady))
     = [mkChunk (lit "doc1") 0 (lit "text of an earlier pass")].
Proof.
  destruct (@reprocessing_a_large_pdf_fails
              (lit "doc1") (lit "%PDF-1.7")
              (mkSource (lit "doc1") (lit "atlas.pdf") (lit "u1/atlas.pdf")
                        (lit "pdf") 3145728 (lit "u1") ready None (Some 1000)
                        (Some 50) None (Some 120) (Some (lit "Atlas")) 2000)
              largeReady
              ltac:(discriminate) eq_refl eq_refl eq_refl eq_refl eq_refl)
    as (_ & Hl & Hc & _).
  split; [exact Hl | exact Hc].
Defined.

End UploadFacts.

(* ------------------------------------------------------------------ *)
(** ** Lines of an event stream *)
(* ------------------------------------------------------------------ *)

Module StreamFacts.
Import ChatStream ScanFacts.
Local Open Scope Z_scope.

(** [s.split("\n")], by structural recursion. *)
Fixpoint linesOf (s : jsstring) : list jsstring :=
  match s with
  | [] => [[]]
  | c :: s' =>
      if c =? 10 then [] :: linesOf s'
      else match linesOf s' with
           | p :: ps => (c :: p) :: ps
           | [] => [[c]]
           end
  end.

Lemma linesOf_nonempty s : linesOf s <> [].
Proof.
  destruct s as [|c s]; simpl; [discriminate|].
  destruct (c =? 10); [discriminate|]. destruct (linesOf s); discriminate.
Qed.

Lemma split_newline_scan s : forall prev,
  scan (literal [10]) prev 0 s
  = map (fun c => if c =? 10 then Hit [10] else Keep c) s.
Proof.
  induction s as [|c s IH]; intros prev; [reflexivity|].
  cbn [scan map]. unfold literal at 1. cbn [isPrefix length].
  rewrite Z.eqb_sym. destruct (c =? 10) eqn:E; cbn [andb].
  - apply Z.eqb_eq in E. subst c. cbn [firstn]. now rewrite IH.
  - now rewrite IH.
Qed.

Lemma jsSplit_linesOf s : jsSplit (literal [10]) s = linesOf s.
Proof.
  unfold jsSplit. rewrite split_newline_scan.
  induction s as [|c s IH]; [reflexivity|].
  cbn [map linesOf]. destruct (c =? 10); cbn [pieces].
  - destruct (pieces _) as [p ps]. now rewrite <- IH.
  - destruct (pieces _) as [p ps]. now rewrite <- IH.
Qed.

(** A line closed by its newline. *)
Lemma linesOf_line l rest :
  Forall (fun c => c <> 10) l -> linesOf (l ++ 10 :: rest) = l :: linesOf rest.
Proof.
  induction 1 as [|c l Hc _ IH]; [reflexivity|].
  cbn [app linesOf]. destruct (Z.eqb_spec c 10); [contradiction|].
  now rewrite IH.
Qed.

(** Text that arrives later only touches the last, unfinished line. *)
Lemma linesOf_app x : forall v,
  linesOf (x ++ v)
  = removelast (linesOf x) ++ linesOf (last (linesOf x) [] ++ v).
Proof.
  induction x as [|c x IH]; intros v; [reflexivity|].
  cbn [app linesOf]. rewrite IH.
  pose proof (linesOf_nonempty x) as Hne.
  destruct (c =? 10) eqn:E.
  - destruct (linesOf x) as [|p ps]; [contradiction|]. reflexivity.
  - destruct (linesOf x) as [|p [|q ps]]; [contradiction| |].
    + cbn [removelast last app linesOf]. rewrite E. reflexivity.
    + reflexivity.
Qed.

Lemma last_app_nonempty A (l l' : list A) d :
  l' <> [] -> last (l ++ l') d = last l' d.
Proof.
  intros Hne. induction l as [|a l IH]; [reflexivity|].
  cbn [app last]. destruct (l ++ l') eqn:E; [|exact IH].
  apply app_eq_nil in E as [_ E]. contradiction.
Qed.

Lemma linesOf_plain b : Forall (fun c => c <> 10) b -> linesOf b = [b].
Proof.
  induction 1 as [|c b Hc _ IH]; [reflexivity|].
  cbn [linesOf]. destruct (Z.eqb_spec c 10); [contradiction|]. now rewrite IH.
Qed.

Lemma linesOf_lines_plain s :
  Forall (fun line => Forall (fun c => c <> 10) line) (linesOf s).
Proof.
  induction s as [|c s IH]; [repeat constructor|].
  cbn [linesOf]. destruct (Z.eqb_spec c 10); [constructor; [constructor | exact IH]|].
  destruct (linesOf s) as [|p ps]; [repeat constructor; assumption|].
  inversion IH; subst. constructor; [constructor; assumption | assumption].
Qed.

Lemma last_plain s : Forall (fun c => c <> 10) (last (linesOf s) []).
Proof.
  pose proof (linesOf_lines_plain s) as H.
  induction (linesOf s) as [|p ps IH]; [constructor|].
  inversion H; subst. destruct ps as [|q ps]; [assumption|]. now apply IH.
Qed.

(** The loop over the reads sees the lines of the whole stream: each line
    that a newline has closed, once and in order, however the stream was cut
    into reads; what follows the last newline stays in the buffer. *)
Lemma readLines_stream S (perLine : S -> jsstring -> S) reads :
  forall buffer st,
    Forall (fun c => c <> 10) buffer ->
    fold_left (readLines perLine) reads (buffer, st)
    = (last (linesOf (buffer ++ concat reads)) [],
       fold_left perLine (removelast (linesOf (buffer ++ concat reads))) st).
Proof.
  induction reads as [|v reads IH]; intros buffer st Hb.
  - cbn [fold_left concat]. rewrite app_nil_r, (linesOf_plain Hb). reflexivity.
  - cbn [fold_left concat]. unfold readLines at 2. cbn [fst snd].
    rewrite jsSplit_linesOf, IH by apply last_plain.
    rewrite (app_assoc buffer v), (linesOf_app (buffer ++ v)).
    set (L1 := linesOf (buffer ++ v)).
    set (L2 := linesOf (last L1 [] ++ concat reads)).
    assert (Hne : L2 <> []) by apply linesOf_nonempty.
    rewrite last_app_nonempty by exact Hne.
    rewrite removelast_app by exact Hne.
    now rewrite fold_left_app.
Qed.

Lemma removelast_two A (a b : A) l :
  l <> [] -> removelast (a :: b :: l) = a :: b :: removelast l.
Proof. intros H. destruct l; [contradiction | reflexivity]. Qed.

Section Json.

Variable deltaContent : jsstring -> option jsstring.
Variable stringifyContent : jsstring -> jsstring.
Variable eventContent : jsstring -> option jsstring.

Let relay := relay deltaContent stringifyContent.
Let relayLine := relayLine deltaContent stringifyContent.
Let receive := receive eventContent.
Let receiveLine := receiveLine eventContent.

(** The lines of the stream that a newline has closed. *)
Definition closedLines (reads : list jsstring) : list jsstring :=
  removelast (jsSplit (literal [10]) (concat reads)).

Lemma relay_run reads :
  relay reads
  = let st := fold_left relayLine (closedLines reads) (mkRelayed [] []) in
    mkRelayed (fullResponse st)
              (written st ++ [lit "data: [DONE]" ++ [10; 10]]).
Proof.
  unfold relay, ChatStream.relay, closedLines.
  rewrite readLines_stream by constructor.
  now rewrite jsSplit_linesOf.
Qed.

(** X20.  What the function keeps of the answer and what it writes depend on the
    bytes of the gateway's stream alone, not on how they arrive: the reads
    may cut the stream anywhere, also inside a line.  The function handles
    each line that a newline has closed; text after the last newline is
    never handled. *)
Theorem relay_sees_lines_not_reads (reads : list jsstring) :
  relay reads = relay [concat reads]
  /\ relay reads
     = let st := fold_left relayLine (closedLines reads) (mkRelayed [] []) in
       mkRelayed (fullResponse st)
                 (written st ++ [lit "data: [DONE]" ++ [10; 10]]).
Proof.
  split; [|apply relay_run].
  rewrite !relay_run. unfold closedLines. cbn [concat].
  now rewrite app_nil_r.
Qed.

(** The contents the function finds in lines, and the event it writes for
    one. *)
Definition contentsOf (lines : list jsstring) : list jsstring :=
  flat_map (fun line =>
              if isData line then
                match deltaContent (skipn 6 line) with
                | Some content => [content]
                | None => []
                end
              else [])
           lines.

Definition event (content : jsstring) : jsstring :=
  lit "data: " ++ stringifyContent content ++ [10; 10].

Lemma relayLine_fold lines : forall st,
  fold_left relayLine lines st
  = mkRelayed (fullResponse st ++ concat (contentsOf lines))
              (written st ++ map event (contentsOf lines)).
Proof.
  induction lines as [|line lines IH]; intros st.
  - simpl. rewrite !app_nil_r. now destruct st.
  - cbn [fold_left contentsOf flat_map]. rewrite IH.
    unfold relayLine, ChatStream.relayLine.
    destruct (isData line); [|reflexivity].
    destruct (deltaContent (skipn 6 line)) as [content|]; [|reflexivity].
    cbn [fullResponse written app concat map].
    rewrite <- !app_assoc. reflexivity.
Qed.

Lemma contentsOf_found lines :
  Forall (fun content => exists payload, deltaContent payload = Some content)
         (contentsOf lines).
Proof.
  induction lines as [|line lines IH]; [constructor|].
  cbn [contentsOf flat_map]. destruct (isData line); [|exact IH].
  destruct (deltaContent (skipn 6 line)) as [content|] eqn:E; [|exact IH].
  constructor; [now exists (skipn 6 line) | exact IH].
Qed.

Lemma receive_run reads :
  receive reads = fold_left receiveLine (closedLines reads) [].
Proof.
  unfold receive, ChatStream.receive, closedLines.
  rewrite readLines_stream by constructor.
  now rewrite jsSplit_linesOf.
Qed.

Lemma receive_events cs :
  (forall c, Forall (fun u => u <> 10) (stringifyContent c)) ->
  (forall c, stringifyContent c <> lit "[DONE]") ->
  Forall (fun c => eventContent (stringifyContent c) = Some c) cs ->
  forall acc,
    fold_left receiveLine
      (removelast (linesOf (concat (map event cs)
                              ++ lit "data: [DONE]" ++ [10; 10])))
      acc
    = acc ++ concat cs.
Proof.
  intros H2 H3. induction 1 as [|c cs Hc _ IH]; intros acc.
  - cbn [map concat app]. rewrite app_nil_r. reflexivity.
  - cbn [map concat]. unfold event at 1.
    replace ((lit "data: " ++ stringifyContent c ++ [10; 10])
               ++ concat (map event cs))
      with ((lit "data: " ++ stringifyContent c)
              ++ 10 :: ([] ++ 10 :: concat (map event cs)))
      by (rewrite <- !app_assoc; reflexivity).
    rewrite <- app_assoc. rewrite <- app_comm_cons.
    rewrite linesOf_line.
    2:{ apply Forall_app. split; [repeat constructor; discriminate | apply H2]. }
    rewrite <- app_assoc, <- app_comm_cons.
    rewrite (@linesOf_line [] _ (Forall_nil _)).
    rewrite removelast_two by apply linesOf_nonempty.
    cbn [fold_left].
    assert (Hline : receiveLine acc (lit "data: " ++ stringifyContent c)
                    = acc ++ c).
    { unfold receiveLine, ChatStream.receiveLine, isData.
      rewrite isPrefix_self.
      destruct (str_eqb (lit "data: " ++ stringifyContent c)
                        (lit "data: [DONE]")) eqn:E.
      - exfalso. apply JobFacts.str_eqb_eq in E.
        apply (H3 c). apply (app_inv_head (lit "data: ")). exact E.
      - cbn [negb andb].
        change (skipn 6 (lit "data: " ++ stringifyContent c))
          with (stringifyContent c).
        now rewrite Hc. }
    rewrite Hline.
    change (receiveLine (acc ++ c) []) with (acc ++ c).
    cbn [concat]. rewrite (app_assoc acc c).
    exact (IH (acc ++ c)).
Qed.

(** X21.  From the gateway to the screen.  What the browser has put together
    when the stream ends is the answer the function saved, whatever the
    gateway sent and however either stream was cut into reads.  JSON enters
    through three facts: the [content] of an event the function wrote reads
    back as it was, [JSON.stringify] leaves no raw newline in its output,
    and its output is not the text "[DONE]". *)
Theorem browser_assembles_what_the_function_saved
    (upstream clientReads : list jsstring) :
  (forall payload content,
     deltaContent payload = Some content ->
     eventContent (stringifyContent content) = Some content) ->
  (forall content, Forall (fun u => u <> 10) (stringifyContent content)) ->
  (forall content, stringifyContent content <> lit "[DONE]") ->
  concat clientReads = concat (written (relay upstream)) ->
  receive clientReads = fullResponse (relay upstream).
Proof.
  intros H1 H2 H3 Hreads.
  rewrite receive_run. unfold closedLines.
  rewrite jsSplit_linesOf, Hreads, relay_run. cbv zeta.
  rewrite relayLine_fold. cbn [fullResponse written app].
  rewrite concat_app. cbn [concat]. rewrite app_nil_r.
  apply receive_events; [exact H2 | exact H3|].
  eapply Forall_impl; [|apply contentsOf_found].
  intros c [payload Hp]. now apply (H1 payload).
Qed.

End Json.

(** A stand-in for JSON that has the three facts: code units doubled and
    made odd, and back. *)
Definition oddUnits (content : jsstring) : jsstring :=
  map (fun u => 2 * u + 1) content.

Definition fromOddUnits (payload : jsstring) : option jsstring :=
  Some (map (fun v => (v - 1) / 2) payload).

Definition wholePayload (payload : jsstring) : option jsstring :=
  match payload with [] => None | _ :: _ => Some payload end.

Lemma oddUnits_back content : fromOddUnits (oddUnits content) = Some content.
Proof.
  unfold fromOddUnits, oddUnits. f_equal. rewrite map_map.
  rewrite <- (map_id content) at 2. apply map_ext. intros u.
  replace (2 * u + 1 - 1) with (u * 2) by lia. apply Z.div_mul. discriminate.
Qed.

Lemma oddUnits_plain content : Forall (fun u => u <> 10) (oddUnits content).
Proof. unfold oddUnits. apply Forall_map, Forall_forall. intros u _. lia. Qed.

Lemma oddUnits_not_done content : oddUnits content <> lit "[DONE]".
Proof.
  unfold oddUnits. change (lit "[DONE]") with [91; 68; 79; 78; 69; 93].
  intros H. apply (f_equal (fun l => (length l, nth 1 l 1))) in H.
  destruct content as [|a [|b content]]; cbn [map length nth] in H;
    [discriminate H | discriminate H |].
  assert (H2 : 2 * b + 1 = 68) by congruence. lia.
Qed.

(** The gateway sends "Hello" and "world" in two events, the first cut in
    two reads; the browser reads the stream of the function in two reads
    cut after nine code units. *)
Definition gatewayReads : list jsstring :=
  [lit "data: Hel"; lit "lo" ++ [10] ++ lit "data: world" ++ [10]].

Definition functionStream : jsstring :=
  concat (written (relay wholePayload oddUnits gatewayReads)).

Lemma browser_witness :
  receive fromOddUnits [firstn 9 functionStream; skipn 9 functionStream]
  = lit "Helloworld".
Proof.
  etransitivity.
  - apply (@browser_assembles_what_the_function_saved
             wholePayload oddUnits fromOddUnits gatewayReads
             [firstn 9 functionStream; skipn 9 functionStream]).
    + intros payload content _. apply oddUnits_back.
    + apply oddUnits_plain.
    + apply oddUnits_not_done.
    + vm_compute. reflexivity.
  - vm_compute. reflexivity.
Defined.

End StreamFacts.

(* ------------------------------------------------------------------ *)
(** ** What the model is told of the conversation *)
(* ------------------------------------------------------------------ *)

Module ConversationFacts.
Import Platform Chat Conversation.
Local Open Scope Z_scope.

Lemma insertByCreatedAt_last a x sorted :
  m_created_at a <= m_created_at x ->
  insertByCreatedAt a (sorted ++ [x]) = insertByCreatedAt a sorted ++ [x].
Proof.
  intros Hax. induction sorted as [|b sorted IH]; cbn [app insertByCreatedAt].
  - destruct (Z.leb_spec (m_created_at a) (m_created_at x)); [reflexivity | lia].
  - destruct (m_created_at a <=? m_created_at b); [reflexivity|].
    now rewrite IH.
Qed.

(** A row that is not older than any other comes last. *)
Lemma orderByCreatedAt_newest rows x :
  Forall (fun m => m_created_at m <= m_created_at x) rows ->
  orderByCreatedAt (rows ++ [x]) = orderByCreatedAt rows ++ [x].
Proof.
  unfold orderByCreatedAt. rewrite fold_right_app. cbn [fold_right insertByCreatedAt].
  induction 1 as [|a rows Ha _ IH]; [reflexivity|].
  cbn [fold_right]. rewrite IH. now apply insertByCreatedAt_last.
Qed.

Lemma insertByCreatedAt_length a sorted :
  length (insertByCreatedAt a sorted) = S (length sorted).
Proof.
  induction sorted as [|b sorted IH]; [reflexivity|].
  cbn [insertByCreatedAt]. destruct (_ <=? _); simpl; [reflexivity|].
  now rewrite IH.
Qed.

Lemma orderByCreatedAt_length rows :
  length (orderByCreatedAt rows) = length rows.
Proof.
  induction rows as [|a rows IH]; [reflexivity|].
  unfold orderByCreatedAt in *. cbn [fold_right].
  now rewrite insertByCreatedAt_length, IH.
Qed.

Lemma history_after_saving chatId message now rows :
  Forall (fun m => m_created_at m <= now) rows ->
  history chatId (saveUserMessage chatId message now rows)
  = firstn 20
      (orderByCreatedAt (filter (fun m => str_eqb (m_chat_id m) chatId) rows)
         ++ [mkChatMessage chatId (lit "user") message now]).
Proof.
  intros Hnow. unfold history, saveUserMessage. rewrite filter_app.
  cbn [filter m_chat_id].
  assert (E : str_eqb chatId chatId = true) by now apply JobFacts.str_eqb_eq.
  rewrite E. rewrite orderByCreatedAt_newest; [reflexivity|].
  apply Forall_forall. intros m Hin. apply filter_In in Hin as [Hin _].
  rewrite Forall_forall in Hnow. exact (Hnow m Hin).
Qed.

(** X22.  The conversation the model is given is the 20 oldest messages of the
    chat, the one just sent included only while the chat has fewer than 20.
    Once a chat holds 20 messages, a new message reaches the model in no
    message of the request: the conversation is the same 20 messages as
    before, and the text of the new one is used for the search of chunks
    alone.  The times of the stored messages are taken not to lie after the
    time of the request. *)
Theorem model_sees_the_twenty_oldest_messages
    (w : World) (chat_messages : list ChatMessage)
    (chatId message : jsstring) (sourceIds : list jsstring) (now : Z) :
  Forall (fun m => m_created_at m <= now) chat_messages ->
  let ofChat := filter (fun m => str_eqb (m_chat_id m) chatId) chat_messages in
  let before := map (fun m => (m_role m, m_content m))
                    (history chatId chat_messages) in
  let sent := messagesFor w chat_messages chatId message sourceIds now in
  hd_error sent
  = Some (lit "system",
          buildSystemPrompt (searchRelevantChunks w message sourceIds))
  /\ (length ofChat < 20 -> tl sent = before ++ [(lit "user", message)])%nat
  /\ (20 <= length ofChat -> tl sent = before)%nat.
Proof.
  intros Hnow ofChat before sent. subst sent. unfold messagesFor.
  cbn [hd_error tl]. split; [reflexivity|].
  rewrite (history_after_saving chatId message Hnow). fold ofChat.
  subst before. unfold history. fold ofChat.
  pose proof (orderByCreatedAt_length ofChat) as Hlen.
  split; intros H.
  - rewrite firstn_all2 by (rewrite length_app; simpl; lia).
    rewrite firstn_all2 by lia.
    now rewrite map_app.
  - rewrite firstn_app.
    replace (20 - length (orderByCreatedAt ofChat))%nat with 0%nat by lia.
    now rewrite firstn_O, app_nil_r.
Qed.

(** A chat of 20 messages, one a minute. *)
Definition twentyMessages : list ChatMessage :=
  map (fun k => mkChatMessage (lit "chat1") (lit "user") (lit "earlier")
                              (60000 * Z.of_nat k))
      (seq 0 20).

Lemma model_sees_witness :
  tl (messagesFor (Scenarios.world (Scenarios.document "txt" 10 None)
                                   Scenarios.rateLimited)
                  twentyMessages (lit "chat1") (lit "What is the budget?")
                  [] 1500000)
  = map (fun m => (m_role m, m_content m)) twentyMessages.
Proof.
  destruct (@model_sees_the_twenty_oldest_messages
              (Scenarios.world (Scenarios.document "txt" 10 None)
                               Scenarios.rateLimited)
              twentyMessages (lit "chat1") (lit "What is the budget?")
              [] 1500000)
    as (_ & _ & H).
  - unfold twentyMessages. apply Forall_map, Forall_forall.
    intros k Hk. apply in_seq in Hk. cbn [m_created_at]. lia.
  - rewrite H; [reflexivity | vm_compute; lia].
Defined.

End ConversationFacts.
